(** * DevFlow: the guide viewer's markdown renderer and the guide catalog

    A shallow embedding of

    - [src/app/components/guide-viewer/guide-viewer.component.ts]
      ([renderMarkdown], [escapeHtml], [highlightCode]) and
    - [src/app/services/guide.service.ts] ([GuideService]),
    - the [loadGuide] flow of the guide viewer and the dashboard
      component ([dashboard.component.ts]),

    together with the part of the ECMAScript regular-expression semantics
    ([RegExp.prototype.exec], [String.prototype.replace]) that these
    functions run on. *)

From Stdlib Require Import String Ascii.
From Stdlib Require Import List NArith ZArith Bool Lia Arith.
From Stdlib Require Import Sorting.Sorted Sorting.Permutation.
Import ListNotations.

Set Implicit Arguments.
Local Open Scope N_scope.

(** ** JavaScript strings

    A JavaScript string is a sequence of UTF-16 code units.  Regular
    expressions without the [u] flag work on code units. *)

Definition char16 := N.
Definition jsstring := list char16.

Definition LF : char16 := 10.
Definition DQ : char16 := 34.

(** [js "..."] is the literal with the given ASCII text.  A Rocq literal
    cannot hold a double quote, so inside [js] the tilde stands for the
    double quote (no literal of the program contains a tilde). *)
Definition js_char (a : ascii) : char16 :=
  let n := N_of_ascii a in if n =? 126 then DQ else n.

Definition js (s : string) : jsstring := map js_char (list_ascii_of_string s).

Definition char_eqb (a b : char16) : bool := a =? b.

Fixpoint str_eqb (a b : jsstring) : bool :=
  match a, b with
  | [], [] => true
  | x :: a', y :: b' => char_eqb x y && str_eqb a' b'
  | _, _ => false
  end.

(** [prefixb p s]: [s] starts with [p]. *)
Fixpoint prefixb (p s : jsstring) : bool :=
  match p, s with
  | [], _ => true
  | x :: p', y :: s' => char_eqb x y && prefixb p' s'
  | _ :: _, [] => false
  end.

(** [String.prototype.includes]. *)
Fixpoint includes (s p : jsstring) : bool :=
  prefixb p s ||
  match s with
  | [] => false
  | _ :: s' => includes s' p
  end.

(** ECMAScript [LineTerminator] and [WhiteSpace] code points. *)
Definition isLineTerminator (c : char16) : bool :=
  (c =? 10) || (c =? 13) || (c =? 8232) || (c =? 8233).

Definition isWhiteSpace (c : char16) : bool :=
  (c =? 9) || (c =? 11) || (c =? 12) || (c =? 32) || (c =? 160) ||
  (c =? 5760) || ((8192 <=? c) && (c <=? 8202)) || (c =? 8239) ||
  (c =? 8287) || (c =? 12288) || (c =? 65279).

Definition isSpace (c : char16) : bool := isWhiteSpace c || isLineTerminator c.

Definition isDigit (c : char16) : bool := (48 <=? c) && (c <=? 57).

Definition isWordChar (c : char16) : bool :=
  ((97 <=? c) && (c <=? 122)) || ((65 <=? c) && (c <=? 90)) ||
  isDigit c || (c =? 95).

(** [String.prototype.trim]: strips white space and line terminators from
    both ends. *)
Fixpoint trimStart (s : jsstring) : jsstring :=
  match s with
  | c :: s' => if isSpace c then trimStart s' else s
  | [] => []
  end.

Definition trimEnd (s : jsstring) : jsstring := rev (trimStart (rev s)).

Definition trim (s : jsstring) : jsstring := trimEnd (trimStart s).

(** ** Regular expressions *)

Record flags := Flags {
  global : bool;
  ignoreCase : bool;
  multiline : bool;
  dotAll : bool
}.

Inductive cset_item :=
| CChar (c : char16)
| CRange (lo hi : char16)
| CWord            (* \w *)
| CDigit           (* \d *)
| CSpace           (* \s *)
| CNotSpace.       (* \S *)

Inductive regex :=
| Empty
| Chr (c : char16)
| Dot
| CSet (negated : bool) (items : list cset_item)
| Seq (r1 r2 : regex)
| Alt (r1 r2 : regex)
| Quant (min : nat) (max : option nat) (greedy : bool) (r : regex)
| Group (n : nat) (r : regex)
| Bol              (* ^ *)
| Eol              (* $ *)
| WordB.           (* \b *)

Declare Scope regex_scope.
Delimit Scope regex_scope with re.
Bind Scope regex_scope with regex.
Notation "a >> b" := (Seq a b) (at level 61, right associativity) : regex_scope.

Definition Star (r : regex) := Quant 0 None true r.        (* r*  *)
Definition LazyStar (r : regex) := Quant 0 None false r.   (* r*? *)
Definition Plus (r : regex) := Quant 1 None true r.        (* r+  *)
Definition Opt (r : regex) := Quant 0 (Some 1%nat) true r. (* r?  *)

Fixpoint lit_chars (s : jsstring) : regex :=
  match s with
  | [] => Empty
  | [c] => Chr c
  | c :: s' => Seq (Chr c) (lit_chars s')
  end.

(** A run of literal pattern characters. *)
Definition lit (s : string) : regex := lit_chars (js s).

Definition word : regex := CSet false [CWord].
Definition digit : regex := CSet false [CDigit].
Definition anychar : regex := CSet false [CSpace; CNotSpace].   (* [\s\S] *)
Definition notchar (c : string) : regex := CSet true (map CChar (js c)).

(** Captures: the text of each group that took part in the match, latest
    binding first. *)
Definition captures := list (nat * jsstring).

Fixpoint cap (n : nat) (c : captures) : option jsstring :=
  match c with
  | [] => None
  | (i, s) :: c' => if Nat.eqb i n then Some s else cap n c'
  end.

Definition clear_caps (gs : list nat) (c : captures) : captures :=
  filter (fun p => negb (existsb (Nat.eqb (fst p)) gs)) c.

(** The matcher state: the input split at the current position ([before]
    is reversed, nearest character first) and the captures. *)
Record mstate := MState {
  before : jsstring;
  rest : jsstring;
  caps : captures
}.

Definition result := option mstate.
Definition cont := mstate -> result.
Definition matcher := mstate -> cont -> result.

(** [Canonicalize] for a pattern without the [u] flag: the upper-case
    mapping of a code unit, kept only when it does not turn a non-ASCII
    unit into an ASCII one.  Every pattern character of the program is
    ASCII, so only the ASCII part of the mapping can decide a comparison. *)
Definition canonicalize (fl : flags) (c : char16) : char16 :=
  if ignoreCase fl && (97 <=? c) && (c <=? 122) then c - 32 else c.

Definition lower (c : char16) : char16 :=
  if (65 <=? c) && (c <=? 90) then c + 32 else c.

Definition item_mem (it : cset_item) (c : char16) : bool :=
  match it with
  | CChar a => c =? a
  | CRange lo hi => (lo <=? c) && (c <=? hi)
  | CWord => isWordChar c
  | CDigit => isDigit c
  | CSpace => isSpace c
  | CNotSpace => negb (isSpace c)
  end.

(** Membership in a class: some member has the same canonical form. *)
Definition set_mem (fl : flags) (items : list cset_item) (c : char16) : bool :=
  existsb (fun it => item_mem it c) items ||
  (ignoreCase fl &&
   (existsb (fun it => item_mem it (canonicalize fl c)) items ||
    existsb (fun it => item_mem it (lower c)) items)).

Definition step1 (x : mstate) (c : char16) (t : jsstring) : mstate :=
  MState (c :: before x) t (caps x).

Definition match_char (p : char16 -> bool) : matcher :=
  fun x k =>
    match rest x with
    | c :: t => if p c then k (step1 x c t) else None
    | [] => None
    end.

Definition at_bol (fl : flags) (x : mstate) : bool :=
  match before x with
  | [] => true
  | c :: _ => multiline fl && isLineTerminator c
  end.

Definition at_eol (fl : flags) (x : mstate) : bool :=
  match rest x with
  | [] => true
  | c :: _ => multiline fl && isLineTerminator c
  end.

Definition at_wordb (x : mstate) : bool :=
  let a := match before x with c :: _ => isWordChar c | [] => false end in
  let b := match rest x with c :: _ => isWordChar c | [] => false end in
  xorb a b.

Definition assert (p : mstate -> bool) : matcher :=
  fun x k => if p x then k x else None.

(** The text consumed between state [x] and the later state [y]. *)
Definition consumed (x y : mstate) : jsstring :=
  rev (firstn (length (before y) - length (before x)) (before y)).

Fixpoint groups (r : regex) : list nat :=
  match r with
  | Seq a b | Alt a b => groups a ++ groups b
  | Quant _ _ _ a => groups a
  | Group n a => n :: groups a
  | _ => []
  end.

Definition pred_max (max : option nat) : option nat :=
  match max with
  | Some n => Some (Nat.pred n)
  | None => None
  end.

Definition is_zero (max : option nat) : bool :=
  match max with
  | Some O => true
  | _ => false
  end.

(** [RepeatMatcher] of the ECMAScript specification.  An iteration that
    is not required ([min = 0]) and consumes nothing fails, so every call
    either lowers [min] or shortens the input: [fuel] is started at
    [min + length (rest x) + 1] and is never used up. *)
Fixpoint repeat_matcher (body : matcher) (gs : list nat) (greedy : bool)
    (fuel min : nat) (max : option nat) (x : mstate) (c : cont) : result :=
  match fuel with
  | O => None
  | S fuel' =>
    if is_zero max then c x else
    let d : cont := fun y =>
      if Nat.eqb min 0 && Nat.eqb (length (rest y)) (length (rest x)) then None
      else repeat_matcher body gs greedy fuel' (Nat.pred min) (pred_max max) y c in
    let xr := MState (before x) (rest x) (clear_caps gs (caps x)) in
    if negb (Nat.eqb min 0) then body xr d
    else if greedy then
      match body xr d with
      | Some z => Some z
      | None => c x
      end
    else
      match c x with
      | Some z => Some z
      | None => body xr d
      end
  end.

(** The matcher of a pattern, in continuation-passing style as in the
    ECMAScript specification: alternatives are tried in order and the
    first success of the continuation wins. *)
Fixpoint m (fl : flags) (r : regex) : matcher :=
  match r with
  | Empty => fun x k => k x
  | Chr a => match_char (fun c => canonicalize fl c =? canonicalize fl a)
  | Dot => match_char (fun c => dotAll fl || negb (isLineTerminator c))
  | CSet neg items => match_char (fun c => xorb neg (set_mem fl items c))
  | Seq r1 r2 => fun x k => m fl r1 x (fun y => m fl r2 y k)
  | Alt r1 r2 => fun x k =>
      match m fl r1 x k with
      | Some z => Some z
      | None => m fl r2 x k
      end
  | Quant min max greedy r1 => fun x k =>
      repeat_matcher (m fl r1) (groups r1) greedy
        (min + length (rest x) + 1) min max x k
  | Group n r1 => fun x k =>
      m fl r1 x (fun y => k (MState (before y) (rest y)
                                    ((n, consumed x y) :: caps y)))
  | Bol => assert (at_bol fl)
  | Eol => assert (at_eol fl)
  | WordB => assert at_wordb
  end.

(** One match found by [exec]: the text skipped before it, the matched
    text, and the captures. *)
Record found := Found {
  skipped : jsstring;
  matched : jsstring;
  groups_of : captures;
  after : mstate
}.

(** [RegExp.prototype.exec] from the position that splits the input into
    [bef] (reversed) and [rst]: the leftmost position at which the pattern
    matches. *)
Fixpoint exec_from (fl : flags) (r : regex) (bef rst : jsstring)
    (sk : jsstring) : option found :=
  let x := MState bef rst [] in
  match m fl r x (fun y => Some y) with
  | Some y => Some (Found (rev sk) (consumed x y) (caps y) y)
  | None =>
    match rst with
    | [] => None
    | c :: t => exec_from fl r (c :: bef) t (c :: sk)
    end
  end.

(** What [String.prototype.replace] works from: the matches in order,
    each with the text skipped before it, and the text left after the
    last one.  After an empty match the search moves on by one code unit,
    which is copied. *)
Inductive piece :=
| Match (f : found)
| Text (s : jsstring).

Fixpoint match_all (fl : flags) (r : regex) (fuel : nat) (bef rst : jsstring)
    : list piece :=
  match fuel with
  | O => [Text rst]
  | S fuel' =>
    match exec_from fl r bef rst [] with
    | None => [Text rst]
    | Some f =>
      Match f ::
      if negb (global fl) then [Text (rest (after f))]
      else
        match matched f, rest (after f) with
        | [], [] => []
        | [], c :: t => Text [c] :: match_all fl r fuel' (c :: before (after f)) t
        | _ :: _, _ => match_all fl r fuel' (before (after f)) (rest (after f))
        end
    end
  end.

Definition pieces (fl : flags) (r : regex) (s : jsstring) : list piece :=
  match_all fl r (S (length s)) [] s.

(** Replacement templates: literal text and [$n] group references.  A
    group that did not take part in the match is replaced by the empty
    string. *)
Inductive titem :=
| TLit (s : string)
| TGroup (n : nat).

Definition expand_item (c : captures) (t : titem) : jsstring :=
  match t with
  | TLit s => js s
  | TGroup n => match cap n c with Some s => s | None => [] end
  end.

Definition expand (t : list titem) (c : captures) : jsstring :=
  concat (map (expand_item c) t).

Definition render_piece (t : list titem) (p : piece) : jsstring :=
  match p with
  | Match f => skipped f ++ expand t (groups_of f)
  | Text s => s
  end.

(** [s.replace(/r/flags, 'template')]. *)
Definition replace (fl : flags) (r : regex) (t : list titem) (s : jsstring)
    : jsstring :=
  concat (map (render_piece t) (pieces fl r s)).

(** Outcomes of code that may throw. *)
Inductive error := TypeError.

Inductive outcome (A : Type) :=
| Ok (a : A)
| Throw (e : error).
Arguments Ok {A} a.
Arguments Throw {A} e.

Definition bind {A B} (o : outcome A) (f : A -> outcome B) : outcome B :=
  match o with
  | Ok a => f a
  | Throw e => Throw e
  end.

Notation "x <- o ;; k" := (bind o (fun x => k))
  (at level 61, o at next level, right associativity).

Fixpoint render_with (f : jsstring -> captures -> outcome jsstring)
    (ps : list piece) : outcome jsstring :=
  match ps with
  | [] => Ok []
  | Match g :: ps' =>
      s <- f (matched g) (groups_of g) ;;
      tl <- render_with f ps' ;;
      Ok (skipped g ++ s ++ tl)
  | Text s :: ps' =>
      tl <- render_with f ps' ;;
      Ok (s ++ tl)
  end.

(** [s.replace(/r/flags, (match, p1, p2, ...) => ...)]. *)
Definition replace_with (fl : flags) (r : regex)
    (f : jsstring -> captures -> outcome jsstring) (s : jsstring)
    : outcome jsstring :=
  render_with f (pieces fl r s).

Definition g_ : flags := Flags true false false false.
Definition gm : flags := Flags true false true false.
Definition gim : flags := Flags true true true false.
Definition s_ : flags := Flags false false false true.

(** ** The guide viewer: [guide-viewer.component.ts] *)

Module GuideViewer.

Local Open Scope regex_scope.

(** [escapeHtml]: the text is stored in a fresh [div] as its
    [textContent] and read back as [innerHTML], which is the HTML
    serialisation of one text node: [&], the no-break space, [<] and [>]
    are replaced by character references. *)
Definition escape_char (c : char16) : jsstring :=
  if c =? 38 then js "&amp;"
  else if c =? 160 then js "&nbsp;"
  else if c =? 60 then js "&lt;"
  else if c =? 62 then js "&gt;"
  else [c].

Definition escapeHtml (text : jsstring) : jsstring :=
  flat_map escape_char text.

Definition keywords : list string :=
  ["public"; "private"; "protected"; "class"; "interface"; "extends"; "implements";
   "import"; "package"; "return"; "if"; "else"; "for"; "while"; "do"; "switch";
   "case"; "break"; "continue"; "new"; "this"; "super"; "static"; "final";
   "abstract"; "void"; "int"; "long"; "double"; "float"; "boolean"; "String";
   "const"; "let"; "var"; "function"; "async"; "await"; "try"; "catch"; "throw"]%string.

(** [new RegExp(`\\b(${keyword})\\b`, 'g')] *)
Definition keyword_regex (keyword : string) : regex :=
  WordB >> Group 1 (lit keyword) >> WordB.

Definition span (cls : string) (body : list titem) : list titem :=
  TLit "<span class=~" :: TLit cls :: TLit "~>" :: body ++ [TLit "</span>"].

(** [lang === '...'] for an optional argument. *)
Definition lang_is (lang : option jsstring) (s : string) : bool :=
  match lang with
  | Some l => str_eqb l (js s)
  | None => false
  end.

Definition block_comment : regex :=                    (* /\/\*([\s\S]*?)\*\//g *)
  lit "/*" >> Group 1 (LazyStar anychar) >> lit "*/".

Definition highlight_java (highlighted : jsstring) : jsstring :=
  let highlighted :=
    fold_left (fun h keyword =>
                 replace g_ (keyword_regex keyword)
                         (span "keyword" [TGroup 1]) h)
              keywords highlighted in
  (* /@(\w+)/g *)
  let highlighted :=
    replace g_ (lit "@" >> Group 1 (Plus word))
            (span "keyword" [TLit "@"; TGroup 1]) highlighted in
  (* Strings, flag g: a double quote, group 1 = a run of characters other
     than the double quote (possibly empty, greedy), a double quote. *)
  let highlighted :=
    replace g_ (lit "~" >> Group 1 (Star (notchar "~")) >> lit "~")
            (span "string" [TLit "~"; TGroup 1; TLit "~"]) highlighted in
  (* The same with the single quote. *)
  let highlighted :=
    replace g_ (lit "'" >> Group 1 (Star (notchar "'")) >> lit "'")
            (span "string" [TLit "'"; TGroup 1; TLit "'"]) highlighted in
  (* Numbers, flag g: \b, group 1 = \d+ \.? \d* , \b. *)
  let highlighted :=
    replace g_ (WordB >> Group 1 (Plus digit >> Opt (lit ".") >> Star digit) >> WordB)
            (span "number" [TGroup 1]) highlighted in
  (* /\/\/(.*?)$/gm *)
  let highlighted :=
    replace gm (lit "//" >> Group 1 (LazyStar Dot) >> Eol)
            (span "comment" [TLit "//"; TGroup 1]) highlighted in
  let highlighted :=
    replace g_ block_comment
            (span "comment" [TLit "/*"; TGroup 1; TLit "*/"]) highlighted in
  (* /\b([A-Z]\w+)\b/g *)
  let highlighted :=
    replace g_ (WordB >> Group 1 (CSet false [CRange 65 90] >> Plus word) >> WordB)
            (span "class" [TGroup 1]) highlighted in
  highlighted.

Definition highlight_css (highlighted : jsstring) : jsstring :=
  (* /([a-z-]+):/g *)
  let highlighted :=
    replace g_ (Group 1 (Plus (CSet false [CRange 97 122; CChar 45])) >> lit ":")
            (span "property" [TGroup 1] ++ [TLit ":"]) highlighted in
  (* /:([^;{]+)/g *)
  let highlighted :=
    replace g_ (lit ":" >> Group 1 (Plus (notchar ";{")))
            (TLit ": " :: span "string" [TGroup 1]) highlighted in
  (* /^([.#]?[\w-]+)(\s*{)?/gm *)
  let highlighted :=
    replace gm (Bol >> Group 1 (Opt (CSet false [CChar 46; CChar 35]) >>
                                Plus (CSet false [CWord; CChar 45])) >>
                Opt (Group 2 (Star (CSet false [CSpace]) >> lit "{")))
            (span "class" [TGroup 1] ++ [TGroup 2]) highlighted in
  (* /(\d+)(px|em|rem|%|vh|vw)?/g *)
  let highlighted :=
    replace g_ (Group 1 (Plus digit) >>
                Opt (Group 2 (Alt (lit "px") (Alt (lit "em") (Alt (lit "rem")
                             (Alt (lit "%") (Alt (lit "vh") (lit "vw"))))))))
            (span "number" [TGroup 1; TGroup 2]) highlighted in
  let highlighted :=
    replace g_ block_comment
            (span "comment" [TLit "/*"; TGroup 1; TLit "*/"]) highlighted in
  highlighted.

Definition highlight_html (highlighted : jsstring) : jsstring :=
  (* /&lt;(\/?[\w-]+)/g *)
  let highlighted :=
    replace g_ (lit "&lt;" >> Group 1 (Opt (lit "/") >>
                                       Plus (CSet false [CWord; CChar 45])))
            (TLit "&lt;" :: span "keyword" [TGroup 1]) highlighted in
  (* /(\w+)=/g *)
  let highlighted :=
    replace g_ (Group 1 (Plus word) >> lit "=")
            (span "property" [TGroup 1] ++ [TLit "="]) highlighted in
  (* Attribute values, flag g: =, a double quote, group 1 = a run of
     characters other than the double quote, a double quote. *)
  let highlighted :=
    replace g_ (lit "=~" >> Group 1 (Star (notchar "~")) >> lit "~")
            (TLit "=" :: span "string" [TLit "~"; TGroup 1; TLit "~"]) highlighted in
  highlighted.

Definition highlightCode (code : jsstring) (lang : option jsstring) : jsstring :=
  let highlighted := escapeHtml code in
  if lang_is lang "java" || lang_is lang "javascript" || lang_is lang "typescript"
     || lang_is lang "js" || lang_is lang "ts" then
    highlight_java highlighted
  else if lang_is lang "css" || lang_is lang "scss" then
    highlight_css highlighted
  else if lang_is lang "html" || lang_is lang "xml" then
    highlight_html highlighted
  else highlighted.

(** [code.trim()] on a callback argument: a group that did not take part
    in the match is [undefined], and calling a method on it throws. *)
Definition trim_method (code : option jsstring) : outcome jsstring :=
  match code with
  | Some s => Ok (trim s)
  | None => Throw TypeError
  end.

(** [lang || 'text'] *)
Definition lang_or_text (lang : option jsstring) : jsstring :=
  match lang with
  | Some (c :: l) => c :: l
  | _ => js "text"
  end.

(** The two parts of the template literal of the code-block pass, around
    the highlighted code. *)
Definition code_open (lang : jsstring) : jsstring :=
  js "<div class=~code-wrapper~><pre><code class=~language-" ++ lang ++ js "~>".

Definition code_close : jsstring := js "</code></pre></div>".

(** The replacement function of the code-block pass. *)
Definition code_block (_ : jsstring) (c : captures) : outcome jsstring :=
  let lang := cap 1 c in
  let code := cap 2 c in
  trimmed <- trim_method code ;;
  let highlightedCode := highlightCode trimmed lang in
  Ok (code_open (lang_or_text lang) ++ highlightedCode ++ code_close).

Definition header (hashes tag : string) (html : jsstring) : jsstring :=
  replace gim (Bol >> lit hashes >> lit " " >> Group 1 (Star Dot >> Eol))
          [TLit "<"; TLit tag; TLit ">"; TGroup 1; TLit "</"; TLit tag; TLit ">"]
          html.

(** /```(\w+)?\n([\s\S]*?)```/gim *)
Definition fence : regex :=
  lit "```" >> Opt (Group 1 (Plus word)) >> Chr LF >>
  Group 2 (LazyStar anychar) >> lit "```".

(** Bold: /\*\*(.*?)\*\*/gim *)
Definition bold (html : jsstring) : jsstring :=
  replace gim (lit "**" >> Group 1 (LazyStar Dot) >> lit "**")
          [TLit "<strong>"; TGroup 1; TLit "</strong>"] html.

(** Italic: /\*(.*?)\*/gim *)
Definition italic (html : jsstring) : jsstring :=
  replace gim (lit "*" >> Group 1 (LazyStar Dot) >> lit "*")
          [TLit "<em>"; TGroup 1; TLit "</em>"] html.

(** The passes of [renderMarkdown] up to the code blocks. *)
Definition inline_passes (markdown : jsstring) : jsstring :=
  let html := markdown in
  (* Headers *)
  let html := header "###" "h3" html in
  let html := header "##" "h2" html in
  let html := header "#" "h1" html in
  let html := bold html in
  let html := italic html in
  html.

(** /(<li>.*<\/li>)/s, not global *)
Definition wrap_list (html : jsstring) : jsstring :=
  replace s_ (Group 1 (lit "<li>" >> Star Dot >> lit "</li>"))
          [TLit "<ul>"; TGroup 1; TLit "</ul>"] html.

(** The passes between the code blocks and the paragraphs. *)
Definition block_passes (html : jsstring) : jsstring :=
  (* Inline code: /`([^`]+)`/gim *)
  let html :=
    replace gim (lit "`" >> Group 1 (Plus (notchar "`")) >> lit "`")
            [TLit "<code>"; TGroup 1; TLit "</code>"] html in
  (* Links: /\[([^\]]+)\]\(([^)]+)\)/gim *)
  let html :=
    replace gim (lit "[" >> Group 1 (Plus (notchar "]")) >> lit "](" >>
                 Group 2 (Plus (notchar ")")) >> lit ")")
            [TLit "<a href=~"; TGroup 2; TLit "~ target=~_blank~>"; TGroup 1;
             TLit "</a>"] html in
  (* Lists (unordered): /^\- (.*$)/gim *)
  let html :=
    replace gim (Bol >> lit "- " >> Group 1 (Star Dot >> Eol))
            [TLit "<li>"; TGroup 1; TLit "</li>"] html in
  let html := wrap_list html in
  (* Lists (ordered): /^\d+\. (.*$)/gim *)
  let html :=
    replace gim (Bol >> Plus digit >> lit ". " >> Group 1 (Star Dot >> Eol))
            [TLit "<li>"; TGroup 1; TLit "</li>"] html in
  (* Horizontal rule: /^---$/gim *)
  let html := replace gim (Bol >> lit "---" >> Eol) [TLit "<hr>"] html in
  html.

(** Paragraphs: /\n\n/gim, then the outer [<p>]. *)
Definition blank_lines (html : jsstring) : jsstring :=
  replace gim (Chr LF >> Chr LF) [TLit "</p><p>"] html.

Definition paragraphs (html : jsstring) : jsstring :=
  let html := blank_lines html in
  js "<p>" ++ html ++ js "</p>".

Definition h1_6 : regex := CSet false [CRange 49 54].   (* [1-6] *)

(** Clean up empty paragraphs. *)
Definition cleanup (html : jsstring) : jsstring :=
  let html := replace gim (lit "<p></p>") [] html in
  let html :=
    replace gim (lit "<p>" >> Group 1 (lit "<h" >> h1_6 >> lit ">"))
            [TGroup 1] html in
  let html :=
    replace gim (Group 1 (lit "</h" >> h1_6 >> lit ">") >> lit "</p>")
            [TGroup 1] html in
  let html := replace gim (lit "<p>" >> Group 1 (lit "<ul>")) [TGroup 1] html in
  let html := replace gim (Group 1 (lit "</ul>") >> lit "</p>") [TGroup 1] html in
  let html :=
    replace gim (lit "<p>" >> Group 1 (lit "<div class=~code-wrapper~>"))
            [TGroup 1] html in
  let html := replace gim (Group 1 (lit "</div>") >> lit "</p>") [TGroup 1] html in
  let html :=
    replace gim (lit "<p>" >> Group 1 (lit "<hr>") >> lit "</p>") [TGroup 1] html in
  html.

Definition renderMarkdown (markdown : jsstring) : outcome jsstring :=
  let html := inline_passes markdown in
  (* Code blocks *)
  html <- replace_with gim fence code_block html ;;
  let html := block_passes html in
  let html := paragraphs html in
  let html := cleanup html in
  Ok html.

End GuideViewer.


(** ** The guide catalog: [guide.service.ts] *)

Module GuideService.

Local Open Scope Z_scope.

Inductive GuideCategory :=
| ARCHITECTURE | ENVIRONMENT | BACKEND | FRONTEND | TESTS
| SONARQUBE | DOCKER | CICD | DEPLOYMENT | MONITORING.

Definition category_eqb (a b : GuideCategory) : bool :=
  match a, b with
  | ARCHITECTURE, ARCHITECTURE | ENVIRONMENT, ENVIRONMENT | BACKEND, BACKEND
  | FRONTEND, FRONTEND | TESTS, TESTS | SONARQUBE, SONARQUBE | DOCKER, DOCKER
  | CICD, CICD | DEPLOYMENT, DEPLOYMENT | MONITORING, MONITORING => true
  | _, _ => false
  end.

(** [interface Guide].  [order] is a number that the catalog only ever
    fills with integer literals; [lastUpdated] is a time stamp;
    [isViewed] is optional. *)
Record Guide := mkGuide {
  id : jsstring;
  title : jsstring;
  category : GuideCategory;
  content : jsstring;
  tags : list jsstring;
  order : Z;
  icon : jsstring;
  color : jsstring;
  lastUpdated : Z;
  isViewed : option bool
}.

(** The state of the service is the current value of [guidesSubject]. *)
Definition catalog := list Guide.

(** [{ ...guide, isViewed: true }] *)
Definition viewed (guide : Guide) : Guide :=
  mkGuide (id guide) (title guide) (category guide) (content guide)
          (tags guide) (order guide) (icon guide) (color guide)
          (lastUpdated guide) (Some true).

(** [Array.prototype.sort] with a comparison function: a stable sort;
    [x] goes before [y] when [compare x y < 0] and keeps its place among
    the elements it compares equal to. *)
Section Sort.
Variable A : Type.
Variable compare : A -> A -> Z.

Fixpoint insert (x : A) (l : list A) : list A :=
  match l with
  | [] => [x]
  | y :: l' => if compare x y <=? 0 then x :: l else y :: insert x l'
  end.

Definition sort (l : list A) : list A := fold_right insert [] l.
End Sort.

Definition getGuides (guides : catalog) : catalog := guides.

Definition getGuideById (i : jsstring) (guides : catalog) : option Guide :=
  find (fun g => str_eqb (id g) i) guides.

Definition getGuidesByCategory (c : GuideCategory) (guides : catalog)
    : list Guide :=
  sort (fun a b => order a - order b)
       (filter (fun g => category_eqb (category g) c) guides).

Definition markAsViewed (i : jsstring) (guides : catalog) : catalog :=
  map (fun guide => if str_eqb (id guide) i then viewed guide else guide) guides.

Section Operations.
(** [String.prototype.toLowerCase], the Unicode lower-case mapping of
    the platform. *)
Variable toLowerCase : jsstring -> jsstring.

Definition searchGuides (query : jsstring) (guides : catalog) : list Guide :=
  let lowerQuery := toLowerCase query in
  filter (fun guide =>
            includes (toLowerCase (title guide)) lowerQuery ||
            includes (toLowerCase (content guide)) lowerQuery ||
            existsb (fun tag => includes (toLowerCase tag) lowerQuery)
                    (tags guide))
         guides.

(** The public operations of the service and what each one answers. *)
Inductive operation :=
| GetGuides
| GetGuideById (i : jsstring)
| GetGuidesByCategory (c : GuideCategory)
| SearchGuides (query : jsstring)
| MarkAsViewed (i : jsstring).

Inductive answer :=
| Guides (gs : list Guide)
| MaybeGuide (g : option Guide)
| Void.

(** One call: the answer and the catalog afterwards. *)
Definition perform (o : operation) (guides : catalog) : answer * catalog :=
  match o with
  | GetGuides => (Guides (getGuides guides), guides)
  | GetGuideById i => (MaybeGuide (getGuideById i guides), guides)
  | GetGuidesByCategory c => (Guides (getGuidesByCategory c guides), guides)
  | SearchGuides q => (Guides (searchGuides q guides), guides)
  | MarkAsViewed i => (Void, markAsViewed i guides)
  end.

Definition run (ops : list operation) (guides : catalog) : catalog :=
  fold_left (fun gs o => snd (perform o gs)) ops guides.
End Operations.

End GuideService.


(** ** The guide viewer component: loading a guide *)

Module GuideViewerComponent.

Import GuideService.

(** What the component asks of its surroundings: a navigation of the
    router and a timer for [setupCodeBlockScrollIndicators]. *)
Inductive effect :=
| Navigate (commands : list jsstring)   (* this.router.navigate([...]) *)
| SetTimeout (delay : Z).               (* setTimeout(() => this.setup...(), delay) *)

(** The fields of the component, the catalog of the service it was given,
    and the effects it has asked for so far, oldest first. *)
Record state := mkState {
  guides : catalog;
  guide : option Guide;
  renderedContent : jsstring;
  effects : list effect
}.

Definition loadGuide (i : jsstring) (st : state) : outcome state :=
  let guide := getGuideById i (guides st) in
  match guide with
  | Some g =>
      let guides' := markAsViewed i (guides st) in
      renderedContent <- GuideViewer.renderMarkdown (content g) ;;
      Ok (mkState guides' guide renderedContent
                  (effects st ++ [SetTimeout 100]))
  | None =>
      Ok (mkState (guides st) guide (renderedContent st)
                  (effects st ++ [Navigate [js "/dashboard"]]))
  end.

(** The subscriber of [ngOnInit]: [params.get('id')] is a string or
    [null], and neither [null] nor the empty string loads anything. *)
Definition onParams (i : option jsstring) (st : state) : outcome state :=
  match i with
  | Some (c :: i') => loadGuide (c :: i') st
  | _ => Ok st
  end.

(** The route parameters the component is sent, one after the other. *)
Fixpoint onParamsAll (ids : list (option jsstring)) (st : state) : outcome state :=
  match ids with
  | [] => Ok st
  | i :: ids' => st' <- onParams i st ;; onParamsAll ids' st'
  end.

Definition goBack (st : state) : state :=
  mkState (guides st) (guide st) (renderedContent st)
          (effects st ++ [Navigate [js "/dashboard"]]).

Definition goHome (st : state) : state :=
  mkState (guides st) (guide st) (renderedContent st)
          (effects st ++ [Navigate [js "/"]]).

End GuideViewerComponent.

(** ** The dashboard component *)

Module DashboardComponent.

Import GuideService.

(** [Object.values(GuideCategory)] *)
Definition categories : list GuideCategory :=
  [ARCHITECTURE; ENVIRONMENT; BACKEND; FRONTEND; TESTS;
   SONARQUBE; DOCKER; CICD; DEPLOYMENT; MONITORING].

Record state := mkState {
  selectedCategory : option GuideCategory;
  isSidebarOpen : bool;
  searchQuery : jsstring
}.

(** The field initialisers. *)
Definition initial : state := mkState None true [].

(** [innerWidth] is [window.innerWidth] at the time of the call. *)
Definition ngOnInit (innerWidth : Z) (st : state) : state :=
  let st :=
    if (0 <? length categories)%nat
    then mkState (Some BACKEND) (isSidebarOpen st) (searchQuery st)
    else st in
  if (innerWidth <=? 768)%Z
  then mkState (selectedCategory st) false (searchQuery st)
  else st.

Definition selectCategory (innerWidth : Z) (category : GuideCategory)
    (st : state) : state :=
  let st := mkState (Some category) (isSidebarOpen st) (searchQuery st) in
  if (innerWidth <=? 768)%Z
  then mkState (selectedCategory st) false (searchQuery st)
  else st.

Definition toggleSidebar (st : state) : state :=
  mkState (selectedCategory st) (negb (isSidebarOpen st)) (searchQuery st).

Definition getGuidesByCategory (st : state) (guides : list Guide) : list Guide :=
  match selectedCategory st with
  | None => guides
  | Some c =>
      sort (fun a b => (order a - order b)%Z)
           (filter (fun g => category_eqb (category g) c) guides)
  end.

Definition getCategoryIcon (category : GuideCategory) : jsstring :=
  match category with
  | ARCHITECTURE => js "account_tree"
  | ENVIRONMENT => js "settings"
  | BACKEND => js "storage"
  | FRONTEND => js "web"
  | TESTS => js "bug_report"
  | SONARQUBE => js "analytics"
  | DOCKER => js "view_in_ar"
  | CICD => js "sync"
  | DEPLOYMENT => js "cloud_upload"
  | MONITORING => js "monitor_heart"
  end.

Definition getCategoryColor (category : GuideCategory) : jsstring :=
  match category with
  | ARCHITECTURE => js "#667eea"
  | ENVIRONMENT => js "#f59e0b"
  | BACKEND => js "#10b981"
  | FRONTEND => js "#3b82f6"
  | TESTS => js "#ef4444"
  | SONARQUBE => js "#8b5cf6"
  | DOCKER => js "#06b6d4"
  | CICD => js "#f97316"
  | DEPLOYMENT => js "#14b8a6"
  | MONITORING => js "#ec4899"
  end.

End DashboardComponent.

(** ** Predicates and reference functions used in the statements *)

Import GuideViewer.

(** [extends x y]: the position of [y] is the position of [x] moved
    forward over [l]. *)
Definition extends (x y : mstate) : Prop :=
  exists l, before y = rev l ++ before x /\ rest x = l ++ rest y.

(** [frame gs x y]: the groups outside [gs] are the same in [x] and [y]. *)
Definition frame (gs : list nat) (x y : mstate) : Prop :=
  forall n, ~ In n gs -> cap n (caps y) = cap n (caps x).

(** What the continuation-based lemmas say of a matcher [b] whose groups
    are among [gs]. *)
Definition calls_cont (gs : list nat) (b : matcher) : Prop :=
  forall x k z, b x k = Some z ->
    exists y, k y = Some z /\ extends x y /\ frame gs x y.

(** [respects b]: the matcher [b] only uses its continuation further
    along the input. *)
Definition respects (b : matcher) : Prop :=
  forall x k1 k2, (forall y, extends x y -> k1 y = k2 y) -> b x k1 = b x k2.

(** Every match that [replace] works from is a match found by [exec]. *)
Definition found_by (fl : flags) (r : regex) (p : piece) : Prop :=
  match p with
  | Match f =>
      groups_of f = caps (after f) /\
      exists bef rst,
        m fl r (MState bef rst []) (fun y => Some y) = Some (after f)
  | Text _ => True
  end.

(** [starts fl p s]: [s] starts with the pattern characters [p], up to
    the canonical form that the flags ask for. *)
Fixpoint starts (fl : flags) (p s : jsstring) : bool :=
  match p, s with
  | [], _ => true
  | a :: p', c :: s' =>
      (canonicalize fl c =? canonicalize fl a) && starts fl p' s'
  | _ :: _, [] => false
  end.

(** A greedy star over single characters satisfying [p]: take as many as
    possible, then give them back one at a time until the continuation
    succeeds. *)
Fixpoint star_chars (p : char16 -> bool) (k : cont) (bef rst : jsstring)
    (cps : captures) : result :=
  match rst with
  | c :: t =>
      if p c then
        match star_chars p k (c :: bef) t cps with
        | Some z => Some z
        | None => k (MState bef rst cps)
        end
      else k (MState bef rst cps)
  | [] => k (MState bef [] cps)
  end.

(** A lazy star over single characters satisfying [p]: try the
    continuation first, take one more character when it fails. *)
Fixpoint lazy_chars (p : char16 -> bool) (k : cont) (bef rst : jsstring)
    (cps : captures) : result :=
  match k (MState bef rst cps) with
  | Some z => Some z
  | None =>
      match rst with
      | c :: t => if p c then lazy_chars p k (c :: bef) t cps else None
      | [] => None
      end
  end.

(** The tags and the pattern of the list wrap pass. *)
Definition li_open : jsstring := Eval cbv in js "<li>".
Definition li_close : jsstring := Eval cbv in js "</li>".

Definition wrap_regex : regex :=
  (Group 1 (lit "<li>" >> Star Dot >> lit "</li>"))%re.

(** The language tags that [highlightCode] tests for. *)
Definition known_langs : list jsstring :=
  map js ["java"; "javascript"; "typescript"; "js"; "ts";
          "css"; "scss"; "html"; "xml"]%string.

(** Field by field, [g'] is [g] with only [isViewed] possibly changed. *)
Definition same_but_viewed (g g' : GuideService.Guide) : Prop :=
  GuideService.id g' = GuideService.id g /\
  GuideService.title g' = GuideService.title g /\
  GuideService.category g' = GuideService.category g /\
  GuideService.content g' = GuideService.content g /\
  GuideService.tags g' = GuideService.tags g /\
  GuideService.order g' = GuideService.order g /\
  GuideService.icon g' = GuideService.icon g /\
  GuideService.color g' = GuideService.color g /\
  GuideService.lastUpdated g' = GuideService.lastUpdated g.

(** Ascending [order]. *)
Definition by_order (a b : GuideService.Guide) : Prop :=
  (GuideService.order a <= GuideService.order b)%Z.

(** Two sample records, for the instances below. *)
Definition sample_guide (i : string) (c : GuideService.GuideCategory) (o : Z)
    : GuideService.Guide :=
  GuideService.mkGuide (js i) (js "Title") c (js "# Title") [js "tag"] o
                       (js "storage") (js "#10b981") 0%Z None.

(** The comparison function of [getGuidesByCategory]. *)
Definition compare_order (a b : GuideService.Guide) : Z :=
  (GuideService.order a - GuideService.order b)%Z.

(** The pattern of the paragraph pass. *)
Definition blank_regex : regex := (Chr LF >> Chr LF)%re.

(** *** The paragraph pass, written directly

    [para] replaces, from left to right, every two consecutive line feeds
    by the paragraph boundary. *)
Definition boundary : jsstring := Eval cbv in js "</p><p>".

Fixpoint para (s : jsstring) : jsstring :=
  match s with
  | c1 :: t =>
      match t with
      | c2 :: t' =>
          if (c1 =? LF) && (c2 =? LF) then boundary ++ para t'
          else c1 :: para t
      | [] => [c1]
      end
  | [] => []
  end.

(** The text before the first two consecutive line feeds, and the text
    after them. *)
Fixpoint split_blank (s : jsstring) : option (jsstring * jsstring) :=
  match s with
  | c1 :: t =>
      match t with
      | c2 :: t' =>
          if (c1 =? LF) && (c2 =? LF) then Some ([], t')
          else match split_blank t with
               | Some (p, r) => Some (c1 :: p, r)
               | None => None
               end
      | [] => None
      end
  | [] => None
  end.

Definition ends_with_lf (s : jsstring) : bool :=
  match rev s with
  | c :: _ => c =? LF
  | [] => false
  end.

(** *** What a match has to begin with

    [lead r] is a run of single-character tests that every match of [r]
    passes at its first characters; [needs_bol r] tells that [r] starts
    with the line-start assertion. *)
Inductive ptest :=
| TChr (a : char16)
| TSet (neg : bool) (items : list cset_item)
| TDot.

Definition test_eval (fl : flags) (t : ptest) (c : char16) : bool :=
  match t with
  | TChr a => canonicalize fl c =? canonicalize fl a
  | TSet neg items => xorb neg (set_mem fl items c)
  | TDot => dotAll fl || negb (isLineTerminator c)
  end.

Fixpoint fixed_tests (r : regex) : option (list ptest) :=
  match r with
  | Empty | Bol | Eol | WordB => Some []
  | Chr a => Some [TChr a]
  | Dot => Some [TDot]
  | CSet neg items => Some [TSet neg items]
  | Seq a b =>
      match fixed_tests a, fixed_tests b with
      | Some x, Some y => Some (x ++ y)
      | _, _ => None
      end
  | Group _ a => fixed_tests a
  | Alt _ _ | Quant _ _ _ _ => None
  end.

Fixpoint lead (r : regex) : list ptest :=
  match r with
  | Chr a => [TChr a]
  | Dot => [TDot]
  | CSet neg items => [TSet neg items]
  | Seq a b =>
      match fixed_tests a with
      | Some x => x ++ lead b
      | None => lead a
      end
  | Group _ a => lead a
  | Quant (S _) max _ a => if is_zero max then [] else lead a
  | _ => []
  end.

Definition needs_bol (r : regex) : bool :=
  match r with
  | Seq Bol _ => true
  | _ => false
  end.

Fixpoint starts_tests (fl : flags) (ts : list ptest) (s : jsstring) : bool :=
  match ts, s with
  | [], _ => true
  | t :: ts', c :: s' => test_eval fl t c && starts_tests fl ts' s'
  | _ :: _, [] => false
  end.

(** *** Documents with two plain words in them

    A plain character is one that no pass of the renderer looks for at the
    start of a match: not white space, not a digit, and none of
    [# & * - < > [ `].  A document is described by its characters and two
    places, [A] and [B], that stand for non-empty plain words. *)
Definition special : list char16 := [35; 38; 42; 45; 60; 62; 91; 96].

Definition plain (c : char16) : bool :=
  negb (isSpace c) && negb (isDigit c) && negb (existsb (N.eqb c) special).

Definition plain_word (w : jsstring) : Prop :=
  w <> [] /\ Forall (fun c => plain c = true) w.

Inductive tok :=
| C (c : char16)
| A
| B.

Definition denote (a b : jsstring) (ts : list tok) : jsstring :=
  flat_map (fun t => match t with C c => [c] | A => a | B => b end) ts.

Definition chars (s : jsstring) : list tok := map C s.

(** A test that no plain character passes. *)
Definition never_plain (t : ptest) : bool :=
  match t with
  | TChr a => negb (plain a)
  | TSet false [CDigit] => true
  | _ => false
  end.

(** May the tests pass at the start of the document? *)
Fixpoint astarts (fl : flags) (ts : list ptest) (d : list tok) : bool :=
  match ts, d with
  | [], _ => true
  | _ :: _, [] => false
  | t :: ts', C c :: d' => test_eval fl t c && astarts fl ts' d'
  | t :: _, _ :: _ => negb (never_plain t)
  end.

(** May a match start somewhere in [pre], in the document [pre ++ post]? *)
Fixpoint ascan (fl : flags) (nb : bool) (ts : list ptest) (atbol : bool)
    (pre post : list tok) : bool :=
  match pre with
  | [] => false
  | C c :: pre' =>
      ((negb nb || atbol) && astarts fl ts (pre ++ post))
      || ascan fl nb ts (multiline fl && isLineTerminator c) pre' post
  | _ :: pre' =>
      match ts with
      | [] => true
      | t :: _ => negb (never_plain t)
      end
      || ascan fl nb ts false pre' post
  end.

(** No match of [r] can start in [pre], nor at the end of the document
    when [post] is empty. *)
Definition no_match_in (fl : flags) (r : regex) (pre post : list tok) : bool :=
  negb (ascan fl (needs_bol r) (lead r) true pre post)
  && match lead r with [] => false | _ :: _ => true end.



(** A blank line: two consecutive line feeds. *)
Definition blank : jsstring := [LF; LF].

(** What one record becomes when [markAsViewed i] is called. *)
Definition mark (i : jsstring) (guide : GuideService.Guide) : GuideService.Guide :=
  if str_eqb (GuideService.id guide) i then GuideService.viewed guide else guide.

(** Does the operation set the flag of the records with id [i]? *)
Definition marks (i : jsstring) (o : GuideService.operation) : bool :=
  match o with
  | GuideService.MarkAsViewed j => str_eqb i j
  | _ => false
  end.

(** Was the id among the route parameters that load a guide? *)
Definition visited (ids : list (option jsstring)) (i : jsstring) : bool :=
  existsb (fun p => match p with
                    | Some (c :: r) => str_eqb i (c :: r)
                    | _ => false
                    end) ids.

(** The characters that [escapeHtml] replaces. *)
Definition escaped_chars : list char16 := [38; 160; 60; 62].

(** *** Passes that only add, passes that only remove

    [Subseq s t]: [s] is [t] with some characters left out. *)
Inductive Subseq : jsstring -> jsstring -> Prop :=
| subseq_nil : Subseq [] []
| subseq_skip s t c : Subseq s t -> Subseq s (c :: t)
| subseq_take s t c : Subseq s t -> Subseq (c :: s) (c :: t).

(** The shape of a pattern made of literal characters, assertions, groups
    and optional groups: what its matches consist of, in order. *)
Inductive sitem :=
| SLit (a : char16)
| SGroup (n : nat).

Fixpoint shape (r : regex) : option (list sitem) :=
  match r with
  | Empty | Bol | Eol | WordB => Some []
  | Chr a => Some [SLit a]
  | Seq a b =>
      match shape a, shape b with
      | Some x, Some y => Some (x ++ y)
      | _, _ => None
      end
  | Group n _ => Some [SGroup n]
  | Quant 0 (Some 1%nat) _ (Group n _) => Some [SGroup n]
  | _ => None
  end.

Definition group_text (n : nat) (cps : captures) : jsstring :=
  match cap n cps with
  | Some s => s
  | None => []
  end.

(** [fits fl sh cps w]: the text [w] is made as the shape says, with the
    captures [cps]. *)
Fixpoint fits (fl : flags) (sh : list sitem) (cps : captures) (w : jsstring)
    : Prop :=
  match sh with
  | [] => w = []
  | SLit a :: sh' =>
      exists c w', w = c :: w' /\
                   (canonicalize fl c =? canonicalize fl a) = true /\
                   fits fl sh' cps w'
  | SGroup n :: sh' =>
      exists w', w = group_text n cps ++ w' /\ fits fl sh' cps w'
  end.

(** Shapes and templates as runs of symbols. *)
Inductive symbol :=
| Sym (c : char16)
| Grp (n : nat).

Definition symbol_eqb (a b : symbol) : bool :=
  match a, b with
  | Sym c, Sym d => c =? d
  | Grp n, Grp k => Nat.eqb n k
  | _, _ => false
  end.

Definition shape_symbols (sh : list sitem) : list symbol :=
  map (fun i => match i with SLit a => Sym a | SGroup n => Grp n end) sh.

Definition template_symbols (t : list titem) : list symbol :=
  flat_map (fun i => match i with
                     | TLit s => map Sym (js s)
                     | TGroup n => [Grp n]
                     end) t.

Fixpoint subseqb (s t : list symbol) : bool :=
  match s, t with
  | [], _ => true
  | _ :: _, [] => false
  | a :: s', b :: t' => if symbol_eqb a b then subseqb s' t' else subseqb s t'
  end.

Fixpoint nodupb (l : list nat) : bool :=
  match l with
  | [] => true
  | n :: l' => negb (existsb (Nat.eqb n) l') && nodupb l'
  end.

Definition only_groups (t : list symbol) : bool :=
  forallb (fun s => match s with Grp _ => true | Sym _ => false end) t.

(** The pass [replace fl r t] puts back everything it matches, in order,
    and adds the rest of the template. *)
Definition adds_only (fl : flags) (r : regex) (t : list titem) : bool :=
  negb (ignoreCase fl) && nodupb (groups r) &&
  match shape r with
  | Some sh => subseqb (shape_symbols sh) (template_symbols t)
  | None => false
  end.

(** The pass [replace fl r t] puts back groups of what it matches, in
    order, and nothing else. *)
Definition removes_only (r : regex) (t : list titem) : bool :=
  nodupb (groups r) && only_groups (template_symbols t) &&
  match shape r with
  | Some sh => subseqb (template_symbols t) (shape_symbols sh)
  | None => false
  end.

(** The text that a piece of [replace] stands for in the input. *)
Definition source (p : piece) : jsstring :=
  match p with
  | Match f => skipped f ++ matched f
  | Text s => s
  end.

(** None of the groups [gs] is set in [x]. *)
Definition unset (gs : list nat) (x : mstate) : Prop :=
  forall n, In n gs -> cap n (caps x) = None.

(** The text that a run of symbols stands for, with the captures [cps]. *)
Definition symbols_text (cps : captures) (l : list symbol) : jsstring :=
  flat_map (fun s => match s with
                     | Sym c => [c]
                     | Grp n => group_text n cps
                     end) l.

(** A match that [replace] works from, with the state it was found in. *)
Definition matched_by (fl : flags) (r : regex) (p : piece) : Prop :=
  match p with
  | Match f =>
      groups_of f = caps (after f) /\
      exists bef,
        m fl r (MState bef (matched f ++ rest (after f)) []) (fun y => Some y)
        = Some (after f)
  | Text _ => True
  end.

(** A document, with the words [a] and [b] at its two places, in which no
    pass before the paragraph pass finds a match. *)
Definition untouched (a b : jsstring) (d : list tok) : Prop :=
  inline_passes (denote a b d) = denote a b d /\
  replace_with gim fence code_block (denote a b d) = Ok (denote a b d) /\
  block_passes (denote a b d) = denote a b d.

(** * Properties *)

(** ** Strings *)

Lemma str_eqb_eq (a b : jsstring) : str_eqb a b = true <-> a = b.
Proof.
  revert b; induction a as [|x a IH]; intros [|y b]; simpl; split;
    try congruence; try reflexivity.
  - intros H. apply andb_true_iff in H as [H1 H2].
    apply N.eqb_eq in H1. apply IH in H2. congruence.
  - intros H. injection H as -> ->. apply andb_true_iff. split.
    + apply N.eqb_refl.
    + now apply IH.
Qed.

(** ** The matcher calls its continuation further along the input *)

Lemma extends_refl x : extends x x.
Proof. exists []. split; reflexivity. Qed.

Lemma extends_trans x y z : extends x y -> extends y z -> extends x z.
Proof.
  intros [l1 [B1 R1]] [l2 [B2 R2]]. exists (l1 ++ l2). split.
  - rewrite B2, B1, rev_app_distr, app_assoc. reflexivity.
  - rewrite R1, R2, app_assoc. reflexivity.
Qed.

Lemma extends_step x c t : rest x = c :: t -> extends x (step1 x c t).
Proof. intros H. exists [c]. split; [reflexivity | exact H]. Qed.

Lemma extends_length x y : extends x y -> (length (rest y) <= length (rest x))%nat.
Proof. intros [l [_ R]]. rewrite R, length_app. lia. Qed.

Lemma extends_same_length x y :
  extends x y -> length (rest y) = length (rest x) ->
  before y = before x /\ rest y = rest x.
Proof.
  intros [l [B R]] H. rewrite R, length_app in H.
  destruct l; [|simpl in H; lia]. simpl in *. split; congruence.
Qed.

Lemma frame_refl gs x : frame gs x x.
Proof. intros n _. reflexivity. Qed.

Lemma frame_trans gs x y z : frame gs x y -> frame gs y z -> frame gs x z.
Proof. intros H1 H2 n Hn. rewrite H2, H1; auto. Qed.

Lemma frame_weaken gs gs' x y :
  (forall n, In n gs -> In n gs') -> frame gs x y -> frame gs' x y.
Proof. intros H F n Hn. apply F. auto. Qed.

Lemma cap_clear_caps n gs c : ~ In n gs -> cap n (clear_caps gs c) = cap n c.
Proof.
  intros Hn. induction c as [|[i s] c IH]; simpl; [reflexivity|].
  destruct (existsb (Nat.eqb i) gs) eqn:E; simpl.
  - destruct (Nat.eqb i n) eqn:E'; [|exact IH].
    apply Nat.eqb_eq in E'. subst i.
    apply existsb_exists in E as [j [Hj Ej]]. apply Nat.eqb_eq in Ej. subst j.
    contradiction.
  - rewrite IH. reflexivity.
Qed.

Lemma match_char_calls gs p : calls_cont gs (match_char p).
Proof.
  intros x k z H. unfold match_char in H.
  destruct (rest x) as [|c t] eqn:R; [discriminate|].
  destruct (p c); [|discriminate].
  exists (step1 x c t). split; [exact H|]. split.
  - now apply extends_step.
  - intros n _. reflexivity.
Qed.

Lemma assert_calls gs p : calls_cont gs (assert p).
Proof.
  intros x k z H. unfold assert in H. destruct (p x); [|discriminate].
  exists x. split; [exact H|]. split; [apply extends_refl | apply frame_refl].
Qed.

Lemma repeat_matcher_calls body gs greedy :
  calls_cont gs body ->
  forall fuel min max, calls_cont gs (fun x c => repeat_matcher body gs greedy fuel min max x c).
Proof.
  intros Hb fuel. induction fuel as [|fuel IH]; intros min max x c z H; simpl in H.
  - discriminate.
  - destruct (is_zero max).
    { exists x. split; [exact H|]. split; [apply extends_refl | apply frame_refl]. }
    set (xr := MState (before x) (rest x) (clear_caps gs (caps x))) in *.
    assert (Hxr : forall y, extends xr y -> frame gs xr y ->
                            extends x y /\ frame gs x y).
    { intros y [l [B R]] F. split.
      - exists l. split; assumption.
      - intros n Hn. rewrite F by assumption. simpl. now apply cap_clear_caps. }
    assert (Hbody : forall z,
      body xr (fun y =>
        if Nat.eqb min 0 && Nat.eqb (length (rest y)) (length (rest x)) then None
        else repeat_matcher body gs greedy fuel (Nat.pred min) (pred_max max) y c)
      = Some z -> exists y, c y = Some z /\ extends x y /\ frame gs x y).
    { intros z' Hz. apply Hb in Hz as [y [Hy [E F]]].
      destruct (Nat.eqb min 0 && Nat.eqb (length (rest y)) (length (rest x)));
        [discriminate|].
      apply IH in Hy as [y' [Hy' [E' F']]].
      destruct (Hxr y E F) as [E1 F1].
      exists y'. split; [exact Hy'|]. split.
      - eapply extends_trans; eassumption.
      - eapply frame_trans; eassumption. }
    destruct (negb (Nat.eqb min 0)).
    { now apply Hbody. }
    destruct greedy.
    + match type of H with match ?e with _ => _ end = _ => destruct e eqn:E end.
      * injection H as <-. now apply Hbody.
      * exists x. split; [exact H|]. split; [apply extends_refl | apply frame_refl].
    + destruct (c x) eqn:E.
      * injection H as <-. exists x. split; [exact E|].
        split; [apply extends_refl | apply frame_refl].
      * now apply Hbody.
Qed.

Lemma m_calls fl r : calls_cont (groups r) (m fl r).
Proof.
  induction r as [ |a| |neg items|r1 IH1 r2 IH2|r1 IH1 r2 IH2
                 |min max greedy r1 IH1|n r1 IH1| | | ]; simpl.
  - intros x k z H. exists x. split; [exact H|].
    split; [apply extends_refl | apply frame_refl].
  - apply match_char_calls.
  - apply match_char_calls.
  - apply match_char_calls.
  - intros x k z H. apply IH1 in H as [y [H [E F]]].
    apply IH2 in H as [y' [H [E' F']]].
    exists y'. split; [exact H|]. split.
    + eapply extends_trans; eassumption.
    + eapply frame_trans; eapply frame_weaken; try eassumption;
        intros n Hn; apply in_or_app; auto.
  - intros x k z H. destruct (m fl r1 x k) eqn:E1.
    + injection H as <-. apply IH1 in E1 as [y [H [E F]]].
      exists y. split; [exact H|]. split; [exact E|].
      eapply frame_weaken; [|exact F]. intros n Hn; apply in_or_app; auto.
    + apply IH2 in H as [y [H [E F]]].
      exists y. split; [exact H|]. split; [exact E|].
      eapply frame_weaken; [|exact F]. intros n Hn; apply in_or_app; auto.
  - intros x k z H.
    exact (repeat_matcher_calls greedy IH1 _ _ _ _ _ H).
  - intros x k z H. apply IH1 in H as [y [H [E F]]].
    eexists. split; [exact H|]. split.
    + destruct E as [l [B R]]. exists l. split; assumption.
    + intros i Hi. simpl. destruct (Nat.eqb n i) eqn:En.
      * apply Nat.eqb_eq in En. subst. exfalso. apply Hi. now left.
      * apply F. intros Hin. apply Hi. now right.
  - apply assert_calls.
  - apply assert_calls.
  - apply assert_calls.
Qed.

(** ** The matcher only looks at its continuation further along the input *)

Lemma match_char_respects p : respects (match_char p).
Proof.
  intros x k1 k2 H. unfold match_char.
  destruct (rest x) as [|c t] eqn:R; [reflexivity|].
  destruct (p c); [|reflexivity]. apply H. now apply extends_step.
Qed.

Lemma assert_respects p : respects (assert p).
Proof.
  intros x k1 k2 H. unfold assert. destruct (p x); [|reflexivity].
  apply H, extends_refl.
Qed.

Lemma extends_cleared x y gs :
  extends (MState (before x) (rest x) (clear_caps gs (caps x))) y -> extends x y.
Proof. intros [l [B R]]. exists l. split; assumption. Qed.

Lemma repeat_matcher_respects body gs greedy :
  respects body ->
  forall fuel min max, respects (repeat_matcher body gs greedy fuel min max).
Proof.
  intros Hb fuel. induction fuel as [|fuel IH]; intros min max x k1 k2 H; simpl.
  - reflexivity.
  - rewrite (H x (extends_refl x)).
    destruct (is_zero max); [reflexivity|].
    match goal with
    | |- context [body ?xr ?d1] =>
      match goal with
      | |- context [body xr ?d2] =>
        lazymatch d1 with
        | d2 => fail
        | _ => assert (E : body xr d1 = body xr d2)
        end
      end
    end.
    { apply Hb. intros y Hy.
      destruct (Nat.eqb min 0 && Nat.eqb (length (rest y)) (length (rest x)));
        [reflexivity|].
      apply IH. intros y' Hy'. apply H.
      eapply extends_trans; [|exact Hy']. eapply extends_cleared; exact Hy. }
    rewrite E. reflexivity.
Qed.

Lemma m_respects fl r : respects (m fl r).
Proof.
  induction r as [ |a| |neg items|r1 IH1 r2 IH2|r1 IH1 r2 IH2
                 |min max greedy r1 IH1|n r1 IH1| | | ]; simpl.
  - intros x k1 k2 H. apply H, extends_refl.
  - apply match_char_respects.
  - apply match_char_respects.
  - apply match_char_respects.
  - intros x k1 k2 H. apply IH1. intros y Hy. apply IH2. intros y' Hy'.
    apply H. eapply extends_trans; eassumption.
  - intros x k1 k2 H. rewrite (IH1 x k1 k2 H), (IH2 x k1 k2 H). reflexivity.
  - intros x k1 k2 H. now apply repeat_matcher_respects.
  - intros x k1 k2 H. apply IH1. intros y Hy.
    apply (H (MState (before y) (rest y) ((n, consumed x y) :: caps y))).
    destruct Hy as [l [B R]]. exists l. split; assumption.
  - apply assert_respects.
  - apply assert_respects.
  - apply assert_respects.
Qed.

(** ** The fuel of the model is never used up *)

(** Any fuel from [min + length (rest x) + 1] on gives the same result. *)
Lemma repeat_matcher_fuel body gs greedy :
  respects body ->
  forall f1 f2 min max x c,
    (min + length (rest x) + 1 <= f1)%nat ->
    (min + length (rest x) + 1 <= f2)%nat ->
    repeat_matcher body gs greedy f1 min max x c =
    repeat_matcher body gs greedy f2 min max x c.
Proof.
  intros Hb f1. induction f1 as [|f1 IH]; intros f2 min max x c H1 H2.
  - lia.
  - destruct f2 as [|f2]; [lia|]. simpl.
    destruct (is_zero max); [reflexivity|].
    match goal with
    | |- context [body ?xr ?d1] =>
      match goal with
      | |- context [body xr ?d2] =>
        lazymatch d1 with
        | d2 => fail
        | _ => assert (E : body xr d1 = body xr d2)
        end
      end
    end.
    { apply Hb. intros y Hy. apply extends_cleared in Hy.
      pose proof (extends_length Hy) as L.
      destruct (Nat.eqb min 0) eqn:Em; simpl.
      - apply Nat.eqb_eq in Em. subst min.
        destruct (Nat.eqb (length (rest y)) (length (rest x))) eqn:El;
          [reflexivity|].
        apply Nat.eqb_neq in El. apply IH; simpl; lia.
      - apply Nat.eqb_neq in Em. apply IH; lia. }
    rewrite E. reflexivity.
Qed.

(** ** What [exec] finds *)

Lemma consumed_extends x y :
  extends x y ->
  before y = rev (consumed x y) ++ before x /\
  rest x = consumed x y ++ rest y.
Proof.
  intros [l [B R]]. unfold consumed. rewrite B.
  rewrite length_app, length_rev, Nat.add_sub.
  assert (F : firstn (length l) (rev l ++ before x) = rev l).
  { rewrite <- (length_rev l).
    rewrite firstn_app, Nat.sub_diag, firstn_all. simpl. apply app_nil_r. }
  rewrite F, !rev_involutive. split; [reflexivity | exact R].
Qed.

Lemma m_top_found fl r bef rst y :
  m fl r (MState bef rst []) (fun y => Some y) = Some y ->
  rst = consumed (MState bef rst []) y ++ rest y /\
  before y = rev (consumed (MState bef rst []) y) ++ bef.
Proof.
  intros E. destruct (m_calls _ _ _ _ E) as [y' [Hy [Ex _]]].
  injection Hy as ->. apply consumed_extends in Ex as [B R]. auto.
Qed.

Lemma exec_from_found fl r bef rst sk f :
  exec_from fl r bef rst sk = Some f ->
  exists pre,
    skipped f = rev sk ++ pre /\
    rst = pre ++ matched f ++ rest (after f) /\
    before (after f) = rev (matched f) ++ rev pre ++ bef /\
    groups_of f = caps (after f) /\
    m fl r (MState (rev pre ++ bef) (matched f ++ rest (after f)) [])
      (fun y => Some y) = Some (after f).
Proof.
  assert (Here : forall bef rst sk y,
    m fl r (MState bef rst []) (fun y => Some y) = Some y ->
    let f := Found (rev sk) (consumed (MState bef rst []) y) (caps y) y in
    skipped f = rev sk ++ [] /\
    rst = [] ++ matched f ++ rest (after f) /\
    before (after f) = rev (matched f) ++ rev [] ++ bef /\
    groups_of f = caps (after f) /\
    m fl r (MState (rev [] ++ bef) (matched f ++ rest (after f)) [])
      (fun y => Some y) = Some (after f)).
  { intros bef' rst' sk' y E. destruct (m_top_found _ _ _ _ E) as [R B].
    simpl. rewrite app_nil_r, <- R.
    split; [reflexivity|]. split; [reflexivity|]. split; [exact B|].
    split; [reflexivity | exact E]. }
  revert bef sk. induction rst as [|c t IH]; intros bef sk H; simpl in H.
  - destruct (m fl r (MState bef [] []) (fun y => Some y)) as [y|] eqn:E;
      [|discriminate].
    injection H as <-. exists []. now apply Here.
  - destruct (m fl r (MState bef (c :: t) []) (fun y => Some y)) as [y|] eqn:E.
    + injection H as <-. exists []. now apply Here.
    + apply IH in H as [pre [S1 [S2 [S3 [S4 S5]]]]].
      exists (c :: pre). simpl. rewrite <- !app_assoc. simpl.
      split; [|split; [|split; [|split]]]; auto.
      * rewrite S1. simpl. rewrite <- app_assoc. reflexivity.
      * congruence.
Qed.

Lemma exec_from_shorter fl r bef rst sk f :
  exec_from fl r bef rst sk = Some f ->
  (length (matched f) + length (rest (after f)) <= length rst)%nat.
Proof.
  intros H. apply exec_from_found in H as [pre [_ [R _]]].
  rewrite R, !length_app. lia.
Qed.

(** Any fuel from [length rst + 1] on gives the same matches. *)
Lemma match_all_fuel fl r f1 f2 bef rst :
  (length rst < f1)%nat -> (length rst < f2)%nat ->
  match_all fl r f1 bef rst = match_all fl r f2 bef rst.
Proof.
  revert f2 bef rst. induction f1 as [|f1 IH]; intros f2 bef rst H1 H2.
  - lia.
  - destruct f2 as [|f2]; [lia|]. simpl.
    destruct (exec_from fl r bef rst []) as [f|] eqn:E; [|reflexivity].
    apply exec_from_shorter in E.
    destruct (negb (global fl)); [reflexivity|].
    destruct (matched f) as [|a mt]; simpl in E.
    + destruct (rest (after f)) as [|c t]; [reflexivity|]. simpl in E.
      f_equal. f_equal. apply IH; lia.
    + f_equal. apply IH; lia.
Qed.

Lemma match_all_found fl r fuel bef rst :
  Forall (found_by fl r) (match_all fl r fuel bef rst).
Proof.
  revert bef rst. induction fuel as [|fuel IH]; intros bef rst; simpl.
  - repeat constructor.
  - destruct (exec_from fl r bef rst []) as [f|] eqn:E.
    2: repeat constructor.
    constructor.
    + apply exec_from_found in E as [pre [_ [_ [_ [G M]]]]].
      split; [exact G|]. eauto.
    + destruct (negb (global fl)); [repeat constructor|].
      destruct (matched f); [destruct (rest (after f))|].
      * constructor.
      * constructor; [exact I | apply IH].
      * apply IH.
Qed.


(** ** [renderMarkdown] never throws *)

(** In every match of the fence pattern the second group took part. *)
Lemma fence_sets_code x z :
  m gim fence x (fun y => Some y) = Some z ->
  exists code, cap 2 (caps z) = Some code.
Proof.
  unfold fence. cbn [m]. intros H.
  apply m_calls in H as [y1 [H _]].
  apply m_calls in H as [y2 [H _]].
  apply (@match_char_calls []) in H as [y3 [H _]].
  apply m_calls in H as [y4 [H _]].
  apply m_calls in H as [y5 [H [_ F]]].
  injection H as <-. rewrite F.
  - simpl. eauto.
  - vm_compute. tauto.
Qed.

Lemma render_code_blocks_ok ps :
  Forall (found_by gim fence) ps ->
  exists html, render_with code_block ps = Ok html.
Proof.
  induction 1 as [|p ps Hp _ [tl IH]]; simpl.
  - eauto.
  - destruct p as [f|s]; rewrite IH; simpl.
    + destruct Hp as [G [bef [rst M]]].
      apply fence_sets_code in M as [code C].
      unfold code_block. rewrite G, C. simpl. eauto.
    + eauto.
Qed.

(** C1.  For every input string, [renderMarkdown] returns a string and
    never throws: the only call that could throw, [code.trim()] on a
    group that took no part in the match, is never reached.  An unmatched
    triple-backtick fence is left as literal text.  The loops of the
    underlying search and repetition are bounded by the length of the
    input: giving them more fuel than that changes nothing. *)
Theorem renderMarkdown_never_throws :
  (forall markdown, exists html, renderMarkdown markdown = Ok html) /\
  renderMarkdown (js "```java" ++ LF :: js "int x") =
    Ok (js "<p>```java" ++ LF :: js "int x</p>") /\
  (forall fl r f1 f2 bef rst,
     (length rst < f1)%nat -> (length rst < f2)%nat ->
     match_all fl r f1 bef rst = match_all fl r f2 bef rst) /\
  (forall fl r greedy f1 f2 min max x c,
     (min + length (rest x) + 1 <= f1)%nat ->
     (min + length (rest x) + 1 <= f2)%nat ->
     repeat_matcher (m fl r) (groups r) greedy f1 min max x c =
     repeat_matcher (m fl r) (groups r) greedy f2 min max x c).
Proof.
  split; [|split; [|split]].
  - intros markdown. unfold renderMarkdown, replace_with, pieces.
    destruct (render_code_blocks_ok (match_all_found gim fence
                (S (length (inline_passes markdown))) [] (inline_passes markdown)))
      as [html ->].
    simpl. eauto.
  - vm_compute. reflexivity.
  - intros. now apply match_all_fuel.
  - intros. apply repeat_matcher_fuel; [apply m_respects | assumption | assumption].
Qed.

Lemma renderMarkdown_never_throws_witness :
  match_all gim fence 40 [] (js "```js" ++ LF :: js "x" ++ LF :: js "```") =
  match_all gim fence 12 [] (js "```js" ++ LF :: js "x" ++ LF :: js "```").
Proof.
  destruct renderMarkdown_never_throws as [_ [_ [H _]]].
  apply H; simpl; lia.
Defined.

(** ** Equations of the matcher on literal runs and single-character stars *)

Lemma mstate_eta x : MState (before x) (rest x) (caps x) = x.
Proof. destruct x; reflexivity. Qed.

Lemma m_lit_chars fl p x k :
  m fl (lit_chars p) x k =
  if starts fl p (rest x)
  then k (MState (rev (firstn (length p) (rest x)) ++ before x)
                 (skipn (length p) (rest x)) (caps x))
  else None.
Proof.
  revert x k. induction p as [|a p IH]; intros x k.
  - simpl. rewrite mstate_eta. reflexivity.
  - destruct p as [|b p'].
    + simpl. unfold match_char. destruct (rest x) as [|c t]; [reflexivity|].
      rewrite andb_true_r.
      destruct (canonicalize fl c =? canonicalize fl a); reflexivity.
    + change (lit_chars (a :: b :: p')) with (Seq (Chr a) (lit_chars (b :: p'))).
      cbn [m]. unfold match_char. destruct (rest x) as [|c t] eqn:R; [reflexivity|].
      change (starts fl (a :: b :: p') (c :: t))
        with ((canonicalize fl c =? canonicalize fl a) && starts fl (b :: p') t).
      destruct (canonicalize fl c =? canonicalize fl a); cbn [andb];
        [|reflexivity].
      rewrite IH. cbn [step1 rest before caps].
      destruct (starts fl (b :: p') t); [|reflexivity].
      f_equal. f_equal.
      change (firstn (length (a :: b :: p')) (c :: t))
        with (c :: firstn (length (b :: p')) t).
      simpl rev. rewrite <- app_assoc. reflexivity.
Qed.

Lemma clear_caps_nil c : clear_caps [] c = c.
Proof.
  unfold clear_caps. induction c as [|p c IH]; simpl in *; [reflexivity|].
  now rewrite IH.
Qed.

Lemma length_eqb_tail (c : char16) t :
  Nat.eqb (length t) (length (c :: t)) = false.
Proof. apply Nat.eqb_neq. simpl. lia. Qed.

Lemma repeat_star_chars p k cps rst :
  forall fuel bef, (length rst < fuel)%nat ->
  repeat_matcher (match_char p) [] true fuel 0 None (MState bef rst cps) k =
  star_chars p k bef rst cps.
Proof.
  induction rst as [|c t IH]; intros fuel bef Hf;
    (destruct fuel as [|fuel]; [simpl in Hf; lia|]);
    cbn [repeat_matcher is_zero Nat.eqb negb andb rest before caps star_chars];
    rewrite clear_caps_nil; unfold match_char at 1; cbn [rest].
  - reflexivity.
  - destruct (p c); [|reflexivity].
    cbn [step1 rest before caps Nat.pred pred_max]. rewrite length_eqb_tail.
    simpl in Hf. unfold step1; cbn [before rest caps]. rewrite IH by lia. reflexivity.
Qed.

Lemma repeat_lazy_chars p k cps rst :
  forall fuel bef, (length rst < fuel)%nat ->
  repeat_matcher (match_char p) [] false fuel 0 None (MState bef rst cps) k =
  lazy_chars p k bef rst cps.
Proof.
  induction rst as [|c t IH]; intros fuel bef Hf;
    (destruct fuel as [|fuel]; [simpl in Hf; lia|]);
    cbn [repeat_matcher is_zero Nat.eqb negb andb rest before caps lazy_chars];
    rewrite clear_caps_nil; unfold match_char at 1; cbn [rest].
  - reflexivity.
  - destruct (k (MState bef (c :: t) cps)); [reflexivity|].
    destruct (p c); [|reflexivity].
    cbn [step1 rest before caps Nat.pred pred_max]. rewrite length_eqb_tail.
    simpl in Hf. unfold step1; cbn [before rest caps]. rewrite IH by lia. reflexivity.
Qed.

(** The test that a single-character pattern makes. *)
Lemma m_star_dot fl x k :
  m fl (Star Dot) x k =
  star_chars (fun c => dotAll fl || negb (isLineTerminator c)) k
             (before x) (rest x) (caps x).
Proof.
  unfold Star. cbn [m groups]. rewrite <- (mstate_eta x) at 2.
  apply repeat_star_chars. cbn [rest]. lia.
Qed.

Lemma m_lazy_dot fl x k :
  m fl (LazyStar Dot) x k =
  lazy_chars (fun c => dotAll fl || negb (isLineTerminator c)) k
             (before x) (rest x) (caps x).
Proof.
  unfold LazyStar. cbn [m groups]. rewrite <- (mstate_eta x) at 2.
  apply repeat_lazy_chars. cbn [rest]. lia.
Qed.

Lemma m_star_set fl neg items x k :
  m fl (Star (CSet neg items)) x k =
  star_chars (fun c => xorb neg (set_mem fl items c)) k
             (before x) (rest x) (caps x).
Proof.
  unfold Star. cbn [m groups]. rewrite <- (mstate_eta x) at 2.
  apply repeat_star_chars. cbn [rest]. lia.
Qed.


(** ** Searching: where [exec] starts a match *)

Lemma exec_from_here fl r bef rst sk y :
  m fl r (MState bef rst []) (fun y => Some y) = Some y ->
  exec_from fl r bef rst sk =
  Some (Found (rev sk) (consumed (MState bef rst []) y) (caps y) y).
Proof. intros H. destruct rst; simpl; rewrite H; reflexivity. Qed.

Lemma exec_from_skip fl r pre t :
  forall bef sk,
  (forall p1 p2, pre = p1 ++ p2 -> p2 <> [] ->
     m fl r (MState (rev p1 ++ bef) (p2 ++ t) []) (fun y => Some y) = None) ->
  exec_from fl r bef (pre ++ t) sk =
  exec_from fl r (rev pre ++ bef) t (rev pre ++ sk).
Proof.
  induction pre as [|c pre IH]; intros bef sk H; [reflexivity|].
  pose proof (H [] (c :: pre) eq_refl) as H0. simpl in H0.
  simpl. rewrite H0 by discriminate.
  rewrite IH.
  - rewrite <- !app_assoc. reflexivity.
  - intros p1 p2 E N. specialize (H (c :: p1) p2).
    simpl in H. rewrite <- app_assoc in H. apply H; [congruence | exact N].
Qed.

Lemma exec_from_none fl r rst :
  forall bef sk,
  (forall p1 p2, rst = p1 ++ p2 ->
     m fl r (MState (rev p1 ++ bef) p2 []) (fun y => Some y) = None) ->
  exec_from fl r bef rst sk = None.
Proof.
  induction rst as [|c t IH]; intros bef sk H; simpl.
  - pose proof (H [] [] eq_refl) as H0. simpl in H0. now rewrite H0.
  - pose proof (H [] (c :: t) eq_refl) as H0. simpl in H0. rewrite H0. apply IH.
    intros p1 p2 E. specialize (H (c :: p1) p2). simpl in H.
    rewrite <- app_assoc in H. apply H. congruence.
Qed.

Lemma consumed_app b r c l r' c' :
  consumed (MState b r c) (MState (rev l ++ b) r' c') = l.
Proof.
  unfold consumed. cbn [before].
  rewrite length_app, length_rev, Nat.add_sub.
  rewrite <- (length_rev l), firstn_app, Nat.sub_diag, firstn_all.
  simpl. rewrite app_nil_r. apply rev_involutive.
Qed.

(** ** Occurrences of a literal *)

Lemma canonicalize_sensitive fl c : ignoreCase fl = false -> canonicalize fl c = c.
Proof. intros H. unfold canonicalize. rewrite H. reflexivity. Qed.

Lemma starts_prefixb fl p s :
  ignoreCase fl = false -> starts fl p s = prefixb p s.
Proof.
  intros H. revert s. induction p as [|a p IH]; intros [|c s]; simpl; auto.
  rewrite !canonicalize_sensitive by assumption.
  unfold char_eqb. rewrite N.eqb_sym, IH. reflexivity.
Qed.

Lemma includes_suffix p s1 :
  forall s s2, includes s p = false -> s = s1 ++ s2 -> prefixb p s2 = false.
Proof.
  induction s1 as [|c s1 IH]; intros s s2 H E; simpl in E; subst s.
  - destruct s2; simpl in H; apply orb_false_iff in H; tauto.
  - simpl in H. apply orb_false_iff in H as [_ H]. eapply IH; eauto.
Qed.

(** ** The greedy star gives back as little as it can *)

Lemma star_chars_none p k rst :
  forall bef cps,
  (forall u v, rst = u ++ v -> k (MState (rev u ++ bef) v cps) = None) ->
  star_chars p k bef rst cps = None.
Proof.
  induction rst as [|c t IH]; intros bef cps H; simpl.
  - apply (H [] []). reflexivity.
  - assert (K : k (MState bef (c :: t) cps) = None) by (apply (H [] (c :: t)); reflexivity).
    destruct (p c); [|exact K].
    rewrite IH; [exact K|].
    intros u v E. specialize (H (c :: u) v). simpl in H.
    rewrite <- app_assoc in H. apply H. congruence.
Qed.

Lemma star_chars_last p k u :
  forall bef v cps z,
  Forall (fun c => p c = true) u ->
  k (MState (rev u ++ bef) v cps) = Some z ->
  (forall v1 v2, v = v1 ++ v2 -> v1 <> [] ->
     k (MState (rev v1 ++ rev u ++ bef) v2 cps) = None) ->
  star_chars p k bef (u ++ v) cps = Some z.
Proof.
  induction u as [|a u IH]; intros bef v cps z Hp Hk Hlater.
  - simpl in *. destruct v as [|c t]; simpl; [exact Hk|].
    destruct (p c); [|exact Hk].
    rewrite star_chars_none; [exact Hk|].
    intros u v E. specialize (Hlater (c :: u) v). simpl in Hlater.
    rewrite <- app_assoc in Hlater. apply Hlater; [congruence | discriminate].
  - inversion Hp as [|? ? Pa Pu]; subst. simpl. rewrite Pa.
    rewrite (IH (a :: bef) v cps z); auto.
    + simpl in Hk. rewrite <- app_assoc in Hk. exact Hk.
    + intros v1 v2 E N. specialize (Hlater v1 v2 E N).
      simpl in Hlater. rewrite <- app_assoc in Hlater. exact Hlater.
Qed.

(** ** The list wrap pass *)


Lemma li_open_straddle p w :
  p <> [] -> prefixb li_open p = false ->
  prefixb li_open (p ++ li_open ++ w) = false.
Proof.
  intros N H. unfold li_open in *.
  destruct p as [|a [|b [|c [|d p]]]]; [congruence|..]; cbn in *;
    repeat match goal with
           | |- context [char_eqb ?x ?y] => destruct (char_eqb x y); cbn in *
           end; congruence.
Qed.

Lemma li_close_later post v1 v2 :
  includes post li_close = false ->
  li_close ++ post = v1 ++ v2 -> v1 <> [] ->
  prefixb li_close v2 = false.
Proof.
  intros H E N. unfold li_close in *.
  destruct v1 as [|a1 [|a2 [|a3 [|a4 [|a5 v1]]]]]; [congruence|..];
    cbn in E; injection E; intros; subst; try reflexivity.
  eapply includes_suffix; eauto.
Qed.


Lemma wrap_regex_no_match bef rst :
  prefixb li_open rst = false ->
  m s_ wrap_regex (MState bef rst []) (fun y => Some y) = None.
Proof.
  intros H. unfold wrap_regex. cbn [m]. unfold lit at 1.
  rewrite m_lit_chars. cbn [rest].
  rewrite starts_prefixb by reflexivity.
  change (js "<li>") with li_open. rewrite H. reflexivity.
Qed.

Lemma skipn_app_exact (l r : jsstring) n : n = length l -> skipn n (l ++ r) = r.
Proof.
  intros ->. rewrite skipn_app, Nat.sub_diag, skipn_all. reflexivity.
Qed.

Lemma firstn_app_exact (l r : jsstring) n : n = length l -> firstn n (l ++ r) = l.
Proof.
  intros ->. rewrite firstn_app, Nat.sub_diag, firstn_all. simpl.
  apply app_nil_r.
Qed.

Lemma prefixb_app p s : prefixb p (p ++ s) = true.
Proof.
  induction p as [|a p IH]; simpl; [reflexivity|].
  unfold char_eqb. rewrite N.eqb_refl. exact IH.
Qed.

Lemma wrap_regex_match bef mid post :
  includes post li_close = false ->
  m s_ wrap_regex (MState bef (li_open ++ mid ++ li_close ++ post) [])
    (fun y => Some y) =
  Some (MState (rev (li_open ++ mid ++ li_close) ++ bef) post
               [(1%nat, li_open ++ mid ++ li_close)]).
Proof.
  intros H. unfold wrap_regex. cbn [m]. unfold lit at 1.
  rewrite m_lit_chars. cbn [rest before caps].
  rewrite starts_prefixb by reflexivity.
  change (js "<li>") with li_open. rewrite prefixb_app.
  rewrite firstn_app_exact, skipn_app_exact by reflexivity.
  rewrite m_star_dot. cbn [rest before caps].
  apply star_chars_last.
  - apply Forall_forall. intros c _. reflexivity.
  - unfold lit. rewrite m_lit_chars. cbn [rest before caps].
    rewrite starts_prefixb by reflexivity.
    change (js "</li>") with li_close. rewrite prefixb_app.
    rewrite firstn_app_exact, skipn_app_exact by reflexivity.
    f_equal.
    replace (rev li_close ++ rev mid ++ rev li_open ++ bef)
      with (rev (li_open ++ mid ++ li_close) ++ bef)
      by (rewrite !rev_app_distr, <- !app_assoc; reflexivity).
    rewrite consumed_app. reflexivity.
  - intros v1 v2 E N. unfold lit. rewrite m_lit_chars. cbn [rest].
    rewrite starts_prefixb by reflexivity.
    change (js "</li>") with li_close.
    rewrite (li_close_later _ H E N). reflexivity.
Qed.

Lemma wrap_list_is html : wrap_list html =
  replace s_ wrap_regex [TLit "<ul>"; TGroup 1; TLit "</ul>"] html.
Proof. reflexivity. Qed.

(** C2, as the code has it.  The wrap pass matches from the first [<li>]
    of the document to its last [</li>] (the dot matches line
    terminators and the star is greedy) and puts that whole stretch, list
    runs and the text between them alike, into one [<ul>] element. *)
Theorem wrap_list_first_to_last (pre mid post : jsstring) :
  includes pre (js "<li>") = false ->
  includes post (js "</li>") = false ->
  wrap_list (pre ++ js "<li>" ++ mid ++ js "</li>" ++ post) =
  pre ++ js "<ul>" ++ js "<li>" ++ mid ++ js "</li>" ++ js "</ul>" ++ post.
Proof.
  change (js "<li>") with li_open. change (js "</li>") with li_close.
  intros Hpre Hpost. rewrite wrap_list_is. unfold replace, pieces.
  cbn [match_all].
  rewrite exec_from_skip.
  2:{ intros p1 p2 E N. apply wrap_regex_no_match.
      apply li_open_straddle; [exact N|].
      eapply includes_suffix; eauto. }
  erewrite exec_from_here by (apply wrap_regex_match; exact Hpost).
  cbn [global s_ negb map concat render_piece skipped groups_of after rest].
  rewrite !app_nil_r, rev_involutive.
  unfold expand. cbn [map concat expand_item cap Nat.eqb caps].
  rewrite <- !app_assoc. reflexivity.
Qed.

Lemma wrap_list_first_to_last_witness :
  wrap_list (js "<li>a</li>" ++ [LF; LF] ++ js "text" ++ [LF; LF] ++ js "<li>b</li>") =
  js "<ul><li>a</li>" ++ [LF; LF] ++ js "text" ++ [LF; LF] ++ js "<li>b</li></ul>".
Proof.
  exact (wrap_list_first_to_last []
           (js "a</li>" ++ [LF; LF] ++ js "text" ++ [LF; LF] ++ js "<li>b") []
           eq_refl eq_refl).
Defined.

(** C2, as stated, fails: in the rendering of two bullet runs separated
    by a paragraph, the second run's [<li>] follows an opening [<ul>]
    that is only closed after it. *)
Lemma second_list_run_inside_ul :
  let doc := js "- a" ++ [LF; LF] ++ js "text" ++ [LF; LF] ++ js "- b" in
  let before_li := js "<ul><li>a</li></p><p>text</p><p>" in
  renderMarkdown doc = Ok (before_li ++ js "<li>b</li>" ++ js "</ul>") /\
  includes before_li (js "<ul>") = true /\
  includes before_li (js "</ul>") = false.
Proof. vm_compute. repeat split. Qed.

(** ** [highlightCode] *)

Lemma escape_char_no_lt c : ~ In 60 (escape_char c).
Proof.
  unfold escape_char.
  destruct (c =? 38); [vm_compute; intuition discriminate|].
  destruct (c =? 160); [vm_compute; intuition discriminate|].
  destruct (c =? 60) eqn:E; [vm_compute; intuition discriminate|].
  destruct (c =? 62); [vm_compute; intuition discriminate|].
  apply N.eqb_neq in E. simpl. intuition congruence.
Qed.

Lemma escapeHtml_no_lt code : ~ In 60 (escapeHtml code).
Proof.
  unfold escapeHtml. intros H. apply in_flat_map in H as [c [_ H]].
  exact (escape_char_no_lt c H).
Qed.

Lemma includes_needs_head a p s : ~ In a s -> includes s (a :: p) = false.
Proof.
  induction s as [|c s IH]; intros H; simpl; [reflexivity|].
  rewrite IH by (intros K; apply H; now right).
  destruct (char_eqb a c) eqn:E; [|reflexivity].
  apply N.eqb_eq in E. subst. exfalso. apply H. now left.
Qed.

Lemma lang_is_known lang s :
  In (js s) known_langs ->
  (forall l, lang = Some l -> ~ In l known_langs) ->
  lang_is lang s = false.
Proof.
  intros K H. destruct lang as [l|]; [|reflexivity]. simpl.
  destruct (str_eqb l (js s)) eqn:E; [|reflexivity].
  apply str_eqb_eq in E. subst. exfalso. exact (H _ eq_refl K).
Qed.

(** C4.  [highlightCode] escapes its input first and runs every
    token-wrapping pass on the escaped text; the escaped text holds no
    [<] at all, hence no tag and no span; for an absent or unrecognised
    language tag the result is exactly the escaped input. *)
Theorem highlightCode_escape_only :
  (forall code,
     highlightCode code (Some (js "java")) = highlight_java (escapeHtml code) /\
     highlightCode code (Some (js "javascript")) = highlight_java (escapeHtml code) /\
     highlightCode code (Some (js "typescript")) = highlight_java (escapeHtml code) /\
     highlightCode code (Some (js "js")) = highlight_java (escapeHtml code) /\
     highlightCode code (Some (js "ts")) = highlight_java (escapeHtml code) /\
     highlightCode code (Some (js "css")) = highlight_css (escapeHtml code) /\
     highlightCode code (Some (js "scss")) = highlight_css (escapeHtml code) /\
     highlightCode code (Some (js "html")) = highlight_html (escapeHtml code) /\
     highlightCode code (Some (js "xml")) = highlight_html (escapeHtml code)) /\
  (forall code,
     ~ In 60 (escapeHtml code) /\
     includes (escapeHtml code) (js "<script>") = false /\
     includes (escapeHtml code) (js "<span") = false) /\
  (forall code lang,
     (forall l, lang = Some l -> ~ In l known_langs) ->
     highlightCode code lang = escapeHtml code) /\
  highlightCode (js "<script>") None = js "&lt;script&gt;".
Proof.
  split; [|split; [|split]].
  - intros code. repeat split.
  - intros code. pose proof (escapeHtml_no_lt code) as H.
    split; [exact H|].
    split.
    + exact (@includes_needs_head 60 (js "script>") _ H).
    + exact (@includes_needs_head 60 (js "span") _ H).
  - intros code lang H. unfold highlightCode.
    rewrite !(fun s K => lang_is_known s K H) by (vm_compute; tauto).
    reflexivity.
  - vm_compute. reflexivity.
Qed.

Lemma highlightCode_escape_only_witness :
  highlightCode (js "a < b && c") (Some (js "python")) =
  js "a &lt; b &amp;&amp; c".
Proof.
  destruct highlightCode_escape_only as [_ [_ [H _]]].
  rewrite (H (js "a < b && c") (Some (js "python"))).
  - vm_compute. reflexivity.
  - intros l E. injection E as <-. vm_compute.
    intuition discriminate.
Defined.

(** ** The guide catalog *)

Import GuideService.

Lemma category_eqb_eq a b : category_eqb a b = true <-> a = b.
Proof. destruct a, b; simpl; split; intros H; congruence. Qed.

Lemma viewed_same g : same_but_viewed g (viewed g).
Proof. repeat split. Qed.

Lemma viewed_viewed g : isViewed g = Some true -> viewed g = g.
Proof. destruct g; simpl; intros ->; reflexivity. Qed.

Lemma markAsViewed_nth i guides n :
  nth_error (markAsViewed i guides) n =
  option_map (fun guide => if str_eqb (id guide) i then viewed guide else guide)
             (nth_error guides n).
Proof. unfold markAsViewed. apply nth_error_map. Qed.

Lemma markAsViewed_idempotent i guides :
  markAsViewed i (markAsViewed i guides) = markAsViewed i guides.
Proof.
  unfold markAsViewed. rewrite map_map. apply map_ext. intros g.
  destruct (str_eqb (id g) i) eqn:E.
  - change (id (viewed g)) with (id g). rewrite E. reflexivity.
  - rewrite E. reflexivity.
Qed.

Lemma getGuideById_markAsViewed i guides g :
  getGuideById i guides = Some g ->
  getGuideById i (markAsViewed i guides) = Some (viewed g).
Proof.
  unfold getGuideById, markAsViewed.
  induction guides as [|a guides IH]; simpl; [discriminate|].
  destruct (str_eqb (id a) i) eqn:E.
  - intros H. injection H as <-.
    change (id (viewed a)) with (id a). rewrite E. reflexivity.
  - rewrite E. exact IH.
Qed.

(** C7.  [markAsViewed(id)] keeps every record in its place; the record
    with that id gets [isViewed = true] and keeps all its other fields;
    every other record is unchanged; a look-up of the id afterwards shows
    [isViewed = true]; a second call changes nothing. *)
Theorem markAsViewed_sets_only_isViewed (guides : catalog) (i : jsstring) :
  let guides' := markAsViewed i guides in
  length guides' = length guides /\
  (forall n g, nth_error guides n = Some g ->
     exists g', nth_error guides' n = Some g' /\
       same_but_viewed g g' /\
       (id g = i -> isViewed g' = Some true) /\
       (id g <> i -> g' = g)) /\
  (forall g, getGuideById i guides = Some g ->
     exists g', getGuideById i guides' = Some g' /\ isViewed g' = Some true) /\
  markAsViewed i guides' = guides'.
Proof.
  cbv zeta. split; [|split; [|split]].
  - unfold markAsViewed. apply length_map.
  - intros n g H. rewrite markAsViewed_nth, H. simpl.
    destruct (str_eqb (id g) i) eqn:E.
    + exists (viewed g). split; [reflexivity|]. split; [apply viewed_same|].
      split; [reflexivity|]. intros N. apply str_eqb_eq in E. contradiction.
    + exists g. split; [reflexivity|]. split; [repeat split|].
      split; [|reflexivity]. intros <-.
      assert (K : str_eqb (id g) (id g) = true) by now apply str_eqb_eq.
      congruence.
  - intros g H. exists (viewed g). split; [|reflexivity].
    now apply getGuideById_markAsViewed.
  - apply markAsViewed_idempotent.
Qed.

Lemma markAsViewed_sets_only_isViewed_witness :
  let a := sample_guide "backend-entites" BACKEND 1 in
  let b := sample_guide "frontend-components" FRONTEND 2 in
  exists g', nth_error (markAsViewed (js "backend-entites") [a; b]) 0 = Some g' /\
             same_but_viewed a g' /\ isViewed g' = Some true.
Proof.
  cbv zeta.
  destruct (markAsViewed_sets_only_isViewed
              [sample_guide "backend-entites" BACKEND 1;
               sample_guide "frontend-components" FRONTEND 2]
              (js "backend-entites")) as [_ [H _]].
  destruct (H 0%nat _ eq_refl) as [g' [N [S [V _]]]].
  exists g'. split; [exact N|]. split; [exact S|]. apply V. reflexivity.
Defined.

Lemma perform_keeps_viewed toLowerCase o guides n g :
  nth_error guides n = Some g -> isViewed g = Some true ->
  nth_error (snd (perform toLowerCase o guides)) n = Some g.
Proof.
  intros H V. destruct o; simpl; try exact H.
  rewrite markAsViewed_nth, H. simpl.
  destruct (str_eqb (id g) i); [|reflexivity].
  now rewrite viewed_viewed.
Qed.

(** C8.  Whatever operations of the service are called, in whatever
    order, a record whose [isViewed] is true stays where it is and as it
    is: [isViewed] never goes back to false. *)
Theorem isViewed_never_reverts toLowerCase (ops : list operation)
    (guides : catalog) (n : nat) (g : Guide) :
  nth_error guides n = Some g -> isViewed g = Some true ->
  nth_error (run toLowerCase ops guides) n = Some g.
Proof.
  revert guides. unfold run.
  induction ops as [|o ops IH]; intros guides H V; simpl; [exact H|].
  apply IH; [|exact V]. now apply perform_keeps_viewed.
Qed.

Lemma isViewed_never_reverts_witness :
  let a := viewed (sample_guide "backend-entites" BACKEND 1) in
  let b := sample_guide "frontend-components" FRONTEND 2 in
  nth_error (run (fun s => s)
                 [MarkAsViewed (js "frontend-components"); GetGuides;
                  SearchGuides (js "title"); GetGuidesByCategory BACKEND;
                  GetGuideById (js "backend-entites");
                  MarkAsViewed (js "backend-entites")]
                 [a; b]) 0 = Some a.
Proof.
  cbv zeta. apply isViewed_never_reverts; reflexivity.
Defined.

Lemma insert_perm (A : Type) (cmp : A -> A -> Z) x l :
  Permutation (insert cmp x l) (x :: l).
Proof.
  induction l as [|y l IH]; simpl; [reflexivity|].
  destruct (cmp x y <=? 0)%Z; [reflexivity|].
  rewrite IH. apply perm_swap.
Qed.

Lemma sort_perm (A : Type) (cmp : A -> A -> Z) l :
  Permutation (sort cmp l) l.
Proof.
  induction l as [|x l IH]; simpl; [reflexivity|].
  rewrite insert_perm. now constructor.
Qed.


Lemma insert_sorted x l :
  StronglySorted by_order l -> StronglySorted by_order (insert compare_order x l).
Proof.
  induction 1 as [|y l S IH F]; simpl.
  - repeat constructor.
  - unfold compare_order at 1. destruct (order x - order y <=? 0)%Z eqn:E.
    + apply Z.leb_le in E. constructor; [now constructor|].
      constructor; [unfold by_order; lia|].
      eapply Forall_impl; [|exact F]. unfold by_order. intros; lia.
    + apply Z.leb_gt in E. constructor; [exact IH|].
      eapply Permutation_Forall; [symmetry; apply insert_perm|].
      constructor; [unfold by_order; lia | exact F].
Qed.

Lemma sort_sorted l : StronglySorted by_order (sort compare_order l).
Proof.
  induction l as [|x l IH]; simpl; [constructor | now apply insert_sorted].
Qed.

(** C9.  [getGuidesByCategory(category)] returns the records of that
    category and no others, each as often as the catalog holds it, in
    ascending [order]; of two records of the category with different
    [order] the one with the smaller [order] comes first. *)
Theorem getGuidesByCategory_sorted (guides : catalog) (c : GuideCategory) :
  let r := getGuidesByCategory c guides in
  Permutation r (filter (fun g => category_eqb (category g) c) guides) /\
  (forall g, In g r <-> In g guides /\ category g = c) /\
  StronglySorted by_order r /\
  (forall a b, category a = c -> category b = c -> (order a < order b)%Z ->
     getGuidesByCategory c [a; b] = [a; b] /\
     getGuidesByCategory c [b; a] = [a; b]).
Proof.
  cbv zeta. unfold getGuidesByCategory.
  change (fun a b : Guide => (order a - order b)%Z) with compare_order.
  split; [|split; [|split]].
  - apply sort_perm.
  - intros g. rewrite <- category_eqb_eq.
    rewrite <- (filter_In (fun g => category_eqb (category g) c)).
    split; apply Permutation_in; [|symmetry]; apply sort_perm.
  - apply sort_sorted.
  - intros a b Ha Hb L. apply category_eqb_eq in Ha, Hb.
    simpl. rewrite Ha, Hb. simpl. unfold compare_order.
    destruct (order a - order b <=? 0)%Z eqn:E1; [|apply Z.leb_gt in E1; lia].
    destruct (order b - order a <=? 0)%Z eqn:E2; [apply Z.leb_le in E2; lia|].
    split; reflexivity.
Qed.

Lemma getGuidesByCategory_sorted_witness :
  let a := sample_guide "backend-entites" BACKEND 1 in
  let b := sample_guide "backend-repositories" BACKEND 2 in
  getGuidesByCategory BACKEND [b; a] = [a; b].
Proof.
  cbv zeta.
  destruct (getGuidesByCategory_sorted [] BACKEND) as [_ [_ [_ H]]].
  apply (H (sample_guide "backend-entites" BACKEND 1)
           (sample_guide "backend-repositories" BACKEND 2));
    [reflexivity | reflexivity | reflexivity].
Defined.

(** ** [renderMarkdown] on the sample documents *)

(** C5.  [renderMarkdown("# Title")] is exactly [<h1>Title</h1>]: the
    header pass makes the heading, the paragraph pass wraps it in
    [<p>...</p>], and the clean-up pass takes that wrapping away. *)
Theorem renderMarkdown_title :
  renderMarkdown (js "# Title") = Ok (js "<h1>Title</h1>") /\
  inline_passes (js "# Title") = js "<h1>Title</h1>" /\
  paragraphs (js "<h1>Title</h1>") = js "<p><h1>Title</h1></p>" /\
  cleanup (js "<p><h1>Title</h1></p>") = js "<h1>Title</h1>".
Proof. vm_compute. repeat split. Qed.

(** C6.  [renderMarkdown("**bold** and *italic*")] holds
    [<strong>bold</strong>] and then [<em>italic</em>].  The bold pass
    runs first; run the other way round, the italic pass would split the
    double asterisks into empty [<em>] pairs. *)
Theorem renderMarkdown_bold_italic :
  let s := js "**bold** and *italic*" in
  renderMarkdown s = Ok (js "<p><strong>bold</strong> and <em>italic</em></p>") /\
  inline_passes s = italic (bold s) /\
  italic (bold s) = js "<strong>bold</strong> and <em>italic</em>" /\
  bold (italic s) = js "<em></em>bold<em></em> and <em>italic</em>".
Proof. vm_compute. repeat split. Qed.

(** C3, evaluated.  On the Java sample the wrapper and the [code]
    element are there and [Foo] is wrapped as a class name, but no
    keyword span survives: the keyword pass for [class] re-matches the
    attribute name of the span just written around [public], and the
    string pass then wraps every quoted attribute value. *)
Theorem renderMarkdown_java_sample :
  let sample := js "```java" ++ LF :: js "public class Foo {}" ++ LF :: js "```" in
  let out :=
    js "<div class=~code-wrapper~><pre><code class=~language-java~>"
    ++ js "<span <span class=<span class=~string~>~keyword~</span>>class</span>"
    ++ js "=<span class=~string~>~keyword~</span>>public</span> "
    ++ js "<span class=<span class=~string~>~keyword~</span>>class</span> "
    ++ js "<span class=~class~>Foo</span> {}</code></pre></div>" in
  renderMarkdown sample = Ok out /\
  includes out (js "<div class=~code-wrapper~>") = true /\
  includes out (js "<code class=~language-java~>") = true /\
  includes out (js "<span class=~class~>Foo</span>") = true /\
  includes out (js "<span class=~keyword~>public</span>") = false /\
  includes out (js "<span class=~keyword~>class</span>") = false /\
  includes out (js "<span class=~keyword~>") = false /\
  replace g_ (keyword_regex "class") (span "keyword" [TGroup 1])
          (js "<span class=~keyword~>public</span> class Foo {}") =
    js "<span <span class=~keyword~>class</span>=~keyword~>public</span> "
    ++ js "<span class=~keyword~>class</span> Foo {}".
Proof. vm_compute. repeat split. Qed.

(** ** The paragraph pass *)


Lemma canonicalize_lf fl c : (canonicalize fl c =? canonicalize fl LF) = (c =? LF).
Proof.
  unfold canonicalize, LF. destruct (ignoreCase fl); simpl; [|reflexivity].
  destruct (97 <=? c) eqn:E1; simpl; [|reflexivity].
  destruct (c <=? 122) eqn:E2; simpl; [|reflexivity].
  apply N.leb_le in E1, E2.
  destruct (N.eqb_spec (c - 32) 10), (N.eqb_spec c 10); try reflexivity; lia.
Qed.

Lemma m_blank bef rst :
  m gim blank_regex (MState bef rst []) (fun y => Some y) =
  match rst with
  | c1 :: c2 :: t =>
      if (c1 =? LF) && (c2 =? LF) then Some (MState (c2 :: c1 :: bef) t [])
      else None
  | _ => None
  end.
Proof.
  unfold blank_regex. cbn [m]. unfold match_char. cbn [rest].
  destruct rst as [|c1 rst]; [reflexivity|].
  rewrite canonicalize_lf. destruct (c1 =? LF); [|destruct rst; reflexivity].
  cbn [step1 rest]. destruct rst as [|c2 t]; [reflexivity|].
  rewrite canonicalize_lf. destruct (c2 =? LF); reflexivity.
Qed.

Lemma exec_blank s : forall bef sk,
  exec_from gim blank_regex bef s sk =
  match split_blank s with
  | Some (p, r) =>
      Some (Found (rev sk ++ p) [LF; LF] []
                  (MState (LF :: LF :: rev p ++ bef) r []))
  | None => None
  end.
Proof.
  induction s as [|c1 t IH]; intros bef sk.
  - reflexivity.
  - cbn [exec_from split_blank]. rewrite m_blank.
    destruct t as [|c2 t'].
    + reflexivity.
    + destruct ((c1 =? LF) && (c2 =? LF)) eqn:E.
      * apply andb_true_iff in E as [E1 E2].
        apply N.eqb_eq in E1, E2. subst c1 c2.
        rewrite app_nil_r.
        change (LF :: LF :: bef) with (rev [LF; LF] ++ bef).
        rewrite consumed_app. reflexivity.
      * rewrite IH. destruct (split_blank (c2 :: t')) as [[p r]|]; [|reflexivity].
        simpl. rewrite <- !app_assoc. reflexivity.
Qed.

Lemma para_split s :
  para s = match split_blank s with
           | Some (p, r) => p ++ boundary ++ para r
           | None => s
           end.
Proof.
  induction s as [|c1 t IH]; [reflexivity|].
  cbn [para split_blank]. destruct t as [|c2 t']; [reflexivity|].
  destruct ((c1 =? LF) && (c2 =? LF)); [reflexivity|].
  rewrite IH. destruct (split_blank (c2 :: t')) as [[p r]|]; reflexivity.
Qed.

Lemma split_blank_length s : forall p r,
  split_blank s = Some (p, r) -> (length r < length s)%nat.
Proof.
  induction s as [|c1 t IH]; intros p r H; [discriminate|].
  cbn [split_blank] in H. destruct t as [|c2 t']; [discriminate|].
  destruct ((c1 =? LF) && (c2 =? LF)).
  - injection H as <- <-. simpl. lia.
  - destruct (split_blank (c2 :: t')) as [[p' r']|]; [|discriminate].
    injection H as <- <-. specialize (IH _ _ eq_refl). simpl in *. lia.
Qed.

Lemma blank_lines_loop fuel : forall bef s,
  (length s < fuel)%nat ->
  concat (map (render_piece [TLit "</p><p>"])
              (match_all gim blank_regex fuel bef s)) = para s.
Proof.
  induction fuel as [|fuel IH]; intros bef s H; [lia|].
  cbn [match_all]. rewrite exec_blank, para_split.
  destruct (split_blank s) as [[p r]|] eqn:E.
  - apply split_blank_length in E.
    cbn [global gim negb matched after rest before map concat render_piece
         skipped groups_of app rev].
    rewrite IH by lia. unfold expand. cbn [map concat expand_item].
    change (js "</p><p>") with boundary.
    rewrite !app_nil_r, <- app_assoc. reflexivity.
  - simpl. apply app_nil_r.
Qed.

(** The paragraph pass is [para]. *)
Lemma blank_lines_para s : blank_lines s = para s.
Proof. apply blank_lines_loop. lia. Qed.

Lemma ends_with_lf_cons c u :
  u <> [] -> ends_with_lf (c :: u) = ends_with_lf u.
Proof.
  intros N. unfold ends_with_lf. simpl.
  destruct (rev u) as [|x r] eqn:R; [|reflexivity].
  apply (f_equal (@rev char16)) in R. rewrite rev_involutive in R.
  contradiction.
Qed.

Lemma para_cons2 c1 c2 t :
  para (c1 :: c2 :: t) =
  if (c1 =? LF) && (c2 =? LF) then boundary ++ para t else c1 :: para (c2 :: t).
Proof. reflexivity. Qed.

Lemma para_app_blank n : forall u v,
  (length u <= n)%nat -> ends_with_lf u = false ->
  para (u ++ LF :: LF :: v) = para u ++ boundary ++ para v.
Proof.
  induction n as [|n IH]; intros u v L E.
  - destruct u; [reflexivity | simpl in L; lia].
  - destruct u as [|c1 [|c2 u]].
    + reflexivity.
    + unfold ends_with_lf in E. simpl in E.
      cbn [app para]. rewrite E. simpl. reflexivity.
    + rewrite ends_with_lf_cons in E by discriminate.
      change ((c1 :: c2 :: u) ++ LF :: LF :: v)
        with (c1 :: c2 :: (u ++ LF :: LF :: v)).
      rewrite !para_cons2. destruct ((c1 =? LF) && (c2 =? LF)) eqn:T.
      * rewrite <- app_assoc. f_equal. apply IH.
        -- simpl in L. lia.
        -- destruct u; [reflexivity|].
           rewrite ends_with_lf_cons in E by discriminate. exact E.
      * change (c2 :: u ++ LF :: LF :: v) with ((c2 :: u) ++ LF :: LF :: v).
        rewrite IH; [reflexivity | simpl in *; lia | exact E].
Qed.

Lemma para_no_lf s : ~ In LF s -> para s = s.
Proof.
  induction s as [|c1 t IH]; intros H; [reflexivity|].
  destruct t as [|c2 t']; [reflexivity|].
  rewrite para_cons2.
  destruct (N.eqb_spec c1 LF) as [->|_]; [exfalso; apply H; now left|].
  cbn [andb]. rewrite IH; [reflexivity|]. intros K. apply H. now right.
Qed.

Lemma ends_with_lf_app u v :
  v <> [] -> ends_with_lf (u ++ v) = ends_with_lf v.
Proof.
  intros N. unfold ends_with_lf. rewrite rev_app_distr.
  destruct (rev v) as [|x r] eqn:R; [|reflexivity].
  apply (f_equal (@rev char16)) in R. rewrite rev_involutive in R.
  contradiction.
Qed.



(** ** What a match has to begin with *)

Lemma starts_tests_app fl ts1 ts2 s :
  starts_tests fl ts1 s = true ->
  starts_tests fl ts2 (skipn (length ts1) s) = true ->
  starts_tests fl (ts1 ++ ts2) s = true.
Proof.
  revert s. induction ts1 as [|t ts1 IH]; intros s H1 H2; simpl in *.
  - exact H2.
  - destruct s as [|c s]; [discriminate|].
    apply andb_true_iff in H1 as [T H1]. rewrite T. simpl. now apply IH.
Qed.

Lemma fixed_tests_sound fl r :
  forall ts, fixed_tests r = Some ts ->
  forall x k z, m fl r x k = Some z ->
    starts_tests fl ts (rest x) = true /\
    exists y, k y = Some z /\ rest y = skipn (length ts) (rest x).
Proof.
  assert (Hassert : forall p x k z, assert p x k = Some z ->
            starts_tests fl [] (rest x) = true /\
            exists y, k y = Some z /\ rest y = skipn (length (@nil ptest)) (rest x)).
  { intros p x k z H. unfold assert in H. destruct (p x); [|discriminate].
    split; [reflexivity|]. exists x. split; [exact H | reflexivity]. }
  assert (Hchar : forall t x k z,
            match_char (test_eval fl t) x k = Some z ->
            starts_tests fl [t] (rest x) = true /\
            exists y, k y = Some z /\ rest y = skipn (length [t]) (rest x)).
  { intros t x k z H. unfold match_char in H.
    destruct (rest x) as [|c s]; [discriminate|].
    destruct (test_eval fl t c) eqn:T; [|discriminate].
    split; [simpl; now rewrite T|].
    exists (step1 x c s). split; [exact H | reflexivity]. }
  induction r as [ |a| |neg items|r1 IH1 r2 IH2|r1 IH1 r2 IH2
                 |min max greedy r1 IH1|n r1 IH1| | | ];
    intros ts F x k z H; simpl in F.
  - injection F as <-. split; [reflexivity|]. exists x. split; [exact H | reflexivity].
  - injection F as <-. exact (Hchar (TChr a) x k z H).
  - injection F as <-. exact (Hchar TDot x k z H).
  - injection F as <-. exact (Hchar (TSet neg items) x k z H).
  - destruct (fixed_tests r1) as [t1|]; [|discriminate].
    destruct (fixed_tests r2) as [t2|]; [|discriminate].
    injection F as <-. cbn [m] in H.
    destruct (IH1 _ eq_refl _ _ _ H) as [S1 [y [H' R1]]].
    destruct (IH2 _ eq_refl _ _ _ H') as [S2 [y' [H'' R2]]].
    split.
    + apply starts_tests_app; [exact S1|]. rewrite <- R1. exact S2.
    + exists y'. split; [exact H''|].
      rewrite R2, R1, skipn_skipn, length_app. f_equal. lia.
  - discriminate.
  - discriminate.
  - cbn [m] in H. destruct (IH1 _ F _ _ _ H) as [S1 [y [H' R1]]].
    split; [exact S1|]. eexists. split; [exact H'|]. exact R1.
  - injection F as <-. exact (Hassert _ x k z H).
  - injection F as <-. exact (Hassert _ x k z H).
  - injection F as <-. exact (Hassert _ x k z H).
Qed.

Lemma lead_sound fl r :
  forall x k z, m fl r x k = Some z -> starts_tests fl (lead r) (rest x) = true.
Proof.
  assert (Hchar : forall t x k z,
            match_char (test_eval fl t) x k = Some z ->
            starts_tests fl [t] (rest x) = true).
  { intros t x k z H. unfold match_char in H.
    destruct (rest x) as [|c s]; [discriminate|].
    destruct (test_eval fl t c) eqn:T; [|discriminate].
    simpl. now rewrite T. }
  induction r as [ |a| |neg items|r1 IH1 r2 IH2|r1 IH1 r2 IH2
                 |min max greedy r1 IH1|n r1 IH1| | | ];
    intros x k z H; try reflexivity.
  - exact (Hchar (TChr a) x k z H).
  - exact (Hchar TDot x k z H).
  - exact (Hchar (TSet neg items) x k z H).
  - cbn [lead]. cbn [m] in H. destruct (fixed_tests r1) as [t1|] eqn:F.
    + destruct (fixed_tests_sound fl r1 F _ _ H) as [S1 [y [H' R1]]].
      apply starts_tests_app; [exact S1|]. rewrite <- R1. eapply IH2; eauto.
    + eapply IH1; eauto.
  - cbn [lead]. destruct min as [|min]; [reflexivity|].
    destruct (is_zero max) eqn:Z; [reflexivity|].
    cbn [m] in H. rewrite Nat.add_1_r in H. cbn [repeat_matcher] in H.
    rewrite Z in H. cbn [Nat.eqb negb] in H.
    apply IH1 in H. exact H.
  - cbn [lead]. cbn [m] in H. eapply IH1; eauto.
Qed.

Lemma needs_bol_sound fl r x k z :
  needs_bol r = true -> m fl r x k = Some z -> at_bol fl x = true.
Proof.
  intros N H. destruct r; try discriminate. destruct r1; try discriminate.
  cbn [m] in H. unfold assert in H. destruct (at_bol fl x); [reflexivity | discriminate].
Qed.

Lemma no_match_here fl r x k :
  (negb (needs_bol r) || at_bol fl x) && starts_tests fl (lead r) (rest x) = false ->
  m fl r x k = None.
Proof.
  intros H. destruct (m fl r x k) as [z|] eqn:E; [|reflexivity].
  rewrite (lead_sound _ _ _ _ E), andb_true_r in H.
  destruct (needs_bol r) eqn:N; [|discriminate].
  rewrite (needs_bol_sound _ _ _ _ N E) in H. discriminate.
Qed.

(** ** Plain characters *)

Ltac cmp_false :=
  repeat match goal with
         | |- context [N.eqb ?x ?y] => rewrite (proj2 (N.eqb_neq x y)) by lia
         | |- context [N.leb ?x ?y] => rewrite (proj2 (N.leb_gt x y)) by lia
         | |- context [N.leb ?x ?y] => rewrite (proj2 (N.leb_le x y)) by lia
         end;
  cbn [orb andb negb].

Lemma upper_plain c : 65 <= c <= 90 -> plain c = true.
Proof.
  intros H. unfold plain, isSpace, isWhiteSpace, isLineTerminator, isDigit, special.
  cbn [existsb]. cmp_false. reflexivity.
Qed.

Lemma lower_plain c : 97 <= c <= 122 -> plain c = true.
Proof.
  intros H. unfold plain, isSpace, isWhiteSpace, isLineTerminator, isDigit, special.
  cbn [existsb]. cmp_false. reflexivity.
Qed.

Lemma plain_canonicalize fl c : plain (canonicalize fl c) = plain c.
Proof.
  unfold canonicalize.
  destruct (ignoreCase fl && (97 <=? c) && (c <=? 122)) eqn:E; [|reflexivity].
  apply andb_true_iff in E as [E E2]. apply andb_true_iff in E as [_ E1].
  apply N.leb_le in E1, E2.
  rewrite (@lower_plain c), (@upper_plain (c - 32)) by lia. reflexivity.
Qed.

Lemma plain_lower c : plain (lower c) = plain c.
Proof.
  unfold lower.
  destruct ((65 <=? c) && (c <=? 90)) eqn:E; [|reflexivity].
  apply andb_true_iff in E as [E1 E2]. apply N.leb_le in E1, E2.
  rewrite (@lower_plain (c + 32)), (@upper_plain c) by lia. reflexivity.
Qed.

Lemma plain_not_space c : plain c = true -> isSpace c = false.
Proof.
  unfold plain. intros H. apply andb_true_iff in H as [H _].
  apply andb_true_iff in H as [H _]. now apply negb_true_iff in H.
Qed.

Lemma plain_not_digit c : plain c = true -> isDigit c = false.
Proof.
  unfold plain. intros H. apply andb_true_iff in H as [H _].
  apply andb_true_iff in H as [_ H]. now apply negb_true_iff in H.
Qed.

Lemma plain_not_special c : plain c = true -> ~ In c special.
Proof.
  unfold plain. intros H K. apply andb_true_iff in H as [_ H].
  apply negb_true_iff in H.
  assert (E : existsb (N.eqb c) special = true).
  { apply existsb_exists. exists c. split; [exact K | apply N.eqb_refl]. }
  congruence.
Qed.

Lemma plain_not_terminator c : plain c = true -> isLineTerminator c = false.
Proof.
  intros H. apply plain_not_space in H. unfold isSpace in H.
  now apply orb_false_iff in H.
Qed.

Lemma plain_not_lf c : plain c = true -> c <> LF.
Proof. intros H ->. discriminate. Qed.

Lemma never_plain_sound fl t c :
  never_plain t = true -> plain c = true -> test_eval fl t c = false.
Proof.
  intros N P. destruct t as [a|neg items|]; simpl in N; [| |discriminate].
  - apply negb_true_iff in N. simpl.
    destruct (N.eqb_spec (canonicalize fl c) (canonicalize fl a)) as [E|_];
      [|reflexivity].
    apply (f_equal plain) in E. rewrite !plain_canonicalize in E. congruence.
  - destruct neg; [discriminate|].
    destruct items as [|[ | | | | | ] [|? ?]]; try discriminate.
    simpl. unfold set_mem. cbn [existsb item_mem].
    rewrite !orb_false_r.
    rewrite (plain_not_digit _ P).
    rewrite (plain_not_digit (canonicalize fl c))
      by (now rewrite plain_canonicalize).
    rewrite (plain_not_digit (lower c)) by (now rewrite plain_lower).
    now rewrite andb_false_r.
Qed.

(** ** The abstract scan is sound *)

Section Abstract.
Variables a b : jsstring.
Hypothesis Ha : plain_word a.
Hypothesis Hb : plain_word b.

Lemma denote_app d1 d2 : denote a b (d1 ++ d2) = denote a b d1 ++ denote a b d2.
Proof. unfold denote. apply flat_map_app. Qed.

Lemma denote_chars s : denote a b (chars s) = s.
Proof.
  unfold denote, chars. induction s as [|c s IH]; simpl; [reflexivity|].
  now rewrite IH.
Qed.

Lemma astarts_sound fl ts : forall d,
  starts_tests fl ts (denote a b d) = true -> astarts fl ts d = true.
Proof.
  induction ts as [|t ts IH]; intros d H; [destruct d; reflexivity|].
  assert (W : forall w tl, plain_word w ->
            starts_tests fl (t :: ts) (w ++ tl) = true ->
            negb (never_plain t) = true).
  { intros w tl [N F] S. destruct w as [|c w]; [congruence|].
    inversion F as [|? ? Pc _]; subst. simpl in S.
    apply andb_true_iff in S as [T _].
    destruct (never_plain t) eqn:E; [|reflexivity].
    rewrite (never_plain_sound fl _ _ E Pc) in T. discriminate. }
  destruct d as [|[c| |] d]; cbn [astarts].
  - exact H.
  - simpl in H. apply andb_true_iff in H as [T H]. rewrite T. now apply IH.
  - exact (W _ _ Ha H).
  - exact (W _ _ Hb H).
Qed.

Lemma plain_word_bol fl w bef rst cps :
  plain_word w -> at_bol fl (MState (rev w ++ bef) rst cps) = false.
Proof.
  intros [N F]. unfold at_bol. cbn [before].
  destruct (rev w) as [|c r] eqn:R.
  - apply (f_equal (@rev char16)) in R. rewrite rev_involutive in R. contradiction.
  - simpl. assert (P : plain c = true).
    { rewrite Forall_forall in F. apply F. apply in_rev. rewrite R. now left. }
    rewrite (plain_not_terminator _ P). apply andb_false_r.
Qed.

Lemma ascan_sound fl r pre post : forall atbol bef,
  ascan fl (needs_bol r) (lead r) atbol pre post = false ->
  (at_bol fl (MState bef [] []) = true -> atbol = true) ->
  forall p1 p2, denote a b pre = p1 ++ p2 -> p2 <> [] ->
    m fl r (MState (rev p1 ++ bef) (p2 ++ denote a b post) [])
      (fun y => Some y) = None.
Proof.
  assert (W : forall w pre' bef,
    plain_word w ->
    (forall atbol bef,
       ascan fl (needs_bol r) (lead r) atbol pre' post = false ->
       (at_bol fl (MState bef [] []) = true -> atbol = true) ->
       forall p1 p2, denote a b pre' = p1 ++ p2 -> p2 <> [] ->
         m fl r (MState (rev p1 ++ bef) (p2 ++ denote a b post) [])
           (fun y => Some y) = None) ->
    match lead r with [] => true | t :: _ => negb (never_plain t) end
    || ascan fl (needs_bol r) (lead r) false pre' post = false ->
    forall p1 p2, w ++ denote a b pre' = p1 ++ p2 -> p2 <> [] ->
      m fl r (MState (rev p1 ++ bef) (p2 ++ denote a b post) [])
        (fun y => Some y) = None).
  { intros w pre' bef Hw IH H p1 p2 E N.
    apply orb_false_iff in H as [Hl Hs].
    destruct (lead r) as [|t ts] eqn:L; [discriminate|].
    apply negb_false_iff in Hl.
    assert (Q : forall rst cps,
              at_bol fl (MState (rev w ++ bef) rst cps) = true -> false = true).
    { intros rst cps K. rewrite (plain_word_bol fl bef rst cps Hw) in K.
      discriminate. }
    apply app_eq_app in E as [l [[E1 E2]|[E1 E2]]].
    - (* the position is in [w] or at its end *)
      destruct l as [|c l].
      + rewrite app_nil_r in E1. subst w. simpl in E2.
        apply (IH false (rev p1 ++ bef) Hs (Q _ _) [] p2);
          [simpl; congruence | exact N].
      + subst p2. apply no_match_here. rewrite L. cbn [rest].
        assert (P : plain c = true).
        { destruct Hw as [_ F]. rewrite Forall_forall in F. apply F.
          rewrite E1. apply in_or_app. right. now left. }
        simpl. rewrite (never_plain_sound fl _ _ Hl P). apply andb_false_r.
    - (* the position is after [w] *)
      subst p1. rewrite rev_app_distr, <- app_assoc.
      apply (IH false (rev w ++ bef) Hs (Q _ _)); [exact E2 | exact N]. }
  induction pre as [|[c| |] pre IH]; intros atbol bef H Hbol p1 p2 E N.
  - simpl in E. destruct p1; [|discriminate]. simpl in E. subst. congruence.
  - cbn [ascan] in H. apply orb_false_iff in H as [Hh Hs].
    change (denote a b (C c :: pre)) with (c :: denote a b pre) in E.
    destruct p1 as [|c' p1].
    + simpl in E. subst p2. apply no_match_here. cbn [rest rev app].
      match goal with
      | |- context [starts_tests ?f ?t ?s] =>
          destruct (starts_tests f t s) eqn:S; [|apply andb_false_r]
      end.
      change (c :: denote a b pre ++ denote a b post)
        with (denote a b (C c :: pre) ++ denote a b post) in S.
      rewrite <- denote_app in S. apply astarts_sound in S.
      rewrite S, andb_true_r in Hh. rewrite andb_true_r.
      apply orb_false_iff in Hh as [Hn Hb']. rewrite Hn. simpl.
      match goal with
      | |- ?e = false => destruct e eqn:K; [|reflexivity]
      end.
      rewrite Hbol in Hb'; [discriminate | exact K].
    + injection E as <- E. simpl. rewrite <- app_assoc.
      apply (IH _ _ Hs); [|exact E|exact N].
      intros K. exact K.
  - apply (W a pre bef Ha IH H p1 p2 E N).
  - apply (W b pre bef Hb IH H p1 p2 E N).
Qed.
End Abstract.

(** ** Passes that find nothing, passes that find one match *)

Lemma replace_none fl r t s :
  (forall p1 p2, s = p1 ++ p2 ->
     m fl r (MState (rev p1) p2 []) (fun y => Some y) = None) ->
  replace fl r t s = s.
Proof.
  intros H. unfold replace, pieces. cbn [match_all].
  rewrite exec_from_none.
  - simpl. apply app_nil_r.
  - intros p1 p2 E. rewrite app_nil_r. now apply H.
Qed.

Lemma replace_once fl r t pre M post cps :
  global fl = true -> M <> [] ->
  (forall p1 p2, pre = p1 ++ p2 -> p2 <> [] ->
     m fl r (MState (rev p1) (p2 ++ M ++ post) []) (fun y => Some y) = None) ->
  m fl r (MState (rev pre) (M ++ post) []) (fun y => Some y) =
    Some (MState (rev M ++ rev pre) post cps) ->
  (forall p1 p2, post = p1 ++ p2 ->
     m fl r (MState (rev p1 ++ rev M ++ rev pre) p2 []) (fun y => Some y) = None) ->
  replace fl r t (pre ++ M ++ post) = pre ++ expand t cps ++ post.
Proof.
  intros G N H1 H2 H3. unfold replace, pieces. cbn [match_all].
  rewrite exec_from_skip.
  2:{ intros p1 p2 E K. rewrite app_nil_r. now apply H1. }
  rewrite !app_nil_r.
  rewrite (exec_from_here _ _ _ _ _ H2).
  rewrite G. cbn [negb matched after rest before skipped groups_of caps].
  rewrite consumed_app. destruct M as [|c M]; [congruence|].
  rewrite (@match_all_fuel fl r _ (S (length post))).
  - cbn [match_all]. rewrite exec_from_none by exact H3.
    cbn [map concat render_piece skipped groups_of].
    rewrite rev_involutive, app_nil_r, <- app_assoc. reflexivity.
  - rewrite !length_app. simpl. lia.
  - lia.
Qed.

Section AbstractPasses.
Variables a b : jsstring.
Hypothesis Ha : plain_word a.
Hypothesis Hb : plain_word b.

Lemma no_match_in_sound fl r pre post bef :
  no_match_in fl r pre post = true ->
  forall p1 p2, denote a b pre = p1 ++ p2 -> p2 <> [] ->
    m fl r (MState (rev p1 ++ bef) (p2 ++ denote a b post) [])
      (fun y => Some y) = None.
Proof.
  unfold no_match_in. intros H. apply andb_true_iff in H as [H _].
  apply negb_true_iff in H.
  apply (ascan_sound Ha Hb fl r pre post (atbol := true) bef H).
  reflexivity.
Qed.

Lemma no_match_at_end fl r pre post bef :
  no_match_in fl r pre post = true ->
  m fl r (MState bef [] []) (fun y => Some y) = None.
Proof.
  unfold no_match_in. intros H. apply andb_true_iff in H as [_ H].
  apply no_match_here. destruct (lead r); [discriminate|].
  apply andb_false_r.
Qed.

Lemma no_match_anywhere fl r d bef :
  no_match_in fl r d [] = true ->
  forall p1 p2, denote a b d = p1 ++ p2 ->
    m fl r (MState (rev p1 ++ bef) p2 []) (fun y => Some y) = None.
Proof.
  intros H p1 p2 E. destruct p2 as [|c p2].
  - eapply no_match_at_end; eauto.
  - replace (c :: p2) with ((c :: p2) ++ denote a b [])
      by (apply app_nil_r).
    eapply no_match_in_sound; eauto. discriminate.
Qed.

(** A pass whose pattern cannot start anywhere leaves the document as
    it is. *)
Lemma replace_nothing fl r t d :
  no_match_in fl r d [] = true ->
  replace fl r t (denote a b d) = denote a b d.
Proof.
  intros H. apply replace_none. intros p1 p2 E.
  rewrite <- (app_nil_r (rev p1)). now apply (no_match_anywhere fl r d []).
Qed.

(** A pass that matches [M] once, with nothing before and nothing
    after. *)
Lemma replace_one fl r t pre M post cps :
  global fl = true -> M <> [] ->
  no_match_in fl r pre (chars M ++ post) = true ->
  m fl r (MState (rev (denote a b pre)) (M ++ denote a b post) [])
    (fun y => Some y) =
    Some (MState (rev M ++ rev (denote a b pre)) (denote a b post) cps) ->
  no_match_in fl r post [] = true ->
  replace fl r t (denote a b (pre ++ chars M ++ post)) =
  denote a b pre ++ expand t cps ++ denote a b post.
Proof.
  intros G N H1 H2 H3. rewrite !denote_app, denote_chars.
  apply replace_once; auto.
  - intros p1 p2 E K. rewrite <- (app_nil_r (rev p1)).
    rewrite <- (denote_chars a b M), <- denote_app.
    eapply no_match_in_sound; eauto.
  - intros p1 p2 E. now apply (no_match_anywhere fl r post).
Qed.
End AbstractPasses.

(** ** More equations of the matcher *)

Lemma starts_refl fl p s : starts fl p (p ++ s) = true.
Proof.
  induction p as [|c p IH]; simpl; [reflexivity|].
  now rewrite N.eqb_refl.
Qed.

Lemma m_lit_then_group fl n p1 p2 bef s :
  m fl (Seq (lit_chars p1) (Group n (lit_chars p2)))
    (MState bef (p1 ++ p2 ++ s) []) (fun y => Some y) =
  Some (MState (rev (p1 ++ p2) ++ bef) s [(n, p2)]).
Proof.
  cbn [m]. rewrite m_lit_chars. cbn [rest before caps].
  rewrite starts_refl, firstn_app_exact, skipn_app_exact by reflexivity.
  rewrite m_lit_chars. cbn [rest before caps].
  rewrite starts_refl, firstn_app_exact, skipn_app_exact by reflexivity.
  rewrite consumed_app, rev_app_distr, <- app_assoc. reflexivity.
Qed.

Lemma m_group_then_lit fl n p1 p2 bef s :
  m fl (Seq (Group n (lit_chars p1)) (lit_chars p2))
    (MState bef (p1 ++ p2 ++ s) []) (fun y => Some y) =
  Some (MState (rev (p1 ++ p2) ++ bef) s [(n, p1)]).
Proof.
  cbn [m]. rewrite m_lit_chars. cbn [rest before caps].
  rewrite starts_refl, firstn_app_exact, skipn_app_exact by reflexivity.
  rewrite consumed_app.
  rewrite m_lit_chars. cbn [rest before caps].
  rewrite starts_refl, firstn_app_exact, skipn_app_exact by reflexivity.
  rewrite rev_app_distr, <- app_assoc. reflexivity.
Qed.

(** The lazy star stops at the first place where the continuation
    succeeds. *)
Lemma lazy_chars_first p k u :
  forall bef v cps z,
  Forall (fun c => p c = true) u ->
  (forall u1 u2, u = u1 ++ u2 -> u2 <> [] ->
     k (MState (rev u1 ++ bef) (u2 ++ v) cps) = None) ->
  k (MState (rev u ++ bef) v cps) = Some z ->
  lazy_chars p k bef (u ++ v) cps = Some z.
Proof.
  induction u as [|c u IH]; intros bef v cps z Hp Hfail Hk.
  - simpl in *. destruct v; simpl; rewrite Hk; reflexivity.
  - inversion Hp as [|? ? Pc Pu]; subst.
    pose proof (Hfail [] (c :: u) eq_refl) as H0. simpl in H0.
    cbn [app lazy_chars]. rewrite H0 by discriminate.
    rewrite Pc. apply IH; auto.
    + intros u1 u2 E N. specialize (Hfail (c :: u1) u2).
      simpl in Hfail. rewrite <- app_assoc in Hfail.
      apply Hfail; [congruence | exact N].
    + simpl in Hk. rewrite <- app_assoc in Hk. exact Hk.
Qed.


(** ** [trim] and [escapeHtml] on plain words *)



Lemma plain_word_last w :
  plain_word w -> exists c t, rev w = c :: t /\ plain c = true.
Proof.
  intros [N F]. destruct (rev w) as [|c t] eqn:R.
  - apply (f_equal (@rev char16)) in R. rewrite rev_involutive in R. contradiction.
  - exists c, t. split; [reflexivity|].
    rewrite Forall_forall in F. apply F, in_rev. rewrite R. now left.
Qed.



Lemma escapeHtml_app s t : escapeHtml (s ++ t) = escapeHtml s ++ escapeHtml t.
Proof. unfold escapeHtml. apply flat_map_app. Qed.



Lemma m_seq fl r1 r2 x k :
  m fl (Seq r1 r2) x k = m fl r1 x (fun y => m fl r2 y k).
Proof. reflexivity. Qed.

Lemma m_lit_app fl p bef s cps k :
  m fl (lit_chars p) (MState bef (p ++ s) cps) k = k (MState (rev p ++ bef) s cps).
Proof.
  rewrite m_lit_chars. cbn [rest before caps].
  rewrite starts_refl, firstn_app_exact, skipn_app_exact by reflexivity.
  reflexivity.
Qed.


(** ** A fenced block with a blank line, pass by pass *)

Section Family.
Variables a b : jsstring.
Hypothesis Ha : plain_word a.
Hypothesis Hb : plain_word b.

Ltac nothing :=
  rewrite (replace_nothing Ha Hb) by (vm_compute; reflexivity).






Lemma plain_word_no_lf w : plain_word w -> ~ In LF w.
Proof.
  intros [_ F] K. rewrite Forall_forall in F. apply F in K. discriminate.
Qed.

Lemma plain_word_ends w : plain_word w -> ends_with_lf w = false.
Proof.
  intros H. unfold ends_with_lf.
  destruct (plain_word_last H) as [c [t [-> P]]].
  destruct (N.eqb_spec c LF) as [->|_]; [discriminate | reflexivity].
Qed.


Ltac as_doc T :=
  match goal with
  | |- context [replace _ _ _ ?s] => change s with (denote a b T)
  end.


End Family.

(** ** No blank line is left after the paragraph pass *)






(** * Further properties *)

(** ** The guide catalog: look-up, update, and how they compose *)

Lemma markAsViewed_map i guides : markAsViewed i guides = map (mark i) guides.
Proof. reflexivity. Qed.

Lemma str_eqb_refl s : str_eqb s s = true.
Proof. now apply str_eqb_eq. Qed.

Lemma str_eqb_neq a b : a <> b -> str_eqb a b = false.
Proof.
  intros N. destruct (str_eqb a b) eqn:E; [|reflexivity].
  apply str_eqb_eq in E. contradiction.
Qed.

Lemma getGuideById_id i guides g :
  getGuideById i guides = Some g -> id g = i.
Proof.
  unfold getGuideById. intros H. apply find_some in H as [_ H].
  now apply str_eqb_eq.
Qed.

Lemma markAsViewed_unknown i guides :
  getGuideById i guides = None -> markAsViewed i guides = guides.
Proof.
  unfold getGuideById. intros H. rewrite markAsViewed_map.
  rewrite <- (map_id guides) at 2. apply map_ext_in. intros g Hg.
  apply (find_none _ _ H) in Hg. unfold mark. now rewrite Hg.
Qed.

(** X1.  [getGuideById] returns the first record of the catalog that has
    the id, and [undefined] exactly when no record has it. *)
Theorem getGuideById_first (i : jsstring) (guides : catalog) :
  (getGuideById i guides = None <-> forall g, In g guides -> id g <> i) /\
  (forall g, getGuideById i guides = Some g ->
     id g = i /\
     exists l1 l2, guides = l1 ++ g :: l2 /\ forall h, In h l1 -> id h <> i).
Proof.
  unfold getGuideById. split.
  - split.
    + intros H g Hg E. apply (find_none _ _ H) in Hg.
      rewrite E, str_eqb_refl in Hg. discriminate.
    + intros H. induction guides as [|a l IH]; [reflexivity|]. simpl.
      rewrite str_eqb_neq by (apply H; now left).
      apply IH. intros g Hg. apply H. now right.
  - induction guides as [|a l IH]; intros g H; [discriminate|].
    simpl in H. destruct (str_eqb (id a) i) eqn:E.
    + injection H as <-. apply str_eqb_eq in E. split; [exact E|].
      exists [], l. split; [reflexivity|]. intros h [].
    + destruct (IH g H) as [Hi [l1 [l2 [-> Hl]]]]. split; [exact Hi|].
      exists (a :: l1), l2. split; [reflexivity|].
      intros h [<-|Hh]; [|now apply Hl].
      intros K. rewrite K, str_eqb_refl in E. discriminate.
Qed.

Lemma getGuideById_first_witness :
  id (sample_guide "b" BACKEND 2) = js "b" /\
  exists l1 l2,
    [sample_guide "a" BACKEND 1; sample_guide "b" BACKEND 2] =
      l1 ++ sample_guide "b" BACKEND 2 :: l2 /\
    forall h, In h l1 -> id h <> js "b".
Proof.
  apply (proj2 (getGuideById_first (js "b")
                  [sample_guide "a" BACKEND 1; sample_guide "b" BACKEND 2])).
  reflexivity.
Defined.

(** X2.  [markAsViewed] with an id that no record has leaves the catalog
    exactly as it is. *)
Theorem markAsViewed_unknown_id (i : jsstring) (guides : catalog) :
  getGuideById i guides = None -> markAsViewed i guides = guides.
Proof. apply markAsViewed_unknown. Qed.

Lemma markAsViewed_unknown_id_witness :
  let gs := [sample_guide "backend-entites" BACKEND 1;
             sample_guide "frontend-components" FRONTEND 2] in
  markAsViewed (js "no-such-guide") gs = gs.
Proof.
  cbv zeta. apply markAsViewed_unknown_id. reflexivity.
Defined.

Lemma mark_id i g : id (mark i g) = id g.
Proof. unfold mark. destruct (str_eqb (id g) i); reflexivity. Qed.

Lemma mark_comm i j g : mark i (mark j g) = mark j (mark i g).
Proof.
  unfold mark.
  destruct (str_eqb (id g) i) eqn:Ei, (str_eqb (id g) j) eqn:Ej;
    cbn [viewed id]; rewrite ?Ei, ?Ej; reflexivity.
Qed.

(** X3.  Two calls of [markAsViewed] can be made in either order: the
    catalog afterwards is the same. *)
Theorem markAsViewed_commute (i j : jsstring) (guides : catalog) :
  markAsViewed i (markAsViewed j guides) = markAsViewed j (markAsViewed i guides).
Proof.
  rewrite !markAsViewed_map, !map_map. apply map_ext. intros g. apply mark_comm.
Qed.

Lemma find_map_mark i j guides :
  getGuideById j (markAsViewed i guides) = option_map (mark i) (getGuideById j guides).
Proof.
  unfold getGuideById. rewrite markAsViewed_map.
  induction guides as [|a l IH]; [reflexivity|].
  simpl. rewrite mark_id. destruct (str_eqb (id a) j); [reflexivity | exact IH].
Qed.

Lemma getGuideById_marked i guides :
  getGuideById i (markAsViewed i guides) = option_map viewed (getGuideById i guides).
Proof.
  rewrite find_map_mark.
  destruct (getGuideById i guides) as [g|] eqn:E; [|reflexivity].
  apply getGuideById_id in E. simpl. unfold mark.
  now rewrite E, str_eqb_refl.
Qed.

(** X4.  After [markAsViewed(i)], looking up any other id gives the very
    record it gave before, and looking up [i] gives the record it gave
    before with [isViewed] set. *)
Theorem getGuideById_after_markAsViewed (i j : jsstring) (guides : catalog) :
  (j <> i -> getGuideById j (markAsViewed i guides) = getGuideById j guides) /\
  getGuideById i (markAsViewed i guides) = option_map viewed (getGuideById i guides).
Proof.
  split.
  - intros N. rewrite find_map_mark.
    destruct (getGuideById j guides) as [g|] eqn:E; [|reflexivity].
    apply getGuideById_id in E.
    simpl. unfold mark. rewrite E, str_eqb_neq by exact N. reflexivity.
  - apply getGuideById_marked.
Qed.

Lemma getGuideById_after_markAsViewed_witness :
  let gs := [sample_guide "backend-entites" BACKEND 1;
             sample_guide "frontend-components" FRONTEND 2] in
  getGuideById (js "frontend-components") (markAsViewed (js "backend-entites") gs)
  = getGuideById (js "frontend-components") gs.
Proof.
  cbv zeta.
  apply (proj1 (getGuideById_after_markAsViewed (js "backend-entites")
                  (js "frontend-components") _)).
  discriminate.
Defined.

(** ** Sorting and filtering the catalog *)

Lemma insert_map (f : Guide -> Guide) x l :
  (forall a b, compare_order (f a) (f b) = compare_order a b) ->
  insert compare_order (f x) (map f l) = map f (insert compare_order x l).
Proof.
  intros H. induction l as [|y l IH]; [reflexivity|]. simpl.
  rewrite H. destruct (compare_order x y <=? 0)%Z; [reflexivity|].
  simpl. now rewrite IH.
Qed.

Lemma sort_map (f : Guide -> Guide) l :
  (forall a b, compare_order (f a) (f b) = compare_order a b) ->
  sort compare_order (map f l) = map f (sort compare_order l).
Proof.
  intros H. induction l as [|x l IH]; [reflexivity|]. simpl.
  rewrite IH. now apply insert_map.
Qed.

Lemma filter_map_same (p : Guide -> bool) (f : Guide -> Guide) l :
  (forall a, p (f a) = p a) -> filter p (map f l) = map f (filter p l).
Proof.
  intros H. induction l as [|x l IH]; [reflexivity|]. simpl.
  rewrite H. destruct (p x); simpl; now rewrite IH.
Qed.

Lemma mark_fields i g :
  category (mark i g) = category g /\ order (mark i g) = order g /\
  title (mark i g) = title g /\ content (mark i g) = content g /\
  tags (mark i g) = tags g.
Proof. unfold mark. destruct (str_eqb (id g) i); repeat split. Qed.

(** X5.  Marking a guide as viewed and listing a category can be done in
    either order: the listing of the marked catalog is the marked
    listing. *)
Theorem getGuidesByCategory_markAsViewed (c : GuideCategory) (i : jsstring)
    (guides : catalog) :
  getGuidesByCategory c (markAsViewed i guides) =
  markAsViewed i (getGuidesByCategory c guides).
Proof.
  unfold getGuidesByCategory.
  change (fun a b : Guide => (order a - order b)%Z) with compare_order.
  rewrite !markAsViewed_map, filter_map_same, sort_map; [reflexivity| |].
  - intros a b. unfold compare_order.
    now rewrite (proj1 (proj2 (mark_fields i a))), (proj1 (proj2 (mark_fields i b))).
  - intros a. now rewrite (proj1 (mark_fields i a)).
Qed.

(** X6.  The same for a search: whatever the query, the search of the
    marked catalog is the marked search. *)
Theorem searchGuides_markAsViewed toLowerCase (query i : jsstring)
    (guides : catalog) :
  searchGuides toLowerCase query (markAsViewed i guides) =
  markAsViewed i (searchGuides toLowerCase query guides).
Proof.
  unfold searchGuides. rewrite !markAsViewed_map.
  apply filter_map_same. intros a.
  destruct (mark_fields i a) as [_ [_ [-> [-> ->]]]]. reflexivity.
Qed.

Lemma insert_head x l :
  Forall (by_order x) l -> insert compare_order x l = x :: l.
Proof.
  intros F. destruct l as [|y l]; [reflexivity|]. simpl.
  inversion F as [|? ? H _]; subst. unfold compare_order, by_order in *.
  destruct (order x - order y <=? 0)%Z eqn:E; [reflexivity|].
  apply Z.leb_gt in E. lia.
Qed.

Lemma sort_of_sorted l :
  StronglySorted by_order l -> sort compare_order l = l.
Proof.
  induction 1 as [|x l S IH F]; [reflexivity|]. simpl.
  rewrite IH. now apply insert_head.
Qed.

Lemma filter_insert (p : Guide -> bool) x l :
  StronglySorted by_order l ->
  filter p (insert compare_order x l) =
  if p x then insert compare_order x (filter p l) else filter p l.
Proof.
  induction 1 as [|y l S IH F]; simpl.
  - destruct (p x); reflexivity.
  - unfold compare_order at 1. destruct (order x - order y <=? 0)%Z eqn:E.
    + apply Z.leb_le in E. simpl. destruct (p x) eqn:Px; [|reflexivity].
      rewrite insert_head; [reflexivity|].
      assert (G : Forall (by_order x) (y :: l)).
      { constructor; [unfold by_order; lia|].
        eapply Forall_impl; [|exact F]. unfold by_order. intros; lia. }
      rewrite Forall_forall in G. apply Forall_forall. intros z Hz.
      apply G. change (In z (filter p (y :: l))) in Hz.
      now apply filter_In in Hz.
    + simpl. rewrite IH. destruct (p y) eqn:Py; [|reflexivity].
      destruct (p x); [|reflexivity]. simpl. unfold compare_order at 2.
      rewrite E. reflexivity.
Qed.

Lemma filter_sort (p : Guide -> bool) l :
  filter p (sort compare_order l) = sort compare_order (filter p l).
Proof.
  induction l as [|x l IH]; [reflexivity|]. simpl.
  rewrite filter_insert by apply sort_sorted. rewrite IH.
  destruct (p x); reflexivity.
Qed.

Lemma filter_comm (A : Type) (p q : A -> bool) l :
  filter p (filter q l) = filter q (filter p l).
Proof.
  induction l as [|x l IH]; [reflexivity|]. simpl.
  destruct (p x) eqn:P, (q x) eqn:Q; simpl; rewrite ?P, ?Q, IH; reflexivity.
Qed.

(** X7.  The listing of a category is stable: among its records, those
    that share a value of [order] come in the order the catalog has them
    in. *)
Theorem getGuidesByCategory_stable (c : GuideCategory) (guides : catalog) (k : Z) :
  filter (fun g => (order g =? k)%Z) (getGuidesByCategory c guides) =
  filter (fun g => (order g =? k)%Z)
         (filter (fun g => category_eqb (category g) c) guides).
Proof.
  unfold getGuidesByCategory.
  change (fun a b : Guide => (order a - order b)%Z) with compare_order.
  rewrite filter_sort. apply sort_of_sorted.
  induction (filter (fun g => category_eqb (category g) c) guides) as [|x l IH];
    simpl; [constructor|].
  destruct (Z.eqb_spec (order x) k) as [E|_]; [|exact IH].
  constructor; [exact IH|]. apply Forall_forall. intros y Hy.
  apply filter_In in Hy as [_ Hy]. apply Z.eqb_eq in Hy.
  unfold by_order. lia.
Qed.

Lemma filter_filter_same (A : Type) (p : A -> bool) l :
  filter p (filter p l) = filter p l.
Proof.
  induction l as [|x l IH]; [reflexivity|]. simpl.
  destruct (p x) eqn:P; simpl; rewrite ?P, IH; reflexivity.
Qed.

(** X8.  Listing a category from a listing of that category changes
    nothing, and listing any other category from it gives the empty
    list. *)
Theorem getGuidesByCategory_again (c c' : GuideCategory) (guides : catalog) :
  getGuidesByCategory c (getGuidesByCategory c guides) = getGuidesByCategory c guides /\
  (c' <> c -> getGuidesByCategory c' (getGuidesByCategory c guides) = []).
Proof.
  unfold getGuidesByCategory.
  change (fun a b : Guide => (order a - order b)%Z) with compare_order.
  split.
  - rewrite filter_sort, filter_filter_same.
    apply sort_of_sorted, sort_sorted.
  - intros N. rewrite filter_sort.
    replace (filter (fun g => category_eqb (category g) c')
                    (filter (fun g => category_eqb (category g) c) guides))
      with (@nil Guide); [reflexivity|].
    symmetry. induction guides as [|x l IH]; [reflexivity|]. simpl.
    destruct (category_eqb (category x) c) eqn:E; [|exact IH]. simpl.
    destruct (category_eqb (category x) c') eqn:E'; [|exact IH].
    apply category_eqb_eq in E, E'. congruence.
Qed.

Lemma getGuidesByCategory_again_witness :
  getGuidesByCategory FRONTEND
    (getGuidesByCategory BACKEND
       [sample_guide "backend-entites" BACKEND 2;
        sample_guide "frontend-components" FRONTEND 1;
        sample_guide "backend-repositories" BACKEND 1]) = [].
Proof.
  apply (proj2 (getGuidesByCategory_again BACKEND FRONTEND _)). discriminate.
Defined.

(** X9.  Searching and listing a category can be done in either order. *)
Theorem getGuidesByCategory_searchGuides toLowerCase (c : GuideCategory)
    (query : jsstring) (guides : catalog) :
  getGuidesByCategory c (searchGuides toLowerCase query guides) =
  searchGuides toLowerCase query (getGuidesByCategory c guides).
Proof.
  unfold getGuidesByCategory, searchGuides.
  change (fun a b : Guide => (order a - order b)%Z) with compare_order.
  rewrite filter_sort. f_equal. apply filter_comm.
Qed.

(** X10.  A query whose lower-case form is empty finds every guide, in
    the order of the catalog; and searching a search result again with
    the same query changes nothing. *)
Theorem searchGuides_empty_query toLowerCase (query : jsstring) (guides : catalog) :
  (toLowerCase query = [] -> searchGuides toLowerCase query guides = guides) /\
  searchGuides toLowerCase query (searchGuides toLowerCase query guides) =
  searchGuides toLowerCase query guides.
Proof.
  split.
  - intros E. unfold searchGuides. rewrite E.
    induction guides as [|g l IH]; [reflexivity|]. simpl.
    destruct (toLowerCase (title g)); simpl; now rewrite IH.
  - unfold searchGuides. apply filter_filter_same.
Qed.

Lemma searchGuides_empty_query_witness :
  let gs := [sample_guide "backend-entites" BACKEND 1;
             sample_guide "frontend-components" FRONTEND 2] in
  searchGuides (fun s => s) [] gs = gs.
Proof.
  cbv zeta. apply (proj1 (searchGuides_empty_query (fun s => s) [] _)).
  reflexivity.
Defined.

Lemma run_app toLowerCase ops1 ops2 guides :
  run toLowerCase (ops1 ++ ops2) guides =
  run toLowerCase ops2 (run toLowerCase ops1 guides).
Proof. unfold run. apply fold_left_app. Qed.

Lemma viewed_twice g : viewed (viewed g) = viewed g.
Proof. reflexivity. Qed.

(** X11.  All that a sequence of calls does to the catalog is to set
    [isViewed] on the records whose id was passed to [markAsViewed]:
    every record keeps its place, and it is changed, into its viewed
    form, exactly when one of the calls marked its id. *)
Theorem run_marks_visited toLowerCase (ops : list operation) (guides : catalog) :
  run toLowerCase ops guides =
  map (fun g => if existsb (marks (id g)) ops then viewed g else g) guides.
Proof.
  revert guides. induction ops as [|o ops IH]; intros guides.
  - simpl. symmetry. apply map_id.
  - change (run toLowerCase (o :: ops) guides)
      with (run toLowerCase ops (snd (perform toLowerCase o guides))).
    rewrite IH. destruct o; cbn [perform snd existsb marks orb];
      try reflexivity.
    rewrite markAsViewed_map, map_map. apply map_ext. intros g.
    rewrite mark_id. unfold mark.
    destruct (str_eqb (id g) i) eqn:E; cbn [orb].
    + destruct (existsb (marks (id g)) ops); reflexivity.
    + reflexivity.
Qed.

(** ** Loading a guide in the viewer *)

Lemma renderMarkdown_returns markdown :
  exists html, renderMarkdown markdown = Ok html.
Proof.
  unfold renderMarkdown, replace_with, pieces.
  destruct (render_code_blocks_ok (match_all_found gim fence
              (S (length (inline_passes markdown))) [] (inline_passes markdown)))
    as [html ->].
  simpl. eauto.
Qed.

(** X12.  [loadGuide(id)] never throws.  Afterwards the catalog is the
    one [markAsViewed(id)] gives; the component holds the record as the
    catalog had it before the call, so the catalog now holds the viewed
    form of the component's record.  For a known id the content is
    rendered and a scan of the code blocks is scheduled; for an unknown
    id the rendered content is kept and the router is sent to the
    dashboard. *)
Theorem loadGuide_outcome (i : jsstring) (st : GuideViewerComponent.state) :
  exists st',
    GuideViewerComponent.loadGuide i st = Ok st' /\
    GuideViewerComponent.guides st' = markAsViewed i (GuideViewerComponent.guides st) /\
    GuideViewerComponent.guide st' = getGuideById i (GuideViewerComponent.guides st) /\
    getGuideById i (GuideViewerComponent.guides st') =
      option_map viewed (GuideViewerComponent.guide st') /\
    match GuideViewerComponent.guide st' with
    | Some g =>
        renderMarkdown (content g) = Ok (GuideViewerComponent.renderedContent st') /\
        GuideViewerComponent.effects st' =
          GuideViewerComponent.effects st ++ [GuideViewerComponent.SetTimeout 100]
    | None =>
        GuideViewerComponent.renderedContent st' =
          GuideViewerComponent.renderedContent st /\
        GuideViewerComponent.effects st' =
          GuideViewerComponent.effects st
          ++ [GuideViewerComponent.Navigate [js "/dashboard"]]
    end.
Proof.
  unfold GuideViewerComponent.loadGuide.
  destruct (getGuideById i (GuideViewerComponent.guides st)) as [g|] eqn:E.
  - destruct (renderMarkdown_returns (content g)) as [html R].
    cbv zeta. rewrite R. cbn [bind]. eexists. split; [reflexivity|].
    cbn [GuideViewerComponent.guides GuideViewerComponent.guide
         GuideViewerComponent.renderedContent GuideViewerComponent.effects].
    split; [reflexivity|]. split; [reflexivity|].
    split; [|split; [exact R | reflexivity]].
    rewrite getGuideById_marked, E. reflexivity.
  - eexists. split; [reflexivity|].
    cbn [GuideViewerComponent.guides GuideViewerComponent.guide
         GuideViewerComponent.renderedContent GuideViewerComponent.effects].
    split; [symmetry; now apply markAsViewed_unknown|].
    split; [reflexivity|]. split; [rewrite E; reflexivity|].
    split; reflexivity.
Qed.

Lemma loadGuide_ok i st :
  exists html,
    GuideViewerComponent.loadGuide i st =
    Ok (match getGuideById i (GuideViewerComponent.guides st) with
        | Some g =>
            GuideViewerComponent.mkState
              (markAsViewed i (GuideViewerComponent.guides st)) (Some g) html
              (GuideViewerComponent.effects st ++ [GuideViewerComponent.SetTimeout 100])
        | None =>
            GuideViewerComponent.mkState
              (GuideViewerComponent.guides st) None
              (GuideViewerComponent.renderedContent st)
              (GuideViewerComponent.effects st
               ++ [GuideViewerComponent.Navigate [js "/dashboard"]])
        end) /\
    forall g, getGuideById i (GuideViewerComponent.guides st) = Some g ->
              renderMarkdown (content g) = Ok html.
Proof.
  unfold GuideViewerComponent.loadGuide.
  destruct (getGuideById i (GuideViewerComponent.guides st)) as [g|] eqn:E.
  - destruct (renderMarkdown_returns (content g)) as [html R].
    exists html. cbv zeta. rewrite R. split; [reflexivity|].
    intros g' H. injection H as <-. exact R.
  - exists []. split; [reflexivity | discriminate].
Qed.

(** X13.  Loading the same guide a second time changes neither the
    catalog nor the rendered content; the component then holds the viewed
    form of the record it held after the first load. *)
Theorem loadGuide_twice (i : jsstring) (st st1 st2 : GuideViewerComponent.state) :
  GuideViewerComponent.loadGuide i st = Ok st1 ->
  GuideViewerComponent.loadGuide i st1 = Ok st2 ->
  GuideViewerComponent.guides st2 = GuideViewerComponent.guides st1 /\
  GuideViewerComponent.renderedContent st2 = GuideViewerComponent.renderedContent st1 /\
  GuideViewerComponent.guide st2 = option_map viewed (GuideViewerComponent.guide st1).
Proof.
  intros H1 H2.
  destruct (loadGuide_ok i st) as [h1 [E1 R1]]. rewrite E1 in H1.
  injection H1 as <-.
  destruct (loadGuide_ok i
    (match getGuideById i (GuideViewerComponent.guides st) with
     | Some g =>
         GuideViewerComponent.mkState
           (markAsViewed i (GuideViewerComponent.guides st)) (Some g) h1
           (GuideViewerComponent.effects st ++ [GuideViewerComponent.SetTimeout 100])
     | None =>
         GuideViewerComponent.mkState
           (GuideViewerComponent.guides st) None
           (GuideViewerComponent.renderedContent st)
           (GuideViewerComponent.effects st
            ++ [GuideViewerComponent.Navigate [js "/dashboard"]])
     end)) as [h2 [E2 R2]].
  rewrite E2 in H2. injection H2 as <-. clear E1 E2.
  destruct (getGuideById i (GuideViewerComponent.guides st)) as [g|] eqn:E;
    cbn [GuideViewerComponent.guides GuideViewerComponent.guide
         GuideViewerComponent.renderedContent GuideViewerComponent.effects] in *.
  - rewrite getGuideById_marked, E in *. cbn [option_map] in *.
    cbn [GuideViewerComponent.guides GuideViewerComponent.guide
         GuideViewerComponent.renderedContent].
    split; [apply markAsViewed_idempotent|]. split; [|reflexivity].
    specialize (R1 g eq_refl). specialize (R2 (viewed g) eq_refl).
    change (content (viewed g)) with (content g) in R2. congruence.
  - rewrite E.
    cbn [GuideViewerComponent.guides GuideViewerComponent.guide
         GuideViewerComponent.renderedContent].
    repeat split.
Qed.

Lemma loadGuide_twice_witness :
  let a := sample_guide "backend-entites" BACKEND 1 in
  let st := GuideViewerComponent.mkState [a] None [] [] in
  let st1 := GuideViewerComponent.mkState [viewed a] (Some a)
               (js "<h1>Title</h1>") [GuideViewerComponent.SetTimeout 100] in
  let st2 := GuideViewerComponent.mkState [viewed a] (Some (viewed a))
               (js "<h1>Title</h1>")
               [GuideViewerComponent.SetTimeout 100;
                GuideViewerComponent.SetTimeout 100] in
  GuideViewerComponent.guides st2 = GuideViewerComponent.guides st1 /\
  GuideViewerComponent.renderedContent st2 = GuideViewerComponent.renderedContent st1 /\
  GuideViewerComponent.guide st2 = option_map viewed (GuideViewerComponent.guide st1).
Proof.
  cbv zeta.
  apply (loadGuide_twice (js "backend-entites")
           (GuideViewerComponent.mkState
              [sample_guide "backend-entites" BACKEND 1] None [] []));
    vm_compute; reflexivity.
Defined.

(** X14.  Whatever route parameters the viewer is sent, it never throws,
    and all it does to the catalog is to set [isViewed] on the records
    whose id was among the non-empty parameters. *)
Theorem onParamsAll_marks_visited (ids : list (option jsstring))
    (st : GuideViewerComponent.state) :
  exists st',
    GuideViewerComponent.onParamsAll ids st = Ok st' /\
    GuideViewerComponent.guides st' =
      map (fun g => if visited ids (id g) then viewed g else g)
          (GuideViewerComponent.guides st).
Proof.
  revert st. induction ids as [|p ids IH]; intros st.
  - exists st. split; [reflexivity|]. simpl. symmetry. apply map_id.
  - assert (S : exists st1,
              GuideViewerComponent.onParams p st = Ok st1 /\
              GuideViewerComponent.guides st1 =
                map (fun g => if visited [p] (id g) then viewed g else g)
                    (GuideViewerComponent.guides st)).
    { destruct p as [[|c r]|]; cbn [GuideViewerComponent.onParams visited existsb orb].
      - exists st. split; [reflexivity|]. symmetry. apply map_id.
      - destruct (loadGuide_ok (c :: r) st) as [h [E _]]. rewrite E.
        eexists. split; [reflexivity|].
        destruct (getGuideById (c :: r) (GuideViewerComponent.guides st))
          as [g0|] eqn:F; cbn [GuideViewerComponent.guides].
        + rewrite markAsViewed_map. apply map_ext. intros g. unfold mark.
          now rewrite orb_false_r.
        + rewrite <- (markAsViewed_unknown _ _ F) at 1.
          rewrite markAsViewed_map. apply map_ext. intros g. unfold mark.
          now rewrite orb_false_r.
      - exists st. split; [reflexivity|]. symmetry. apply map_id. }
    destruct S as [st1 [E1 G1]]. destruct (IH st1) as [st' [E' G']].
    exists st'. cbn [GuideViewerComponent.onParamsAll]. rewrite E1. cbn [bind].
    split; [exact E'|]. rewrite G', G1, map_map. apply map_ext. intros g.
    assert (V : visited (p :: ids) (id g) = visited [p] (id g) || visited ids (id g)).
    { unfold visited. simpl. now rewrite orb_false_r. }
    rewrite V. destruct (visited [p] (id g)); cbn [orb]; [|reflexivity].
    change (id (viewed g)) with (id g).
    destruct (visited ids (id g)); reflexivity.
Qed.

(** ** The dashboard *)

(** X15.  Before any category is selected the dashboard lists the guides
    it is given as they are; once a category is selected, and after
    [ngOnInit], which selects the back-end category, its listing is the
    listing of the service for that category, whatever the window width
    and the state before. *)
Theorem dashboard_listing (guides : catalog) :
  DashboardComponent.getGuidesByCategory DashboardComponent.initial guides = guides /\
  (forall w c st,
     DashboardComponent.getGuidesByCategory
       (DashboardComponent.selectCategory w c st) guides =
     getGuidesByCategory c guides) /\
  (forall w st,
     DashboardComponent.getGuidesByCategory
       (DashboardComponent.ngOnInit w st) guides =
     getGuidesByCategory BACKEND guides) /\
  (forall st,
     DashboardComponent.getGuidesByCategory
       (DashboardComponent.toggleSidebar st) guides =
     DashboardComponent.getGuidesByCategory st guides).
Proof.
  split; [reflexivity|]. split; [|split].
  - intros w c st. unfold DashboardComponent.selectCategory.
    destruct (w <=? 768)%Z; reflexivity.
  - intros w st. unfold DashboardComponent.ngOnInit. cbn [DashboardComponent.categories length Nat.ltb Nat.leb].
    destruct (w <=? 768)%Z; reflexivity.
  - reflexivity.
Qed.

(** X16.  No two categories share an icon, and no two share a colour. *)
Theorem category_icons_and_colors_differ (c1 c2 : GuideCategory) :
  c1 <> c2 ->
  DashboardComponent.getCategoryIcon c1 <> DashboardComponent.getCategoryIcon c2 /\
  DashboardComponent.getCategoryColor c1 <> DashboardComponent.getCategoryColor c2.
Proof.
  intros N. split; intros H; apply N; destruct c1, c2; try reflexivity;
    vm_compute in H; discriminate.
Qed.

Lemma category_icons_and_colors_differ_witness :
  DashboardComponent.getCategoryIcon BACKEND <> DashboardComponent.getCategoryIcon FRONTEND /\
  DashboardComponent.getCategoryColor BACKEND <> DashboardComponent.getCategoryColor FRONTEND.
Proof.
  apply category_icons_and_colors_differ. discriminate.
Defined.

(** ** [escapeHtml] *)

Lemma escape_char_cases c :
  (escape_char c = [c] /\ ~ In c escaped_chars) \/
  (c = 38 /\ escape_char c = [38; 97; 109; 112; 59]) \/
  (c = 160 /\ escape_char c = [38; 110; 98; 115; 112; 59]) \/
  (c = 60 /\ escape_char c = [38; 108; 116; 59]) \/
  (c = 62 /\ escape_char c = [38; 103; 116; 59]).
Proof.
  unfold escape_char, escaped_chars.
  destruct (N.eqb_spec c 38) as [->|N1]; [right; left; split; reflexivity|].
  destruct (N.eqb_spec c 160) as [->|N2]; [right; right; left; split; reflexivity|].
  destruct (N.eqb_spec c 60) as [->|N3]; [right; right; right; left; split; reflexivity|].
  destruct (N.eqb_spec c 62) as [->|N4]; [right; right; right; right; split; reflexivity|].
  left. split; [reflexivity|]. simpl. intuition congruence.
Qed.

Lemma escapeHtml_cons c s : escapeHtml (c :: s) = escape_char c ++ escapeHtml s.
Proof. reflexivity. Qed.

(** X17.  [escapeHtml] is injective: two different texts never have the
    same escaped form. *)
Theorem escapeHtml_injective (s1 s2 : jsstring) :
  escapeHtml s1 = escapeHtml s2 -> s1 = s2.
Proof.
  revert s2. induction s1 as [|c1 s1 IH]; intros [|c2 s2] H.
  - reflexivity.
  - rewrite escapeHtml_cons in H.
    destruct (escape_char_cases c2) as [[E _]|[[_ E]|[[_ E]|[[_ E]|[_ E]]]]];
      rewrite E in H; discriminate.
  - rewrite escapeHtml_cons in H.
    destruct (escape_char_cases c1) as [[E _]|[[_ E]|[[_ E]|[[_ E]|[_ E]]]]];
      rewrite E in H; discriminate.
  - rewrite !escapeHtml_cons in H.
    destruct (escape_char_cases c1) as [[E1 N1]|[[C1 E1]|[[C1 E1]|[[C1 E1]|[C1 E1]]]]];
    destruct (escape_char_cases c2) as [[E2 N2]|[[C2 E2]|[[C2 E2]|[[C2 E2]|[C2 E2]]]]];
      rewrite E1, E2 in H; cbn [app] in H; subst;
      try (injection H; intros; subst; f_equal; now apply IH);
      try discriminate;
      try (injection H; intros; subst; exfalso;
           first [apply N1 | apply N2]; vm_compute; tauto).
Qed.

Lemma escapeHtml_injective_witness :
  js "a<b" = js "a<b".
Proof.
  apply escapeHtml_injective. reflexivity.
Defined.

Lemma escape_char_length c :
  (1 <= length (escape_char c))%nat /\
  (In c escaped_chars -> (1 < length (escape_char c))%nat).
Proof.
  destruct (escape_char_cases c) as [[E N]|[[C E]|[[C E]|[[C E]|[C E]]]]];
    rewrite E; simpl; split; try lia; intros K; try lia.
  exfalso. now apply N.
Qed.

Lemma escapeHtml_length s :
  (length s <= length (escapeHtml s))%nat /\
  (Exists (fun c => In c escaped_chars) s -> (length s < length (escapeHtml s))%nat).
Proof.
  induction s as [|c s [L S]]; simpl.
  - split; [lia|]. intros H. inversion H.
  - rewrite length_app. destruct (escape_char_length c) as [L1 S1].
    split; [lia|]. intros H. inversion H; subst.
    + specialize (S1 H1). lia.
    + specialize (S H1). lia.
Qed.

(** X18.  [escapeHtml] works character by character; it never shortens a
    text, and it leaves a text unchanged exactly when the text holds none
    of [&], [<], [>] and the no-break space. *)
Theorem escapeHtml_unchanged (s t : jsstring) :
  escapeHtml (s ++ t) = escapeHtml s ++ escapeHtml t /\
  (length s <= length (escapeHtml s))%nat /\
  (escapeHtml s = s <-> Forall (fun c => ~ In c escaped_chars) s).
Proof.
  split; [apply escapeHtml_app|]. split; [apply escapeHtml_length|].
  split.
  - intros E. apply Forall_Exists_neg. intros X.
    apply (proj2 (escapeHtml_length s)) in X. rewrite E in X. lia.
  - intros F. induction F as [|c s N _ IH]; [reflexivity|].
    rewrite escapeHtml_cons, IH.
    destruct (escape_char_cases c) as [[E _]|[[C _]|[[C _]|[[C _]|[C _]]]]];
      [now rewrite E| | | |]; subst; exfalso; apply N; vm_compute; tauto.
Qed.

Lemma escapeHtml_unchanged_witness :
  escapeHtml (js "a=b") = js "a=b".
Proof.
  apply (proj2 (proj2 (escapeHtml_unchanged (js "a=b") []))).
  repeat constructor; vm_compute; intuition discriminate.
Defined.

(** ** Passes that only add markup, passes that only remove it *)

Lemma Subseq_refl s : Subseq s s.
Proof. induction s; constructor; assumption. Qed.

Lemma Subseq_nil_l t : Subseq [] t.
Proof. induction t; constructor; assumption. Qed.

Lemma Subseq_app s s' t t' : Subseq s s' -> Subseq t t' -> Subseq (s ++ t) (s' ++ t').
Proof. intros H1 H2. induction H1; simpl; try constructor; assumption. Qed.

Lemma Subseq_trans s t u : Subseq s t -> Subseq t u -> Subseq s u.
Proof.
  intros H1 H2. revert s H1. induction H2 as [|t u c H IH|t u c H IH]; intros s H1.
  - exact H1.
  - constructor. now apply IH.
  - inversion H1; subst.
    + apply subseq_skip. now apply IH.
    + apply subseq_take. now apply IH.
Qed.

Lemma Subseq_app_l p t : Subseq t (p ++ t).
Proof. induction p; simpl; [apply Subseq_refl | now constructor]. Qed.

Lemma Subseq_app_r s p : Subseq s (s ++ p).
Proof.
  rewrite <- (app_nil_r s) at 1. apply Subseq_app; [apply Subseq_refl | apply Subseq_nil_l].
Qed.

Lemma Subseq_length s t : Subseq s t -> (length s <= length t)%nat.
Proof. induction 1; simpl; lia. Qed.

(** *** What a match of a shaped pattern consists of *)

Lemma fits_app fl sh1 sh2 cps w1 w2 :
  fits fl sh1 cps w1 -> fits fl sh2 cps w2 -> fits fl (sh1 ++ sh2) cps (w1 ++ w2).
Proof.
  revert w1. induction sh1 as [|[a|n] sh1 IH]; intros w1 H1 H2; simpl in *.
  - subst. exact H2.
  - destruct H1 as [c [w' [-> [E H1]]]]. exists c, (w' ++ w2). auto.
  - destruct H1 as [w' [-> H1]]. exists (w' ++ w2).
    rewrite <- app_assoc. auto.
Qed.

Lemma fits_frame fl sh cps cps' w :
  (forall n, In (SGroup n) sh -> cap n cps' = cap n cps) ->
  fits fl sh cps w -> fits fl sh cps' w.
Proof.
  revert w. induction sh as [|[a|n] sh IH]; intros w H F; simpl in *.
  - exact F.
  - destruct F as [c [w' [-> [E F]]]]. exists c, w'. repeat split; auto.
  - destruct F as [w' [-> F]]. exists w'. unfold group_text.
    rewrite (H n) by now left. split; [reflexivity|]. apply IH; auto.
Qed.

Lemma shape_groups r : forall sh n,
  shape r = Some sh -> In (SGroup n) sh -> In n (groups r).
Proof.
  induction r as [ |a| |neg items|r1 IH1 r2 IH2|r1 IH1 r2 IH2
                 |min max greedy r1 IH1|k r1 IH1| | | ];
    intros sh n S H; simpl in S; try discriminate.
  - injection S as <-. destruct H.
  - injection S as <-. destruct H as [H|[]]. discriminate.
  - destruct (shape r1) as [s1|]; [|discriminate].
    destruct (shape r2) as [s2|]; [|discriminate].
    injection S as <-. simpl. apply in_or_app.
    apply in_app_or in H as [H|H]; [left; eapply IH1 | right; eapply IH2]; eauto.
  - destruct min; [|discriminate]. destruct max as [[|[|?]]|]; try discriminate.
    destruct r1; try discriminate. injection S as <-.
    destruct H as [H|[]]. injection H as <-. simpl. now left.
  - injection S as <-. destruct H as [H|[]]. injection H as <-. simpl. now left.
  - injection S as <-. destruct H.
  - injection S as <-. destruct H.
  - injection S as <-. destruct H.
Qed.

Lemma nodupb_app l1 l2 :
  nodupb (l1 ++ l2) = true ->
  nodupb l1 = true /\ nodupb l2 = true /\
  forall n, In n l1 -> ~ In n l2.
Proof.
  induction l1 as [|a l1 IH]; simpl; intros H.
  - split; [reflexivity|]. split; [exact H|]. intros n [].
  - apply andb_true_iff in H as [Ha H]. destruct (IH H) as [N1 [N2 D]].
    apply negb_true_iff in Ha.
    assert (Na : ~ In a (l1 ++ l2)).
    { intros K. assert (existsb (Nat.eqb a) (l1 ++ l2) = true).
      { apply existsb_exists. exists a. split; [exact K | apply Nat.eqb_refl]. }
      congruence. }
    split.
    + apply andb_true_iff. split; [|exact N1]. apply negb_true_iff.
      destruct (existsb (Nat.eqb a) l1) eqn:E; [|reflexivity].
      apply existsb_exists in E as [x [Hx Ex]]. apply Nat.eqb_eq in Ex. subst.
      exfalso. apply Na. apply in_or_app. now left.
    + split; [exact N2|]. intros n [<-|Hn].
      * intros K. apply Na. apply in_or_app. now right.
      * now apply D.
Qed.

Lemma shape_sound fl r :
  forall sh, shape r = Some sh -> nodupb (groups r) = true ->
  forall x k z, unset (groups r) x -> m fl r x k = Some z ->
    exists y w, k y = Some z /\ rest x = w ++ rest y /\
                fits fl sh (caps y) w /\ frame (groups r) x y.
Proof.
  assert (Hassert : forall p x k z, assert p x k = Some z ->
            exists y w, k y = Some z /\ rest x = w ++ rest y /\
                        fits fl [] (caps y) w /\ frame [] x y).
  { intros p x k z H. unfold assert in H. destruct (p x); [|discriminate].
    exists x, []. split; [exact H|]. split; [reflexivity|].
    split; [reflexivity | apply frame_refl]. }
  assert (Hgroup : forall n r1 x k z,
            unset (n :: groups r1) x ->
            m fl (Group n r1) x k = Some z ->
            exists y w, k y = Some z /\ rest x = w ++ rest y /\
                        fits fl [SGroup n] (caps y) w /\
                        frame (n :: groups r1) x y /\
                        (w <> [] -> length (rest y) <> length (rest x))).
  { intros n r1 x k z U H. cbn [m] in H.
    apply m_calls in H as [y0 [H [E F]]].
    apply consumed_extends in E as [B R].
    eexists. exists (consumed x y0). split; [exact H|]. cbn [rest caps].
    split; [exact R|]. split.
    - simpl. exists []. unfold group_text. simpl. rewrite Nat.eqb_refl.
      rewrite app_nil_r. auto.
    - split.
      + intros i Hi. simpl. destruct (Nat.eqb n i) eqn:En.
        * apply Nat.eqb_eq in En. subst. exfalso. apply Hi. now left.
        * apply F. intros K. apply Hi. now right.
      + intros N L. rewrite R, length_app in L.
        destruct (consumed x y0); [congruence | simpl in L; lia]. }
  induction r as [ |a| |neg items|r1 IH1 r2 IH2|r1 IH1 r2 IH2
                 |min max greedy r1 IH1|n r1 IH1| | | ];
    intros sh S N x k z U H; simpl in S; try discriminate.
  - injection S as <-. exists x, []. split; [exact H|]. split; [reflexivity|].
    split; [reflexivity | apply frame_refl].
  - injection S as <-. cbn [m] in H. unfold match_char in H.
    destruct (rest x) as [|c t] eqn:R; [discriminate|].
    destruct (canonicalize fl c =? canonicalize fl a) eqn:E; [|discriminate].
    exists (step1 x c t), [c]. split; [exact H|]. split; [reflexivity|].
    split; [|intros n _; reflexivity]. simpl. exists c, []. auto.
  - destruct (shape r1) as [s1|] eqn:S1; [|discriminate].
    destruct (shape r2) as [s2|] eqn:S2; [|discriminate].
    injection S as <-. simpl in N. apply nodupb_app in N as [N1 [N2 D]].
    cbn [m] in H.
    assert (U1 : unset (groups r1) x).
    { intros n Hn. apply U. simpl. apply in_or_app. now left. }
    destruct (IH1 _ eq_refl N1 _ _ _ U1 H) as [y1 [w1 [H1 [R1 [F1 Fr1]]]]].
    assert (U2 : unset (groups r2) y1).
    { intros n Hn. rewrite Fr1.
      - apply U. simpl. apply in_or_app. now right.
      - intros K. exact (D n K Hn). }
    destruct (IH2 _ eq_refl N2 _ _ _ U2 H1) as [y2 [w2 [H2 [R2 [F2 Fr2]]]]].
    exists y2, (w1 ++ w2). split; [exact H2|].
    split; [rewrite R1, R2, app_assoc; reflexivity|]. split.
    + apply fits_app; [|exact F2].
      apply (fits_frame fl s1 (caps y1)); [|exact F1].
      intros n Hn. apply Fr2. intros K.
      exact (D n (@shape_groups r1 s1 n S1 Hn) K).
    + eapply frame_trans; eapply frame_weaken; try eassumption;
        intros n Hn; simpl; apply in_or_app; auto.
  - destruct min; [|discriminate]. destruct max as [[|[|?]]|]; try discriminate.
    destruct r1 as [ | | | | | | |n r1| | | ]; try discriminate.
    injection S as <-. cbn [m groups] in H. rewrite Nat.add_1_r in H.
    cbn [repeat_matcher is_zero Nat.eqb negb] in H.
    set (xr := MState (before x) (rest x) (clear_caps (n :: groups r1) (caps x))) in *.
    assert (Skip : k x = Some z ->
              exists y w, k y = Some z /\ rest x = w ++ rest y /\
                          fits fl [SGroup n] (caps y) w /\
                          frame (groups (Quant 0 (Some 1%nat) greedy (Group n r1))) x y).
    { intros K. exists x, []. split; [exact K|]. split; [reflexivity|].
      split; [|apply frame_refl]. simpl. exists []. unfold group_text.
      rewrite (U n) by (simpl; now left). auto. }
    assert (Take : forall z',
              m fl (Group n r1) xr
                (fun y => if true && Nat.eqb (length (rest y)) (length (rest x))
                          then None
                          else repeat_matcher (m fl (Group n r1)) (n :: groups r1)
                                 greedy (length (rest x)) (Nat.pred 0)
                                 (pred_max (Some 1%nat)) y k) = Some z' ->
              exists y w, k y = Some z' /\ rest x = w ++ rest y /\
                          fits fl [SGroup n] (caps y) w /\
                          frame (groups (Quant 0 (Some 1%nat) greedy (Group n r1))) x y).
    { intros z' T.
      assert (Ur : unset (n :: groups r1) xr).
      { intros i Hi. unfold xr. cbn [caps].
        clear - Hi. induction (caps x) as [|[j s] c IH]; [reflexivity|].
        simpl. destruct (Nat.eqb j n || existsb (Nat.eqb j) (groups r1)) eqn:E;
          simpl; [exact IH|].
        destruct (Nat.eqb j i) eqn:Ej; [|exact IH].
        apply Nat.eqb_eq in Ej. subst j. exfalso.
        apply orb_false_iff in E as [E1 E2]. destruct Hi as [->|Hi].
        - rewrite Nat.eqb_refl in E1. discriminate.
        - assert (existsb (Nat.eqb i) (groups r1) = true).
          { apply existsb_exists. exists i. split; [exact Hi | apply Nat.eqb_refl]. }
          congruence. }
      destruct (Hgroup _ _ _ _ _ Ur T) as [y [w [K [R [F [Fr L]]]]]].
      cbn [andb] in K.
      destruct (Nat.eqb (length (rest y)) (length (rest x))) eqn:El; [discriminate|].
      destruct (length (rest x)) as [|fuel] eqn:Lx.
      { exfalso. apply Nat.eqb_neq in El. unfold xr in R. cbn [rest] in R.
        rewrite R, length_app in Lx. lia. }
      cbn [repeat_matcher pred_max Nat.pred is_zero] in K.
      exists y, w. split; [exact K|]. split; [exact R|]. split; [exact F|].
      intros i Hi. rewrite Fr by exact Hi. unfold xr. cbn [caps].
      now apply cap_clear_caps. }
    destruct greedy.
    + match type of H with
      | match ?e with _ => _ end = _ => destruct e eqn:T
      end.
      * injection H as <-. now apply Take.
      * now apply Skip.
    + destruct (k x) eqn:K.
      * injection H as <-. now apply Skip.
      * now apply Take.
  - injection S as <-.
    assert (U' : unset (n :: groups r1) x) by exact U.
    destruct (Hgroup _ _ _ _ _ U' H) as [y [w [K [R [F [Fr _]]]]]].
    exists y, w. auto.
  - injection S as <-. destruct (Hassert _ _ _ _ H) as [y [w [K [R [F Fr]]]]].
    exists y, w. auto.
  - injection S as <-. destruct (Hassert _ _ _ _ H) as [y [w [K [R [F Fr]]]]].
    exists y, w. auto.
  - injection S as <-. destruct (Hassert _ _ _ _ H) as [y [w [K [R [F Fr]]]]].
    exists y, w. auto.
Qed.

Lemma symbols_text_app cps l1 l2 :
  symbols_text cps (l1 ++ l2) = symbols_text cps l1 ++ symbols_text cps l2.
Proof. apply flat_map_app. Qed.

Lemma symbols_text_lit cps s : symbols_text cps (map Sym s) = s.
Proof. induction s as [|c s IH]; simpl; [|rewrite IH]; reflexivity. Qed.

Lemma expand_symbols t cps : expand t cps = symbols_text cps (template_symbols t).
Proof.
  unfold expand, template_symbols. induction t as [|[s|n] t IH]; simpl.
  - reflexivity.
  - rewrite symbols_text_app, symbols_text_lit, IH. reflexivity.
  - rewrite IH. reflexivity.
Qed.

Lemma fits_sensitive fl sh cps : forall w,
  ignoreCase fl = false -> fits fl sh cps w ->
  w = symbols_text cps (shape_symbols sh).
Proof.
  induction sh as [|[a|n] sh IH]; intros w I F; simpl in *.
  - exact F.
  - destruct F as [c [w' [-> [E F]]]].
    rewrite !canonicalize_sensitive in E by exact I.
    apply N.eqb_eq in E. subst c. f_equal. now apply IH.
  - destruct F as [w' [-> F]]. f_equal. now apply IH.
Qed.

Lemma symbol_eqb_eq a b : symbol_eqb a b = true -> a = b.
Proof.
  destruct a, b; simpl; intros H; try discriminate.
  - apply N.eqb_eq in H. congruence.
  - apply Nat.eqb_eq in H. congruence.
Qed.

Lemma subseqb_sound cps b : forall a,
  subseqb a b = true -> Subseq (symbols_text cps a) (symbols_text cps b).
Proof.
  induction b as [|y b IH]; intros [|x a] H; simpl in H; try discriminate.
  - constructor.
  - apply Subseq_nil_l.
  - destruct (symbol_eqb x y) eqn:E.
    + apply symbol_eqb_eq in E. subst y.
      change (symbols_text cps (x :: a)) with (symbols_text cps ([x] ++ a)).
      change (symbols_text cps (x :: b)) with (symbols_text cps ([x] ++ b)).
      rewrite !symbols_text_app. apply Subseq_app; [apply Subseq_refl | now apply IH].
    + change (symbols_text cps (y :: b)) with (symbols_text cps ([y] ++ b)).
      rewrite symbols_text_app.
      eapply Subseq_trans; [apply IH; exact H | apply Subseq_app_l].
Qed.

Lemma fits_removes fl sh cps : forall ts w,
  fits fl sh cps w -> only_groups ts = true ->
  subseqb ts (shape_symbols sh) = true ->
  Subseq (symbols_text cps ts) w.
Proof.
  induction sh as [|[a|k] sh IH]; intros [|[c|n] ts] w F O S;
    simpl in *; try discriminate; try apply Subseq_nil_l.
  - destruct F as [c [w' [-> [_ F]]]]. apply subseq_skip.
    apply (IH (Grp n :: ts)); auto.
  - destruct F as [w' [-> F]]. destruct (Nat.eqb n k) eqn:E.
    + apply Nat.eqb_eq in E. subst k.
      apply Subseq_app; [apply Subseq_refl | now apply IH].
    + eapply Subseq_trans; [|apply Subseq_app_l].
      apply (IH (Grp n :: ts)); auto.
Qed.

(** The pieces make up the input. *)
Lemma match_all_source fl r fuel : forall bef rst,
  concat (map source (match_all fl r fuel bef rst)) = rst.
Proof.
  induction fuel as [|fuel IH]; intros bef rst; simpl.
  - apply app_nil_r.
  - destruct (exec_from fl r bef rst []) as [f|] eqn:E; [|apply app_nil_r].
    apply exec_from_found in E as [pre [S [R _]]]. simpl in S.
    cbn [map concat source]. rewrite S, R, <- app_assoc. f_equal.
    destruct (negb (global fl)).
    { simpl. rewrite app_nil_r. reflexivity. }
    destruct (matched f) as [|a mt].
    + destruct (rest (after f)) as [|c t]; [reflexivity|].
      cbn [map concat source]. rewrite IH. reflexivity.
    + rewrite IH. reflexivity.
Qed.

Lemma match_all_matched fl r fuel : forall bef rst,
  Forall (matched_by fl r) (match_all fl r fuel bef rst).
Proof.
  induction fuel as [|fuel IH]; intros bef rst; simpl.
  - repeat constructor.
  - destruct (exec_from fl r bef rst []) as [f|] eqn:E.
    2: repeat constructor.
    constructor.
    + apply exec_from_found in E as [pre [_ [_ [_ [G M]]]]].
      split; [exact G|]. eauto.
    + destruct (negb (global fl)); [repeat constructor|].
      destruct (matched f); [destruct (rest (after f))|].
      * constructor.
      * constructor; [exact I | apply IH].
      * apply IH.
Qed.

(** A match of a shaped pattern is made as the shape says. *)
Lemma matched_fits fl r sh f :
  shape r = Some sh -> nodupb (groups r) = true ->
  matched_by fl r (Match f) ->
  fits fl sh (groups_of f) (matched f).
Proof.
  intros S N [G [bef M]].
  assert (U : unset (groups r) (MState bef (matched f ++ rest (after f)) []))
    by (intros n _; reflexivity).
  destruct (@shape_sound fl r sh S N _ (fun y => Some y) _ U M)
    as [y [w [K [R [F _]]]]].
  injection K as ->. cbn [rest] in R. apply app_inv_tail in R. subst w.
  rewrite G. exact F.
Qed.

Lemma Subseq_pieces (f g : piece -> jsstring) ps :
  Forall (fun p => Subseq (f p) (g p)) ps ->
  Subseq (concat (map f ps)) (concat (map g ps)).
Proof.
  induction 1; simpl; [constructor | now apply Subseq_app].
Qed.

Lemma adds_only_sound fl r t s :
  adds_only fl r t = true -> Subseq s (replace fl r t s).
Proof.
  unfold adds_only. intros H.
  apply andb_true_iff in H as [H S]. apply andb_true_iff in H as [I N].
  apply negb_true_iff in I.
  destruct (shape r) as [sh|] eqn:Sh; [|discriminate].
  assert (G : forall ps, Forall (matched_by fl r) ps ->
            Subseq (concat (map source ps)) (concat (map (render_piece t) ps))).
  { intros ps F. apply Subseq_pieces. eapply Forall_impl; [|exact F].
    intros [f|u] M; simpl; [|apply Subseq_refl].
    apply Subseq_app; [apply Subseq_refl|].
    rewrite (@fits_sensitive fl sh _ _ I (@matched_fits fl r sh f Sh N M)),
      expand_symbols.
    now apply subseqb_sound. }
  specialize (G _ (match_all_matched fl r (Datatypes.S (length s)) [] s)).
  rewrite match_all_source in G. exact G.
Qed.

Lemma removes_only_sound fl r t s :
  removes_only r t = true -> Subseq (replace fl r t s) s.
Proof.
  unfold removes_only. intros H.
  apply andb_true_iff in H as [H S]. apply andb_true_iff in H as [N O].
  destruct (shape r) as [sh|] eqn:Sh; [|discriminate].
  assert (G : forall ps, Forall (matched_by fl r) ps ->
            Subseq (concat (map (render_piece t) ps)) (concat (map source ps))).
  { intros ps F. apply Subseq_pieces. eapply Forall_impl; [|exact F].
    intros [f|u] M; simpl; [|apply Subseq_refl].
    apply Subseq_app; [apply Subseq_refl|].
    rewrite expand_symbols.
    eapply fits_removes; eauto. eapply matched_fits; eauto. }
  specialize (G _ (match_all_matched fl r (Datatypes.S (length s)) [] s)).
  rewrite match_all_source in G. exact G.
Qed.

Lemma keywords_add_only h : forall l,
  forallb (fun keyword =>
             adds_only g_ (keyword_regex keyword) (span "keyword" [TGroup 1])) l
  = true ->
  Subseq h (fold_left (fun h keyword =>
                         replace g_ (keyword_regex keyword)
                                 (span "keyword" [TGroup 1]) h) l h).
Proof.
  intros l. revert h. induction l as [|keyword l IH]; intros h H; simpl in *.
  - apply Subseq_refl.
  - apply andb_true_iff in H as [H1 H2].
    eapply Subseq_trans; [|apply IH; exact H2].
    now apply adds_only_sound.
Qed.

Ltac adds :=
  eapply Subseq_trans; [|apply adds_only_sound; vm_compute; reflexivity].

Lemma highlight_java_adds h : Subseq h (highlight_java h).
Proof.
  unfold highlight_java. cbv zeta.
  do 7 adds. apply keywords_add_only. vm_compute. reflexivity.
Qed.

Lemma highlight_css_adds h : Subseq h (highlight_css h).
Proof. unfold highlight_css. cbv zeta. do 5 adds. apply Subseq_refl. Qed.

Lemma highlight_html_adds h : Subseq h (highlight_html h).
Proof. unfold highlight_html. cbv zeta. do 3 adds. apply Subseq_refl. Qed.

(** X19. Highlighting only adds markup: whatever the code and the language
    tag, the escaped code is what is left of the result of [highlightCode]
    when some of its characters are taken out, so no pass drops, changes or
    reorders a character of the code. *)
Theorem highlightCode_only_adds (code : jsstring) (lang : option jsstring) :
  Subseq (escapeHtml code) (highlightCode code lang).
Proof.
  unfold highlightCode.
  destruct (_ || _); [apply highlight_java_adds|].
  destruct (_ || _); [apply highlight_css_adds|].
  destruct (_ || _); [apply highlight_html_adds|].
  apply Subseq_refl.
Qed.

Ltac removes :=
  eapply Subseq_trans; [apply removes_only_sound; vm_compute; reflexivity|].

(** X20. The clean-up passes of [renderMarkdown] only delete characters:
    their result is the input with some characters taken out, so it is never
    longer than the input. *)
Theorem cleanup_only_removes (html : jsstring) :
  Subseq (cleanup html) html /\ (length (cleanup html) <= length html)%nat.
Proof.
  assert (H : Subseq (cleanup html) html).
  { unfold cleanup. cbv zeta. do 8 removes. apply Subseq_refl. }
  split; [exact H | now apply Subseq_length].
Qed.

(** ** What [renderMarkdown] makes of simple documents *)

Lemma replace_with_none fl r f s :
  (forall p1 p2, s = p1 ++ p2 ->
     m fl r (MState (rev p1) p2 []) (fun y => Some y) = None) ->
  replace_with fl r f s = Ok s.
Proof.
  intros H. unfold replace_with, pieces. cbn [match_all].
  rewrite exec_from_none.
  - simpl. rewrite app_nil_r. reflexivity.
  - intros p1 p2 E. rewrite app_nil_r. now apply H.
Qed.

Lemma m_group fl n r x k :
  m fl (Group n r) x k =
  m fl r x (fun y => k (MState (before y) (rest y) ((n, consumed x y) :: caps y))).
Proof. reflexivity. Qed.

(** The greedy star stops where the next character does not fit. *)
Lemma star_chars_stop p k u : forall bef v cps z,
  Forall (fun c => p c = true) u ->
  match v with [] => True | c :: _ => p c = false end ->
  k (MState (rev u ++ bef) v cps) = Some z ->
  star_chars p k bef (u ++ v) cps = Some z.
Proof.
  induction u as [|c u IH]; intros bef v cps z F S K.
  - simpl in *. destruct v as [|c t]; simpl; [exact K|]. now rewrite S.
  - inversion F as [|? ? Pc Pu]; subst. simpl. rewrite Pc.
    rewrite (IH (c :: bef) v cps z); auto.
    simpl in K. rewrite <- app_assoc in K. exact K.
Qed.

(** The rest of the line, as a group: [(.*$)]. *)
Lemma m_line_group fl n bef u v cps :
  dotAll fl = false ->
  Forall (fun c => isLineTerminator c = false) u ->
  at_eol fl (MState [] v []) = true ->
  m fl (Group n (Star Dot >> Eol)) (MState bef (u ++ v) cps) (fun y => Some y)
  = Some (MState (rev u ++ bef) v ((n, u) :: cps)).
Proof.
  intros D F E. rewrite m_group, m_seq, m_star_dot. cbn [before rest caps].
  apply star_chars_stop.
  - eapply Forall_impl; [|exact F]. intros c H. cbv beta. rewrite D, H. reflexivity.
  - destruct v as [|c t]; [exact I|]. unfold at_eol in E. cbn [rest] in E.
    apply andb_true_iff in E as [_ E]. rewrite D, E. reflexivity.
  - cbn [m]. unfold assert.
    replace (at_eol fl (MState (rev u ++ bef) v cps))
      with (at_eol fl (MState [] v [])) by reflexivity.
    rewrite E. cbn [before rest caps]. rewrite consumed_app. reflexivity.
Qed.

Lemma plain_word_line w :
  plain_word w -> Forall (fun c => isLineTerminator c = false) w.
Proof.
  intros [_ F]. eapply Forall_impl; [|exact F].
  intros c P. now apply plain_not_terminator.
Qed.

Lemma header_match hashes u v :
  Forall (fun c => isLineTerminator c = false) u ->
  at_eol gim (MState [] v []) = true ->
  m gim (Bol >> lit hashes >> lit " " >> Group 1 (Star Dot >> Eol))
    (MState [] ((js hashes ++ js " " ++ u) ++ v) []) (fun y => Some y)
  = Some (MState (rev (js hashes ++ js " " ++ u) ++ []) v [(1%nat, u)]).
Proof.
  intros F E. rewrite <- !app_assoc.
  rewrite m_seq. change (m gim Bol) with (assert (at_bol gim)).
  unfold assert. cbn [at_bol before].
  rewrite m_seq. unfold lit. rewrite m_lit_app.
  rewrite m_seq, m_lit_app, m_line_group by (reflexivity || assumption).
  rewrite !rev_app_distr, <- !app_assoc. reflexivity.
Qed.

Lemma m_class_char fl items c t bef cps k :
  existsb (fun it => item_mem it c) items = true ->
  m fl (CSet false items) (MState bef (c :: t) cps) k = k (MState (c :: bef) t cps).
Proof.
  intros H. cbn [m]. unfold match_char. cbn [rest]. unfold set_mem.
  rewrite H. reflexivity.
Qed.

(** The two clean-up patterns around a heading. *)
Lemma m_p_heading fl c bef s :
  (49 <=? c) && (c <=? 54) = true ->
  m fl (lit "<p>" >> Group 1 (lit "<h" >> h1_6 >> lit ">"))
    (MState bef ((js "<p>" ++ js "<h" ++ c :: js ">") ++ s) []) (fun y => Some y) =
  Some (MState (rev (js "<p>" ++ js "<h" ++ c :: js ">") ++ bef) s
               [(1%nat, js "<h" ++ c :: js ">")]).
Proof.
  intros H. rewrite <- !app_assoc. unfold lit.
  rewrite m_seq, m_lit_app, m_group, m_seq, m_lit_app, m_seq.
  cbn [app]. unfold h1_6. rewrite m_class_char by (simpl; now rewrite H).
  rewrite (m_lit_app fl (js ">")). cbn [before rest caps].
  f_equal. f_equal.
  f_equal. f_equal.
  exact (consumed_app (rev (js "<p>") ++ bef) _ [] (js "<h" ++ c :: js ">") s []).
Qed.

Lemma m_heading_p fl c bef s :
  (49 <=? c) && (c <=? 54) = true ->
  m fl (Group 1 (lit "</h" >> h1_6 >> lit ">") >> lit "</p>")
    (MState bef ((js "</h" ++ c :: js ">" ++ js "</p>") ++ s) []) (fun y => Some y) =
  Some (MState (rev (js "</h" ++ c :: js ">" ++ js "</p>") ++ bef) s
               [(1%nat, js "</h" ++ c :: js ">")]).
Proof.
  intros H. rewrite <- !app_assoc. unfold lit.
  rewrite m_seq, m_group, m_seq, m_lit_app, m_seq.
  cbn [app]. unfold h1_6. rewrite m_class_char by (simpl; now rewrite H).
  rewrite (m_lit_app fl (js ">") _ (js "</p>" ++ s)). cbn [before rest caps].
  rewrite (m_lit_app fl (js "</p>")).
  f_equal. f_equal.
  f_equal. f_equal.
  exact (consumed_app bef _ [] (js "</h" ++ c :: js ">") (js "</p>" ++ s) []).
Qed.

(** One or more characters of a class. *)
Lemma m_plus_set fl neg items x k :
  m fl (Plus (CSet neg items)) x k =
  match_char (fun c => xorb neg (set_mem fl items c)) x
    (fun y => star_chars (fun c => xorb neg (set_mem fl items c)) k
                         (before y) (rest y) (caps y)).
Proof.
  unfold Plus. cbn [m groups]. cbn [Nat.add].
  cbn [repeat_matcher is_zero Nat.eqb negb andb Nat.pred pred_max].
  rewrite clear_caps_nil, mstate_eta.
  unfold match_char. destruct (rest x) as [|c t] eqn:R; [reflexivity|].
  destruct (xorb neg (set_mem fl items c)); [|reflexivity].
  unfold step1. cbn [before rest caps].
  apply (repeat_star_chars (fun c => xorb neg (set_mem fl items c)) k (caps x) t).
  simpl. lia.
Qed.

Lemma m_plus_chars fl neg items bef u v cps k z :
  u <> [] ->
  Forall (fun c => xorb neg (set_mem fl items c) = true) u ->
  match v with
  | [] => True
  | c :: _ => xorb neg (set_mem fl items c) = false
  end ->
  k (MState (rev u ++ bef) v cps) = Some z ->
  m fl (Plus (CSet neg items)) (MState bef (u ++ v) cps) k = Some z.
Proof.
  intros N F S K. destruct u as [|c u]; [congruence|].
  inversion F as [|? ? Pc Pu]; subst.
  rewrite m_plus_set. unfold match_char. cbn [rest app]. rewrite Pc.
  unfold step1. cbn [before rest caps].
  apply star_chars_stop; auto.
  simpl in K. rewrite <- app_assoc in K. exact K.
Qed.

(** A class of one character that is not a letter. *)
Lemma set_mem_char fl a c :
  a < 65 \/ 90 < a < 97 \/ 122 < a ->
  set_mem fl [CChar a] c = (c =? a).
Proof.
  intros H. unfold set_mem, canonicalize, lower. cbn [existsb item_mem].
  rewrite !orb_false_r.
  destruct (N.eqb_spec c a) as [->|N]; [reflexivity|].
  destruct (ignoreCase fl); [|reflexivity]. cbn [andb orb].
  destruct (97 <=? c) eqn:E1; destruct (c <=? 122) eqn:E2;
    destruct (65 <=? c) eqn:E3; destruct (c <=? 90) eqn:E4; cbn [andb];
    repeat match goal with
           | K : (_ <=? _) = true |- _ => apply N.leb_le in K
           | K : (_ <=? _) = false |- _ => apply N.leb_gt in K
           end;
    repeat match goal with
           | |- context [?x =? ?y] =>
               destruct (N.eqb_spec x y); try lia
           end; reflexivity.
Qed.

Lemma not_char_plain fl a w :
  a < 65 \/ 90 < a < 97 \/ 122 < a ->
  ~ In a w ->
  Forall (fun c => xorb true (set_mem fl [CChar a] c) = true) w.
Proof.
  intros H N. apply Forall_forall. intros c K.
  rewrite set_mem_char by exact H.
  destruct (N.eqb_spec c a) as [->|_]; [contradiction | reflexivity].
Qed.

Lemma plain_word_not_special w c :
  plain_word w -> In c special -> ~ In c w.
Proof.
  intros [_ F] S K. rewrite Forall_forall in F.
  exact (plain_not_special (F c K) S).
Qed.

(** Inline code: a back quote, the code, a back quote. *)
Lemma code_match u bef v :
  u <> [] -> ~ In 96 u ->
  m gim (lit "`" >> Group 1 (Plus (notchar "`")) >> lit "`")
    (MState bef ((js "`" ++ u ++ js "`") ++ v) []) (fun y => Some y)
  = Some (MState (rev (js "`" ++ u ++ js "`") ++ bef) v [(1%nat, u)]).
Proof.
  intros N H. rewrite <- !app_assoc. unfold lit.
  rewrite m_seq, m_lit_app, m_seq, m_group.
  unfold notchar. change (map CChar (js "`")) with [CChar 96].
  apply m_plus_chars.
  - exact N.
  - apply not_char_plain; [lia | exact H].
  - reflexivity.
  - cbn [before rest caps].
    rewrite (m_lit_app gim [96] _ v). f_equal. f_equal.
    + rewrite !rev_app_distr, <- !app_assoc. reflexivity.
    + f_equal. f_equal. apply consumed_app.
Qed.

(** A list item: a hyphen and a space at the start of a line, then the
    rest of the line. *)
Lemma item_match u v :
  Forall (fun c => isLineTerminator c = false) u ->
  at_eol gim (MState [] v []) = true ->
  m gim (Bol >> lit "- " >> Group 1 (Star Dot >> Eol))
    (MState [] ((js "- " ++ u) ++ v) []) (fun y => Some y)
  = Some (MState (rev (js "- " ++ u) ++ []) v [(1%nat, u)]).
Proof.
  intros F E. rewrite <- !app_assoc.
  rewrite m_seq. change (m gim Bol) with (assert (at_bol gim)).
  unfold assert. cbn [at_bol before].
  rewrite m_seq. unfold lit. rewrite m_lit_app.
  rewrite m_line_group by (reflexivity || assumption).
  rewrite !rev_app_distr, <- !app_assoc. reflexivity.
Qed.

(** A numbered item: digits, a full stop and a space at the start of a
    line, then the rest of the line. *)
Lemma numbered_match d u v :
  d <> [] -> Forall (fun c => isDigit c = true) d ->
  Forall (fun c => isLineTerminator c = false) u ->
  at_eol gim (MState [] v []) = true ->
  m gim (Bol >> Plus digit >> lit ". " >> Group 1 (Star Dot >> Eol))
    (MState [] ((d ++ js ". " ++ u) ++ v) []) (fun y => Some y)
  = Some (MState (rev (d ++ js ". " ++ u) ++ []) v [(1%nat, u)]).
Proof.
  intros N D F E. rewrite <- !app_assoc.
  rewrite m_seq. change (m gim Bol) with (assert (at_bol gim)).
  unfold assert. cbn [at_bol before].
  rewrite m_seq. unfold digit. apply m_plus_chars.
  - exact N.
  - eapply Forall_impl; [|exact D]. intros c H. unfold set_mem.
    cbn [existsb item_mem]. rewrite H. reflexivity.
  - reflexivity.
  - rewrite m_seq. unfold lit. rewrite m_lit_app.
    rewrite m_line_group by (reflexivity || assumption).
    rewrite !rev_app_distr, <- !app_assoc. reflexivity.
Qed.

(** A link: the text in square brackets, the address in round ones. *)
Lemma link_match u w bef v :
  u <> [] -> ~ In 93 u -> w <> [] -> ~ In 41 w ->
  m gim (lit "[" >> Group 1 (Plus (notchar "]")) >> lit "](" >>
         Group 2 (Plus (notchar ")")) >> lit ")")
    (MState bef ((js "[" ++ u ++ js "](" ++ w ++ js ")") ++ v) [])
    (fun y => Some y)
  = Some (MState (rev (js "[" ++ u ++ js "](" ++ w ++ js ")") ++ bef) v
                 [(2%nat, w); (1%nat, u)]).
Proof.
  intros Nu Hu Nw Hw. rewrite <- !app_assoc. unfold lit.
  rewrite m_seq, m_lit_app, m_seq, m_group.
  unfold notchar. change (map CChar (js "]")) with [CChar 93].
  change (map CChar (js ")")) with [CChar 41].
  apply m_plus_chars.
  - exact Nu.
  - apply not_char_plain; [lia | exact Hu].
  - reflexivity.
  - cbn [before rest caps]. rewrite consumed_app.
    rewrite m_seq, m_lit_app, m_seq, m_group.
    apply m_plus_chars.
    + exact Nw.
    + apply not_char_plain; [lia | exact Hw].
    + reflexivity.
    + cbn [before rest caps]. rewrite consumed_app.
      rewrite (m_lit_app gim (js ")") _ v). f_equal. f_equal.
      rewrite !rev_app_distr, <- !app_assoc. reflexivity.
Qed.

(** The wrap pass on a document that is one run of list items. *)
Lemma wrap_list_whole mid :
  wrap_list (li_open ++ mid ++ li_close) =
  js "<ul>" ++ li_open ++ mid ++ li_close ++ js "</ul>".
Proof.
  rewrite wrap_list_is. unfold replace, pieces. cbn [match_all].
  pose proof (@wrap_regex_match [] mid [] eq_refl) as M.
  rewrite !app_nil_r in M.
  rewrite (exec_from_here _ _ _ _ _ M).
  cbn [global s_ negb map concat render_piece skipped groups_of after rest rev app].
  unfold expand. cbn [map concat expand_item cap Nat.eqb caps].
  rewrite ?app_nil_r, <- ?app_assoc. reflexivity.
Qed.

Section Rendering.
Variables a b : jsstring.
Hypothesis Ha : plain_word a.
Hypothesis Hb : plain_word b.

Lemma replace_with_nothing fl r f d :
  no_match_in fl r d [] = true ->
  replace_with fl r f (denote a b d) = Ok (denote a b d).
Proof.
  intros H. apply replace_with_none. intros p1 p2 E.
  rewrite <- (app_nil_r (rev p1)). now apply (no_match_anywhere Ha Hb fl r d []).
Qed.

Ltac nothing :=
  rewrite (replace_nothing Ha Hb) by (vm_compute; reflexivity).

Ltac as_doc T :=
  match goal with
  | |- context [replace _ _ _ ?s] =>
      replace s with (denote a b T)
        by (rewrite ?denote_app, ?denote_chars;
            cbn [denote flat_map expand expand_item concat map cap Nat.eqb];
            rewrite ?app_nil_r, <- ?app_assoc; reflexivity)
  end.

Ltac passes :=
  split; [|split];
  [ unfold inline_passes, header, bold, italic; cbv zeta; repeat nothing; reflexivity
  | apply replace_with_nothing; vm_compute; reflexivity
  | unfold block_passes, wrap_list; cbv zeta; repeat nothing; reflexivity ].

Lemma render_untouched d out :
  untouched a b d ->
  cleanup (paragraphs (denote a b d)) = out ->
  renderMarkdown (denote a b d) = Ok out.
Proof.
  intros [I [F K]] C. unfold renderMarkdown. rewrite I, F. cbn [bind].
  rewrite K, C. reflexivity.
Qed.

Lemma two_words_render :
  renderMarkdown (a ++ 32 :: b) = Ok (js "<p>" ++ a ++ 32 :: b ++ js "</p>").
Proof.
  change (a ++ 32 :: b) with (a ++ [32] ++ b).
  replace (a ++ [32] ++ b) with (denote a b [A; C 32; B])
    by (cbn [denote flat_map]; rewrite app_nil_r; reflexivity).
  apply render_untouched; [passes|].
  unfold paragraphs, blank_lines. cbv zeta. nothing.
  unfold cleanup. cbv zeta.
  as_doc (chars (js "<p>") ++ [A; C 32; B] ++ chars (js "</p>")).
  repeat nothing.
  rewrite !denote_app, !denote_chars. cbn [denote flat_map].
  rewrite ?app_nil_r, <- ?app_assoc. reflexivity.
Qed.

Lemma paragraphs_render :
  renderMarkdown (a ++ blank ++ b) =
  Ok (js "<p>" ++ a ++ js "</p><p>" ++ b ++ js "</p>").
Proof.
  replace (a ++ blank ++ b) with (denote a b [A; C LF; C LF; B])
    by (cbn [denote flat_map]; rewrite app_nil_r; reflexivity).
  apply render_untouched; [passes|].
  unfold paragraphs. cbv zeta. rewrite blank_lines_para.
  replace (denote a b [A; C LF; C LF; B]) with (a ++ LF :: LF :: b)
    by (cbn [denote flat_map]; rewrite app_nil_r; reflexivity).
  rewrite (@para_app_blank (length a)), !para_no_lf
    by (auto using plain_word_no_lf, plain_word_ends).
  unfold cleanup. cbv zeta.
  as_doc (chars (js "<p>") ++ [A] ++ chars boundary ++ [B] ++ chars (js "</p>")).
  repeat nothing.
  rewrite !denote_app, !denote_chars. cbn [denote flat_map].
  rewrite ?app_nil_r, <- ?app_assoc. reflexivity.
Qed.

Lemma level4_render :
  renderMarkdown (js "#### " ++ a) = Ok (js "<p>#### " ++ a ++ js "</p>").
Proof.
  replace (js "#### " ++ a) with (denote a b (chars (js "#### ") ++ [A]))
    by (rewrite denote_app, denote_chars; cbn [denote flat_map];
        rewrite app_nil_r; reflexivity).
  apply render_untouched; [passes|].
  unfold paragraphs, blank_lines. cbv zeta. nothing.
  unfold cleanup. cbv zeta.
  as_doc (chars (js "<p>") ++ (chars (js "#### ") ++ [A]) ++ chars (js "</p>")).
  repeat nothing.
  rewrite !denote_app, !denote_chars. cbn [denote flat_map].
  rewrite ?app_nil_r, <- ?app_assoc. reflexivity.
Qed.

Ltac one P M CPS K :=
  rewrite (replace_one Ha Hb gim _ _ P _ (M := M) (cps := CPS));
    [ | reflexivity | discriminate | vm_compute; reflexivity
      | K | vm_compute; reflexivity ].

(** From the heading element on. *)
Lemma heading_tail c :
  In c [49; 50; 51] ->
  (html <- replace_with gim fence code_block
             (italic (bold ((js "<h" ++ c :: js ">") ++ a
                            ++ (js "</h" ++ c :: js ">") ++ blank ++ b))) ;;
   Ok (cleanup (paragraphs (block_passes html)))) =
  Ok ((js "<h" ++ c :: js ">") ++ a ++ (js "</h" ++ c :: js ">")
      ++ js "<p>" ++ b ++ js "</p>").
Proof.
  intros [<-|[<-|[<-|[]]]].
  all: match goal with
       | |- context [italic (bold (?o ++ a ++ ?c ++ blank ++ b))] =>
           set (op := o); set (cl := c);
           replace (op ++ a ++ cl ++ blank ++ b)
             with (denote a b (chars op ++ [A] ++ chars cl ++ [C LF; C LF; B]))
             by (rewrite ?denote_app, ?denote_chars; cbn [denote flat_map];
                 rewrite ?app_nil_r, <- ?app_assoc; reflexivity)
       end.
  all: unfold bold, italic; do 2 nothing.
  all: rewrite replace_with_nothing by (vm_compute; reflexivity); cbn [bind].
  all: unfold block_passes, wrap_list; cbv zeta; repeat nothing.
  all: unfold paragraphs; cbv zeta; rewrite blank_lines_para.
  all: replace (denote a b (chars op ++ [A] ++ chars cl ++ [C LF; C LF; B]))
         with ((op ++ a ++ cl) ++ LF :: LF :: b)
         by (rewrite ?denote_app, ?denote_chars; cbn [denote flat_map];
             rewrite ?app_nil_r, <- ?app_assoc; reflexivity).
  all: rewrite (@para_app_blank (length (op ++ a ++ cl)));
         [ | reflexivity | rewrite app_assoc; apply ends_with_lf_app; discriminate ].
  all: rewrite !para_no_lf;
         [ | exact (plain_word_no_lf Hb)
           | intros K; apply in_app_or in K as [K|K];
             [ revert K; vm_compute; intuition discriminate
             | apply in_app_or in K as [K|K];
               [ exact (plain_word_no_lf Ha K)
               | revert K; vm_compute; intuition discriminate ] ] ].
  all: unfold cleanup; cbv zeta.
  all: as_doc (chars (js "<p>" ++ op) ++ [A] ++ chars (cl ++ js "</p>")
               ++ chars (js "<p>") ++ [B] ++ chars (js "</p>")).
  all: nothing.
  all: as_doc ([] ++ chars (js "<p>" ++ op)
               ++ ([A] ++ chars (cl ++ js "</p>")
                   ++ chars (js "<p>") ++ [B] ++ chars (js "</p>"))).
  all: one (@nil tok) (js "<p>" ++ op) [(1%nat, op)]
         ltac:(apply (m_p_heading gim); reflexivity).
  all: as_doc ((chars op ++ [A]) ++ chars (cl ++ js "</p>")
               ++ (chars (js "<p>") ++ [B] ++ chars (js "</p>"))).
  all: one (chars op ++ [A]) (cl ++ js "</p>") [(1%nat, cl)]
         ltac:(apply (m_heading_p gim); reflexivity).
  all: as_doc (chars op ++ [A] ++ chars cl
               ++ chars (js "<p>") ++ [B] ++ chars (js "</p>")).
  all: repeat nothing.
  all: rewrite !denote_app, !denote_chars; cbn [denote flat_map];
       rewrite ?app_nil_r, <- ?app_assoc; reflexivity.
Qed.

Lemma heading_render hashes c :
  In (hashes, c) [("#"%string, 49); ("##"%string, 50); ("###"%string, 51)] ->
  renderMarkdown (js hashes ++ js " " ++ a ++ blank ++ b) =
  Ok ((js "<h" ++ c :: js ">") ++ a ++ (js "</h" ++ c :: js ">")
      ++ js "<p>" ++ b ++ js "</p>").
Proof.
  intros [E|[E|[E|[]]]]; injection E as <- <-.
  all: unfold renderMarkdown, inline_passes, header; cbv zeta.
  - as_doc (chars (js "# ") ++ [A; C LF; C LF; B]).
    do 2 nothing.
    as_doc ([] ++ chars (js "#" ++ js " " ++ a) ++ [C LF; C LF; B]).
    one (@nil tok) (js "#" ++ js " " ++ a) [(1%nat, a)]
      ltac:(apply header_match; [exact (plain_word_line Ha) | reflexivity]).
    rewrite <- (@heading_tail 49) by (simpl; tauto).
    cbn [denote flat_map expand expand_item concat map cap Nat.eqb].
    rewrite ?app_nil_r, <- ?app_assoc. reflexivity.
  - as_doc (chars (js "## ") ++ [A; C LF; C LF; B]).
    nothing.
    as_doc ([] ++ chars (js "##" ++ js " " ++ a) ++ [C LF; C LF; B]).
    one (@nil tok) (js "##" ++ js " " ++ a) [(1%nat, a)]
      ltac:(apply header_match; [exact (plain_word_line Ha) | reflexivity]).
    as_doc (chars (js "<h2>") ++ [A] ++ chars (js "</h2>") ++ [C LF; C LF; B]).
    nothing.
    rewrite <- (@heading_tail 50) by (simpl; tauto).
    rewrite ?denote_app, ?denote_chars. cbn [denote flat_map].
    rewrite ?app_nil_r, <- ?app_assoc. reflexivity.
  - as_doc ([] ++ chars (js "###" ++ js " " ++ a) ++ [C LF; C LF; B]).
    one (@nil tok) (js "###" ++ js " " ++ a) [(1%nat, a)]
      ltac:(apply header_match; [exact (plain_word_line Ha) | reflexivity]).
    as_doc (chars (js "<h3>") ++ [A] ++ chars (js "</h3>") ++ [C LF; C LF; B]).
    do 2 nothing.
    rewrite <- (@heading_tail 51) by (simpl; tauto).
    rewrite ?denote_app, ?denote_chars. cbn [denote flat_map].
    rewrite ?app_nil_r, <- ?app_assoc. reflexivity.
Qed.

Lemma code_render :
  renderMarkdown (js "`" ++ a ++ js "`") =
  Ok (js "<p><code>" ++ a ++ js "</code></p>").
Proof.
  unfold renderMarkdown, inline_passes, header, bold, italic; cbv zeta.
  as_doc (chars (js "`") ++ [A] ++ chars (js "`")).
  repeat nothing.
  rewrite replace_with_nothing by (vm_compute; reflexivity). cbn [bind].
  unfold block_passes, wrap_list; cbv zeta.
  as_doc ([] ++ chars (js "`" ++ a ++ js "`") ++ []).
  one (@nil tok) (js "`" ++ a ++ js "`") [(1%nat, a)]
    ltac:(apply code_match;
          [ exact (proj1 Ha)
          | apply (plain_word_not_special Ha); vm_compute; tauto ]).
  as_doc (chars (js "<code>") ++ [A] ++ chars (js "</code>")).
  repeat nothing.
  unfold paragraphs, blank_lines; cbv zeta. nothing.
  unfold cleanup; cbv zeta.
  as_doc (chars (js "<p>") ++ (chars (js "<code>") ++ [A] ++ chars (js "</code>"))
          ++ chars (js "</p>")).
  repeat nothing.
  rewrite !denote_app, !denote_chars. cbn [denote flat_map].
  rewrite ?app_nil_r, <- ?app_assoc. reflexivity.
Qed.

Lemma item_render :
  renderMarkdown (js "- " ++ a) = Ok (js "<ul><li>" ++ a ++ js "</li></ul>").
Proof.
  unfold renderMarkdown, inline_passes, header, bold, italic; cbv zeta.
  as_doc (chars (js "- ") ++ [A]).
  repeat nothing.
  rewrite replace_with_nothing by (vm_compute; reflexivity). cbn [bind].
  unfold block_passes; cbv zeta.
  do 2 nothing.
  as_doc ([] ++ chars (js "- " ++ a) ++ []).
  one (@nil tok) (js "- " ++ a) [(1%nat, a)]
    ltac:(apply item_match; [exact (plain_word_line Ha) | reflexivity]).
  replace (denote a b [] ++ expand [TLit "<li>"; TGroup 1; TLit "</li>"] [(1%nat, a)]
           ++ denote a b [])
    with (li_open ++ a ++ li_close)
    by (cbn [denote flat_map expand expand_item concat map cap Nat.eqb app];
        rewrite ?app_nil_r, <- ?app_assoc; reflexivity).
  rewrite wrap_list_whole.
  as_doc (chars (js "<ul>" ++ li_open) ++ [A] ++ chars (li_close ++ js "</ul>")).
  do 2 nothing.
  unfold paragraphs, blank_lines; cbv zeta. nothing.
  unfold cleanup; cbv zeta.
  as_doc (chars (js "<p>") ++ chars (js "<ul>" ++ li_open) ++ [A]
          ++ chars (li_close ++ js "</ul>") ++ chars (js "</p>")).
  do 3 nothing.
  as_doc ([] ++ chars (js "<p>" ++ js "<ul>")
          ++ (chars li_open ++ [A] ++ chars (li_close ++ js "</ul>")
              ++ chars (js "</p>"))).
  one (@nil tok) (js "<p>" ++ js "<ul>") [(1%nat, js "<ul>")]
    ltac:(exact (m_lit_then_group gim 1 (js "<p>") (js "<ul>") [] _)).
  as_doc ((chars (js "<ul>" ++ li_open) ++ [A] ++ chars li_close)
          ++ chars (js "</ul>" ++ js "</p>") ++ []).
  one (chars (js "<ul>" ++ li_open) ++ [A] ++ chars li_close)
      (js "</ul>" ++ js "</p>") [(1%nat, js "</ul>")]
    ltac:(exact (m_group_then_lit gim 1 (js "</ul>") (js "</p>") _ _)).
  as_doc (chars (js "<ul>" ++ li_open) ++ [A] ++ chars (li_close ++ js "</ul>")).
  repeat nothing.
  rewrite !denote_app, !denote_chars. cbn [denote flat_map].
  rewrite ?app_nil_r, <- ?app_assoc. reflexivity.
Qed.

Lemma numbered_render :
  renderMarkdown (js "1. " ++ a) = Ok (js "<p><li>" ++ a ++ js "</li></p>").
Proof.
  unfold renderMarkdown, inline_passes, header, bold, italic; cbv zeta.
  as_doc (chars (js "1. ") ++ [A]).
  repeat nothing.
  rewrite replace_with_nothing by (vm_compute; reflexivity). cbn [bind].
  unfold block_passes, wrap_list; cbv zeta.
  do 4 nothing.
  as_doc ([] ++ chars (js "1" ++ js ". " ++ a) ++ []).
  one (@nil tok) (js "1" ++ js ". " ++ a) [(1%nat, a)]
    ltac:(apply numbered_match;
          [ discriminate | repeat constructor
          | exact (plain_word_line Ha) | reflexivity ]).
  as_doc (chars li_open ++ [A] ++ chars li_close).
  nothing.
  unfold paragraphs, blank_lines; cbv zeta. nothing.
  unfold cleanup; cbv zeta.
  as_doc (chars (js "<p>") ++ (chars li_open ++ [A] ++ chars li_close)
          ++ chars (js "</p>")).
  repeat nothing.
  rewrite !denote_app, !denote_chars. cbn [denote flat_map].
  rewrite ?app_nil_r, <- ?app_assoc. reflexivity.
Qed.

Hypothesis Ha93 : ~ In 93 a.
Hypothesis Hb41 : ~ In 41 b.

Lemma link_render :
  renderMarkdown (js "[" ++ a ++ js "](" ++ b ++ js ")") =
  Ok (js "<p><a href=~" ++ b ++ js "~ target=~_blank~>" ++ a ++ js "</a></p>").
Proof.
  unfold renderMarkdown, inline_passes, header, bold, italic; cbv zeta.
  as_doc (chars (js "[") ++ [A] ++ chars (js "](") ++ [B] ++ chars (js ")")).
  repeat nothing.
  rewrite replace_with_nothing by (vm_compute; reflexivity). cbn [bind].
  unfold block_passes, wrap_list; cbv zeta.
  nothing.
  as_doc ([] ++ chars (js "[" ++ a ++ js "](" ++ b ++ js ")") ++ []).
  one (@nil tok) (js "[" ++ a ++ js "](" ++ b ++ js ")") [(2%nat, b); (1%nat, a)]
    ltac:(apply link_match;
          [exact (proj1 Ha) | exact Ha93 | exact (proj1 Hb) | exact Hb41]).
  as_doc (chars (js "<a href=~") ++ [B] ++ chars (js "~ target=~_blank~>")
          ++ [A] ++ chars (js "</a>")).
  repeat nothing.
  unfold paragraphs, blank_lines; cbv zeta. nothing.
  unfold cleanup; cbv zeta.
  as_doc (chars (js "<p>")
          ++ (chars (js "<a href=~") ++ [B] ++ chars (js "~ target=~_blank~>")
              ++ [A] ++ chars (js "</a>"))
          ++ chars (js "</p>")).
  repeat nothing.
  rewrite !denote_app, !denote_chars. cbn [denote flat_map].
  rewrite ?app_nil_r, <- ?app_assoc. reflexivity.
Qed.

End Rendering.

(** X21.  Text without markup is one paragraph: two plain words with a
    space between them come back unchanged inside [<p>...</p>]; no pass of
    [renderMarkdown] touches them. *)
Theorem renderMarkdown_plain_text (a b : jsstring) :
  plain_word a -> plain_word b ->
  renderMarkdown (a ++ 32 :: b) = Ok (js "<p>" ++ a ++ 32 :: b ++ js "</p>").
Proof. intros Ha Hb. exact (two_words_render Ha Hb). Qed.

Lemma renderMarkdown_plain_text_witness :
  renderMarkdown (js "hello" ++ 32 :: js "world") =
  Ok (js "<p>" ++ js "hello" ++ 32 :: js "world" ++ js "</p>").
Proof.
  apply renderMarkdown_plain_text; (split; [discriminate | repeat constructor]).
Defined.

(** X22.  A blank line separates paragraphs: two plain words with a blank
    line between them are rendered as two [<p>] elements. *)
Theorem renderMarkdown_paragraphs (a b : jsstring) :
  plain_word a -> plain_word b ->
  renderMarkdown (a ++ blank ++ b) =
  Ok (js "<p>" ++ a ++ js "</p><p>" ++ b ++ js "</p>").
Proof. intros Ha Hb. exact (paragraphs_render Ha Hb). Qed.

Lemma renderMarkdown_paragraphs_witness :
  renderMarkdown (js "first" ++ blank ++ js "second") =
  Ok (js "<p>" ++ js "first" ++ js "</p><p>" ++ js "second" ++ js "</p>").
Proof.
  apply renderMarkdown_paragraphs; (split; [discriminate | repeat constructor]).
Defined.

(** X23.  There are three heading levels.  A line of one, two or three
    hash signs, a space and a plain word, followed by a blank line and a
    paragraph, is rendered as the [h1], [h2] or [h3] element, outside any
    paragraph, followed by the paragraph; with four hash signs the line is
    not a heading and is rendered as a paragraph, hash signs included. *)
Theorem renderMarkdown_headings (a b : jsstring) :
  plain_word a -> plain_word b ->
  renderMarkdown (js "# " ++ a ++ blank ++ b) =
    Ok (js "<h1>" ++ a ++ js "</h1><p>" ++ b ++ js "</p>") /\
  renderMarkdown (js "## " ++ a ++ blank ++ b) =
    Ok (js "<h2>" ++ a ++ js "</h2><p>" ++ b ++ js "</p>") /\
  renderMarkdown (js "### " ++ a ++ blank ++ b) =
    Ok (js "<h3>" ++ a ++ js "</h3><p>" ++ b ++ js "</p>") /\
  renderMarkdown (js "#### " ++ a) = Ok (js "<p>#### " ++ a ++ js "</p>").
Proof.
  intros Ha Hb. split; [|split; [|split]].
  - exact (@heading_render a b Ha Hb "#" 49 (or_introl eq_refl)).
  - exact (@heading_render a b Ha Hb "##" 50 (or_intror (or_introl eq_refl))).
  - exact (@heading_render a b Ha Hb "###" 51
             (or_intror (or_intror (or_introl eq_refl)))).
  - exact (level4_render Ha Hb).
Qed.

Lemma renderMarkdown_headings_witness :
  renderMarkdown (js "## " ++ js "Setup" ++ blank ++ js "Install") =
  Ok (js "<h2>" ++ js "Setup" ++ js "</h2><p>" ++ js "Install" ++ js "</p>").
Proof.
  apply (renderMarkdown_headings (a := js "Setup") (b := js "Install"));
    (split; [discriminate | repeat constructor]).
Defined.

(** X24.  Inline code: a plain word between two back quotes is rendered
    as a [<code>] element inside the paragraph. *)
Theorem renderMarkdown_inline_code (a : jsstring) :
  plain_word a ->
  renderMarkdown (js "`" ++ a ++ js "`") =
  Ok (js "<p><code>" ++ a ++ js "</code></p>").
Proof. intros Ha. exact (code_render Ha Ha). Qed.

Lemma renderMarkdown_inline_code_witness :
  renderMarkdown (js "`" ++ js "npm" ++ js "`") =
  Ok (js "<p><code>" ++ js "npm" ++ js "</code></p>").
Proof.
  apply renderMarkdown_inline_code. split; [discriminate | repeat constructor].
Defined.

(** X25.  Links: for a plain word [a] without a closing square bracket
    and a plain word [b] without a closing round bracket, the text [a] in
    square brackets followed by [b] in round brackets is rendered as an
    [<a>] element with [b] as its address, [a] as its text and the target
    [_blank]. *)
Theorem renderMarkdown_link (a b : jsstring) :
  plain_word a -> plain_word b -> ~ In 93 a -> ~ In 41 b ->
  renderMarkdown (js "[" ++ a ++ js "](" ++ b ++ js ")") =
  Ok (js "<p><a href=~" ++ b ++ js "~ target=~_blank~>" ++ a ++ js "</a></p>").
Proof. intros Ha Hb Ha93 Hb41. exact (link_render Ha Hb Ha93 Hb41). Qed.

Lemma renderMarkdown_link_witness :
  renderMarkdown (js "[" ++ js "docs" ++ js "](" ++ js "https://angular.dev"
                  ++ js ")") =
  Ok (js "<p><a href=~" ++ js "https://angular.dev" ++ js "~ target=~_blank~>"
      ++ js "docs" ++ js "</a></p>").
Proof.
  apply renderMarkdown_link;
    try (split; [discriminate | repeat constructor]);
    vm_compute; intuition discriminate.
Defined.

(** X26.  A bullet item: a hyphen, a space and a plain word are rendered
    as a list of one item, outside any paragraph. *)
Theorem renderMarkdown_list_item (a : jsstring) :
  plain_word a ->
  renderMarkdown (js "- " ++ a) = Ok (js "<ul><li>" ++ a ++ js "</li></ul>").
Proof. intros Ha. exact (item_render Ha Ha). Qed.

Lemma renderMarkdown_list_item_witness :
  renderMarkdown (js "- " ++ js "item") =
  Ok (js "<ul><li>" ++ js "item" ++ js "</li></ul>").
Proof.
  apply renderMarkdown_list_item. split; [discriminate | repeat constructor].
Defined.

(** X27.  A numbered item gets no list around it: the list wrap pass runs
    before the pass for numbered items, so the [<li>] element of a numbered
    item stays directly inside the paragraph. *)
Theorem renderMarkdown_numbered_item (a : jsstring) :
  plain_word a ->
  renderMarkdown (js "1. " ++ a) = Ok (js "<p><li>" ++ a ++ js "</li></p>").
Proof. intros Ha. exact (numbered_render Ha Ha). Qed.

Lemma renderMarkdown_numbered_item_witness :
  renderMarkdown (js "1. " ++ js "item") =
  Ok (js "<p><li>" ++ js "item" ++ js "</li></p>").
Proof.
  apply renderMarkdown_numbered_item. split; [discriminate | repeat constructor].
Defined.

(** A lazy run between two markers: the opening marker, as few characters
    as possible, the closing marker. *)
Lemma lazy_group_match fl p1 c2 p2 u bef v :
  dotAll fl = false ->
  plain c2 = false ->
  Forall (fun c => plain c = true) u ->
  m fl (Seq (lit_chars p1)
            (Seq (Group 1 (LazyStar Dot)) (lit_chars (c2 :: p2))))
    (MState bef ((p1 ++ u ++ c2 :: p2) ++ v) []) (fun y => Some y)
  = Some (MState (rev (p1 ++ u ++ c2 :: p2) ++ bef) v [(1%nat, u)]).
Proof.
  intros D P F. rewrite <- !app_assoc.
  rewrite m_seq, m_lit_app, m_seq, m_group, m_lazy_dot. cbn [before rest caps].
  apply lazy_chars_first.
  - eapply Forall_impl; [|exact F]. intros c H. cbv beta.
    rewrite D, (plain_not_terminator _ H). reflexivity.
  - intros u1 u2 E N. cbn [before rest caps].
    rewrite m_lit_chars. cbn [rest].
    destruct u2 as [|c u2]; [congruence|].
    assert (Pc : plain c = true).
    { rewrite Forall_forall in F. apply F. rewrite E.
      apply in_or_app. right. now left. }
    assert (T : test_eval fl (TChr c2) c = false).
    { apply never_plain_sound; [|exact Pc]. simpl. now rewrite P. }
    simpl in T. cbn [app starts]. rewrite T. reflexivity.
  - cbn [before rest caps]. rewrite consumed_app.
    rewrite (m_lit_app fl (c2 :: p2) _ v). f_equal. f_equal.
    rewrite !rev_app_distr, <- !app_assoc. reflexivity.
Qed.

(** A rule: three hyphens that are a whole line. *)
Lemma rule_match bef v :
  at_bol gim (MState bef [] []) = true ->
  at_eol gim (MState [] v []) = true ->
  m gim (Bol >> lit "---" >> Eol) (MState bef (js "---" ++ v) [])
    (fun y => Some y)
  = Some (MState (rev (js "---") ++ bef) v []).
Proof.
  intros B E. rewrite m_seq. change (m gim Bol) with (assert (at_bol gim)).
  unfold assert.
  replace (at_bol gim (MState bef (js "---" ++ v) []))
    with (at_bol gim (MState bef [] [])) by reflexivity.
  rewrite B, m_seq. unfold lit. rewrite m_lit_app.
  change (m gim Eol) with (assert (at_eol gim)). unfold assert.
  replace (at_eol gim (MState (rev (js "---") ++ bef) v []))
    with (at_eol gim (MState [] v [])) by reflexivity.
  rewrite E. reflexivity.
Qed.

Lemma m_lit_group_lit fl n p1 p2 p3 bef s :
  m fl (Seq (lit_chars p1) (Seq (Group n (lit_chars p2)) (lit_chars p3)))
    (MState bef ((p1 ++ p2 ++ p3) ++ s) []) (fun y => Some y) =
  Some (MState (rev (p1 ++ p2 ++ p3) ++ bef) s [(n, p2)]).
Proof.
  rewrite <- !app_assoc.
  rewrite m_seq, m_lit_app, m_seq, m_group, m_lit_app. cbn [before rest caps].
  rewrite consumed_app, m_lit_app. f_equal. f_equal.
  rewrite !rev_app_distr, <- !app_assoc. reflexivity.
Qed.

Section Emphasis.
Variables a b : jsstring.
Hypothesis Ha : plain_word a.
Hypothesis Hb : plain_word b.

Ltac nothing :=
  rewrite (replace_nothing Ha Hb) by (vm_compute; reflexivity).

Ltac as_doc T :=
  match goal with
  | |- context [replace _ _ _ ?s] =>
      replace s with (denote a b T)
        by (rewrite ?denote_app, ?denote_chars;
            cbn [denote flat_map expand expand_item concat map cap Nat.eqb];
            rewrite ?app_nil_r, <- ?app_assoc; reflexivity)
  end.

Ltac one P M CPS K :=
  rewrite (replace_one Ha Hb gim _ _ P _ (M := M) (cps := CPS));
    [ | reflexivity | discriminate | vm_compute; reflexivity
      | K | vm_compute; reflexivity ].

Ltac rest_of_passes T :=
  rewrite (replace_with_nothing Ha Hb) by (vm_compute; reflexivity); cbn [bind];
  unfold block_passes, wrap_list; cbv zeta; repeat nothing;
  unfold paragraphs, blank_lines; cbv zeta; nothing;
  unfold cleanup; cbv zeta;
  as_doc (chars (js "<p>") ++ T ++ chars (js "</p>"));
  repeat nothing;
  rewrite !denote_app, !denote_chars; cbn [denote flat_map];
  rewrite ?app_nil_r, <- ?app_assoc; reflexivity.

Lemma bold_render :
  renderMarkdown (js "**" ++ a ++ js "**") =
  Ok (js "<p><strong>" ++ a ++ js "</strong></p>").
Proof.
  unfold renderMarkdown, inline_passes, header, bold, italic; cbv zeta.
  as_doc (chars (js "**") ++ [A] ++ chars (js "**")).
  do 3 nothing.
  as_doc ([] ++ chars (js "**" ++ a ++ js "**") ++ []).
  one (@nil tok) (js "**" ++ a ++ js "**") [(1%nat, a)]
    ltac:(apply (lazy_group_match gim (js "**") 42 [42]);
          [reflexivity | reflexivity | exact (proj2 Ha)]).
  as_doc (chars (js "<strong>") ++ [A] ++ chars (js "</strong>")).
  nothing.
  rest_of_passes (chars (js "<strong>") ++ [A] ++ chars (js "</strong>")).
Qed.

Lemma italic_render :
  renderMarkdown (js "*" ++ a ++ js "*") =
  Ok (js "<p><em>" ++ a ++ js "</em></p>").
Proof.
  unfold renderMarkdown, inline_passes, header, bold, italic; cbv zeta.
  as_doc (chars (js "*") ++ [A] ++ chars (js "*")).
  do 4 nothing.
  as_doc ([] ++ chars (js "*" ++ a ++ js "*") ++ []).
  one (@nil tok) (js "*" ++ a ++ js "*") [(1%nat, a)]
    ltac:(apply (lazy_group_match gim (js "*") 42 []);
          [reflexivity | reflexivity | exact (proj2 Ha)]).
  match goal with
  | |- context [replace_with _ _ _ ?s] =>
      replace s
        with (denote a b (chars (js "<em>") ++ [A] ++ chars (js "</em>")))
        by (rewrite ?denote_app, ?denote_chars;
            cbn [denote flat_map expand expand_item concat map cap Nat.eqb];
            rewrite ?app_nil_r, <- ?app_assoc; reflexivity)
  end.
  rest_of_passes (chars (js "<em>") ++ [A] ++ chars (js "</em>")).
Qed.

Lemma rule_render :
  renderMarkdown (a ++ blank ++ js "---" ++ blank ++ b) =
  Ok (js "<p>" ++ a ++ js "</p><hr><p>" ++ b ++ js "</p>").
Proof.
  unfold renderMarkdown, inline_passes, header, bold, italic; cbv zeta.
  as_doc ([A; C LF; C LF] ++ chars (js "---") ++ [C LF; C LF; B]).
  repeat nothing.
  rewrite (replace_with_nothing Ha Hb) by (vm_compute; reflexivity); cbn [bind].
  unfold block_passes, wrap_list; cbv zeta.
  do 5 nothing.
  one [A; C LF; C LF] (js "---") (@nil (nat * jsstring))
    ltac:(apply rule_match;
          [ cbn [denote flat_map]; rewrite app_nil_r, app_assoc, rev_unit;
            reflexivity
          | reflexivity ]).
  unfold paragraphs; cbv zeta. rewrite blank_lines_para.
  replace (denote a b [A; C LF; C LF] ++ expand [TLit "<hr>"] []
           ++ denote a b [C LF; C LF; B])
    with (a ++ LF :: LF :: js "<hr>" ++ LF :: LF :: b)
    by (cbn [denote flat_map expand expand_item concat map app];
        rewrite ?app_nil_r, <- ?app_assoc; reflexivity).
  rewrite (@para_app_blank (length a)), (@para_app_blank (length (js "<hr>")))
    by (reflexivity || exact (plain_word_ends Ha)).
  rewrite !para_no_lf
    by (exact (plain_word_no_lf Ha) || exact (plain_word_no_lf Hb)
        || (vm_compute; intuition discriminate)).
  unfold cleanup; cbv zeta.
  as_doc ((chars (js "<p>") ++ [A] ++ chars (js "</p>"))
          ++ chars (js "<p>" ++ js "<hr>" ++ js "</p>")
          ++ (chars (js "<p>") ++ [B] ++ chars (js "</p>"))).
  do 7 nothing.
  one (chars (js "<p>") ++ [A] ++ chars (js "</p>"))
      (js "<p>" ++ js "<hr>" ++ js "</p>") [(1%nat, js "<hr>")]
    ltac:(exact (m_lit_group_lit gim 1 (js "<p>") (js "<hr>") (js "</p>") _ _)).
  rewrite !denote_app, !denote_chars. cbn [denote flat_map].
  rewrite ?app_nil_r, <- ?app_assoc. reflexivity.
Qed.

End Emphasis.

(** X28.  Emphasis: a plain word between double asterisks is rendered as
    a [<strong>] element, between single asterisks as an [<em>] element,
    each inside the paragraph, with the asterisks gone. *)
Theorem renderMarkdown_emphasis (a : jsstring) :
  plain_word a ->
  renderMarkdown (js "**" ++ a ++ js "**") =
    Ok (js "<p><strong>" ++ a ++ js "</strong></p>") /\
  renderMarkdown (js "*" ++ a ++ js "*") =
    Ok (js "<p><em>" ++ a ++ js "</em></p>").
Proof.
  intros Ha. split; [exact (bold_render Ha Ha) | exact (italic_render Ha Ha)].
Qed.

Lemma renderMarkdown_emphasis_witness :
  renderMarkdown (js "*" ++ js "never" ++ js "*") =
  Ok (js "<p><em>" ++ js "never" ++ js "</em></p>").
Proof.
  apply (renderMarkdown_emphasis (a := js "never")).
  split; [discriminate | repeat constructor].
Defined.

(** X29.  A rule: a line of three hyphens between two paragraphs is
    rendered as an [<hr>] element between the two [<p>] elements, outside
    any paragraph. *)
Theorem renderMarkdown_rule (a b : jsstring) :
  plain_word a -> plain_word b ->
  renderMarkdown (a ++ blank ++ js "---" ++ blank ++ b) =
  Ok (js "<p>" ++ a ++ js "</p><hr><p>" ++ b ++ js "</p>").
Proof. intros Ha Hb. exact (rule_render Ha Hb). Qed.

Lemma renderMarkdown_rule_witness :
  renderMarkdown (js "above" ++ blank ++ js "---" ++ blank ++ js "below") =
  Ok (js "<p>" ++ js "above" ++ js "</p><hr><p>" ++ js "below" ++ js "</p>").
Proof.
  apply renderMarkdown_rule; (split; [discriminate | repeat constructor]).
Defined.

(** * Code blocks and the passes after them *)






(** ** A fenced block whose content holds a bullet item *)







Section ItemInCode.
Variables a b : jsstring.
Hypothesis Ha : plain_word a.
Hypothesis Hb : plain_word b.

Ltac nothing :=
  rewrite (replace_nothing Ha Hb) by (vm_compute; reflexivity).

Ltac as_doc T :=
  match goal with
  | |- context [replace _ _ _ ?s] =>
      replace s with (denote a b T)
        by (rewrite ?denote_app, ?denote_chars;
            cbn [denote flat_map expand expand_item concat map cap Nat.eqb];
            rewrite ?app_nil_r, <- ?app_assoc; reflexivity)
  end.

Ltac one P M CPS K :=
  rewrite (replace_one Ha Hb gim _ _ P _ (M := M) (cps := CPS));
    [ | reflexivity | discriminate | vm_compute; reflexivity
      | K | vm_compute; reflexivity ].







End ItemInCode.




